(** * Network capture and retry-verify form filling: a shallow embedding

    This development models two utilities of the test-support library:

    - [HttpCapture] (the capture correlator): listens to the page's
      [request] and [response] events, filters them by a URL pattern and
      buffers request/response pairs;
    - [FormFillUtil] (the retry-verify engine and its batch orchestrator):
      [fillWithRetry], [verifyFill], [fillMultiple], [fillAndAssert].

    Modelling conventions.

    - JavaScript numbers that the code uses as counters, attempt numbers and
      millisecond durations are integers ([Z]); [Date.now()] is the field
      [now] of the world.
    - Asynchronous code runs on one cooperative event loop.  The main flow
      is written in state-passing style over an explicit world (a state and
      exception monad for [FormFillUtil]).  Every [await] of a driver call
      is a suspension point: it consumes one [Tick] of the environment's
      schedule, which says how much extra wall-clock time passed, which
      events the event loop delivered to the registered listeners
      meanwhile, and how the awaited driver call settled.  The schedule is
      universally quantified in the theorems, so they hold for every
      behaviour of the page.
    - The response handler of [HttpCapture] is itself asynchronous: it is
      suspended at [await response.text()] and pushes its pair when the
      event loop resumes it, which the schedule decides.
    - [page.waitForTimeout(ms)] never rejects and takes at least [ms]
      milliseconds; [page.on] and [page.off] never throw.  Callbacks given
      by the caller ([fillAction], [verifyAction]) belong to the
      environment: how they settle is part of the schedule.
    - A promise can be rejected with any value, and any value can be
      thrown: an [Error], [undefined], [null], or something else.
    - Inputs: an options object is given by the properties that hold a
      value; URLs are serialised, hence ASCII; a value to fill is seen
      through [typeof] and [String] only.
    - Loops whose termination depends on the clock take a [fuel] bound on
      the number of polling sleeps and end in [Stuck] when it runs out; the
      theorems show which fuel is enough.
    - Console output ([log], [console.warn]) is not modelled.

    The definitions come first (built-ins, event emitter, [FormFillUtil],
    [HttpCapture]); the facts about them follow in the same order. *)

From stdpp Require Import gmap strings list pretty.
From Stdlib Require Import ZArith Lia.

Open Scope Z_scope.

(** ** JavaScript built-ins used by the code *)

Module Js.

(** [s.includes(pat)]: [pat] occurs in [s] at some position. *)
Fixpoint includes (s pat : string) : bool :=
  String.prefix pat s ||
  match s with
  | EmptyString => false
  | String _ s' => includes s' pat
  end.

(** The text of [s] from position [i] on. *)
Definition string_from (i : nat) (s : string) : string :=
  String.substring i (String.length s - i) s.

(** A [RegExp] object.  [matcher s i] is the compiled pattern tried at
    position [i] of [s] only (the [[RegExpMatcher]] internal slot): it gives
    the end index of the match found there.  [lastIndex] is the mutable
    property that [exec] and [test] read and write when the [g] or [y] flag
    is set.  The texts tested are URLs as the driver reports them, that is
    serialised, hence made of ASCII characters: a position in the text is
    the same counted in characters and in UTF-16 code units. *)
Record RegExp := {
  matcher : string → nat → option nat;
  global : bool;
  sticky : bool;
  lastIndex : nat
}.

Definition set_lastIndex (i : nat) (r : RegExp) : RegExp :=
  {| matcher := matcher r; global := global r; sticky := sticky r;
     lastIndex := i |}.

(** The search loop of RegExpBuiltinExec: try position [i]; on failure a
    sticky pattern gives up, any other one moves to [i + 1] while positions
    remain ([n] of them). *)
Fixpoint exec_from (r : RegExp) (s : string) (n i : nat) : option nat :=
  match matcher r s i with
  | Some e => Some e
  | None =>
      if sticky r then None
      else match n with
           | O => None
           | S n' => exec_from r s n' (S i)
           end
  end.

(** [r.test(s)]: the result and the object afterwards. *)
Definition RegExp_test (r : RegExp) (s : string) : bool * RegExp :=
  let flagged := global r || sticky r in
  let start := if flagged then lastIndex r else O in
  if decide (String.length s < start)%nat
  then (false, if flagged then set_lastIndex 0 r else r)
  else match exec_from r s (String.length s - start) start with
       | Some e => (true, if flagged then set_lastIndex e r else r)
       | None => (false, if flagged then set_lastIndex 0 r else r)
       end.

(** The matcher of a pattern that is one literal text, such as [/api/]. *)
Definition literal (lit : string) : string → nat → option nat :=
  λ s i, if String.prefix lit (string_from i s)
         then Some (i + String.length lit)%nat else None.

(** A value that is thrown, or that a promise is rejected with: an
    [Error] object, by its name and its message; [undefined]; [null]; or
    any other value, by the text that [error.message || String(error)]
    gives for it (a string or a number, by [String]; an object that is not
    an [Error], by its message or by [String]). *)
Inductive Exception :=
| ErrorObject (name message : string)
| Undefined
| Null
| OtherValue (text : string).

#[global] Instance Exception_eq_dec : EqDecision Exception.
Proof. solve_decision. Defined.

(** [new Error(message)] *)
Definition Error_ (message : string) : Exception := ErrorObject "Error" message.

(** The [TypeError] that reading the property [message] of [undefined] or
    of [null] throws. *)
Definition cannot_read_message (value : string) : Exception :=
  ErrorObject "TypeError"
    ("Cannot read properties of " +:+ value +:+ " (reading 'message')").

(** [error.message || String(error)]: the text it evaluates to, or the
    error that the evaluation throws.  An [Error] with an empty message
    prints as its name; [undefined] and [null] have no properties. *)
Definition error_text (error : Exception) : string + Exception :=
  match error with
  | ErrorObject name EmptyString => inl name
  | ErrorObject _ message => inl message
  | Undefined => inr (cannot_read_message "undefined")
  | Null => inr (cannot_read_message "null")
  | OtherValue text => inl text
  end.

(** The value is [undefined] or [null]. *)
Definition nullish (error : Exception) : bool :=
  match error with
  | Undefined | Null => true
  | _ => false
  end.

(** The double quote character, as a one-character text. *)
Definition dq : string := String (Ascii.ascii_of_nat 34) EmptyString.

End Js.

(** ** The driver's event emitter *)

(** The names of the page events the code listens to: ['request'],
    ['response'], ['requestfinished'], ['requestfailed']. *)
Inductive EventName := EvRequest | EvResponse | EvRequestFinished | EvRequestFailed.

#[global] Instance EventName_eq_dec : EqDecision EventName.
Proof. solve_decision. Defined.

(** A text stands for the [Error] that has it as message. *)
Coercion Js.Error_ : string >-> Js.Exception.

(** How a call of asynchronous code ends: with a value, with a thrown
    value, or not at all within the fuel it was given. *)
Inductive Outcome (A : Type) :=
| Ok (a : A)
| Thrown (error : Js.Exception)
| Stuck.
Arguments Ok {A} a.
Arguments Thrown {A} error.
Arguments Stuck {A}.

Module Emitter.
Section emitter.
Context {H : Type} `{EqDecision H}.

(** [page.on(e, h)] appends a registration; the same function may be
    registered several times. *)
Definition on (e : EventName) (h : H) (l : list (EventName * H))
  : list (EventName * H) := l ++ [(e, h)].

(** Dropping the most recently added occurrence of [x], if any. *)
Fixpoint remove_last (x : EventName * H) (l : list (EventName * H))
  : option (list (EventName * H)) :=
  match l with
  | [] => None
  | y :: l' =>
      match remove_last x l' with
      | Some r => Some (y :: r)
      | None => if decide (x = y) then Some l' else None
      end
  end.

(** [page.off(e, h)] removes the most recently added registration of [h]
    for [e], and does nothing when there is none. *)
Definition off (e : EventName) (h : H) (l : list (EventName * H))
  : list (EventName * H) := default l (remove_last (e, h) l).

End emitter.
End Emitter.

(** ** FormFillUtil: the retry-verify engine *)

Module FormFill.

(** *** Values, options and results *)

(** The values a field can be asked to hold ([T] in the source).  The
    code looks at a value through [typeof] and [String] only, so a number
    is given by the text that [String] produces for it ([42] by ["42"],
    [1e21] by ["1e+21"]). *)
Inductive JsValue :=
| VStr (s : string)
| VBool (b : bool)
| VNum (text : string)
| VNull
| VUndefined.

#[global] Instance JsValue_eq_dec : EqDecision JsValue.
Proof. solve_decision. Defined.

(** [typeof value === 'string'] *)
Definition typeof_string (v : JsValue) : bool :=
  match v with VStr _ => true | _ => false end.

(** [String(value)] *)
Definition String_ (v : JsValue) : string :=
  match v with
  | VStr s => s
  | VBool true => "true"
  | VBool false => "false"
  | VNum text => text
  | VNull => "null"
  | VUndefined => "undefined"
  end.

(** A locator names an element of the page; a callback names a function
    supplied by the caller, whose behaviour belongs to the environment. *)
Definition Locator := nat.
Definition Callback := nat.

Record FillOptions := {
  maxRetries : option Z;
  retryDelay : option Z;
  waitAfterBlur : option Z;
  waitBeforeVerify : option Z;
  waitForRequests : option bool;
  requestTimeout : option Z;
  clearOnRetry : option bool;
  fillAction : option Callback;
  verifyAction : option Callback;
  debug : option bool
}.

(** The empty options object [{}]. *)
Definition no_options : FillOptions :=
  {| maxRetries := None; retryDelay := None; waitAfterBlur := None;
     waitBeforeVerify := None; waitForRequests := None;
     requestTimeout := None; clearOnRetry := None; fillAction := None;
     verifyAction := None; debug := None |}.

(** The local [config] of [fillWithRetry]: every option with its default.
    The numbers are integers, taken below [2^53] in absolute value, where
    the arithmetic of the source is exact. *)
Record Config := {
  cfg_maxRetries : Z;
  cfg_retryDelay : Z;
  cfg_waitAfterBlur : Z;
  cfg_waitBeforeVerify : Z;
  cfg_waitForRequests : bool;
  cfg_requestTimeout : Z;
  cfg_clearOnRetry : bool;
  cfg_fillAction : option Callback;
  cfg_verifyAction : option Callback;
  cfg_debug : bool
}.

Definition mkConfig (options : FillOptions) : Config :=
  {| cfg_maxRetries := default 3 (maxRetries options);
     cfg_retryDelay := default 500 (retryDelay options);
     cfg_waitAfterBlur := default 300 (waitAfterBlur options);
     cfg_waitBeforeVerify := default 200 (waitBeforeVerify options);
     cfg_waitForRequests := default true (waitForRequests options);
     cfg_requestTimeout := default 3000 (requestTimeout options);
     cfg_clearOnRetry := default true (clearOnRetry options);
     cfg_fillAction := fillAction options;
     cfg_verifyAction := verifyAction options;
     cfg_debug := default false (debug options) |}.

Record FillResult := {
  success : bool;
  attempts : Z;
  finalValue : JsValue;
  error : option string
}.

(** *** The world: clock, schedule, listener registry, counters *)

(** How an awaited promise settles: fulfilled with a value, or rejected
    with any value, [undefined] and [null] included. *)
Inductive Settled (A : Type) :=
| Fulfilled (a : A)
| Rejected (error : Js.Exception).
Arguments Fulfilled {A} a.
Arguments Rejected {A} error.

(** What the environment does during one suspension of the main flow: the
    extra time that passes, the network events delivered to the page's
    listeners, and how each kind of awaited call would settle. *)
Record Tick := {
  elapsed : nat;
  events : list EventName;
  r_clear : Settled unit;
  r_inputValue : Settled string;
  r_isDisabled : Settled bool;
  r_fillAction : Settled unit;
  r_verifyAction : Settled bool
}.

(** The listeners on the page.  [TrackRequest c] and [TrackFinish c] are
    the closures [() => activeRequests++] and [() => activeRequests--] over
    the variable [activeRequests] stored in cell [c]; the cell is created
    afresh by every attempt, so it identifies the closure.  [Foreign]
    listeners belong to other code. *)
Inductive Handler :=
| TrackRequest (cell : nat)
| TrackFinish (cell : nat)
| Foreign (id : nat).

#[global] Instance Handler_eq_dec : EqDecision Handler.
Proof. solve_decision. Defined.

(** The driver calls, in the order they are made. *)
Inductive Call :=
| CallOn (e : EventName) (h : Handler)
| CallOff (e : EventName) (h : Handler)
| CallWaitForTimeout (ms : Z)
| CallClear (l : Locator)
| CallInputValue (l : Locator)
| CallIsDisabled (l : Locator)
| CallFillAction (cb : Callback) (l : Locator) (v : JsValue)
| CallVerifyAction (cb : Callback) (l : Locator) (v : JsValue).

#[global] Instance Call_eq_dec : EqDecision Call.
Proof. solve_decision. Defined.

Record World := {
  now : Z;
  sched : nat → Tick;
  cursor : nat;
  listeners : list (EventName * Handler);
  cells : list Z;
  calls : list Call
}.

Definition set_listeners (f : list (EventName * Handler) → list (EventName * Handler))
  (w : World) : World :=
  {| now := now w; sched := sched w; cursor := cursor w;
     listeners := f (listeners w); cells := cells w; calls := calls w |}.

Definition set_cells (f : list Z → list Z) (w : World) : World :=
  {| now := now w; sched := sched w; cursor := cursor w;
     listeners := listeners w; cells := f (cells w); calls := calls w |}.

Definition record (c : Call) (w : World) : World :=
  {| now := now w; sched := sched w; cursor := cursor w;
     listeners := listeners w; cells := cells w; calls := calls w ++ [c] |}.

(** The current value of the variable in cell [c]. *)
Definition read_cell (c : nat) (w : World) : Z := default 0 (cells w !! c).

(** Calling one listener. *)
Definition run_handler (h : Handler) (cs : list Z) : list Z :=
  match h with
  | TrackRequest c => alter Z.succ c cs
  | TrackFinish c => alter Z.pred c cs
  | Foreign _ => cs
  end.

(** The page emits [e]: every listener registered for [e] runs, in
    registration order. *)
Definition emit (e : EventName) (w : World) : World :=
  set_cells
    (λ cs, foldl (λ cs' '(e', h), if decide (e' = e) then run_handler h cs' else cs')
                 cs (listeners w)) w.

Definition emit_all (es : list EventName) (w : World) : World :=
  foldl (λ w' e, emit e w') w es.

(** One suspension of the main flow that lasts at least [ms] milliseconds:
    the clock advances, the schedule moves on, the events of the tick are
    delivered. *)
Definition suspend (ms : Z) (w : World) : World * Tick :=
  let t := sched w (cursor w) in
  (emit_all (events t)
     {| now := now w + Z.max 0 ms + Z.of_nat (elapsed t); sched := sched w;
        cursor := S (cursor w); listeners := listeners w; cells := cells w;
        calls := calls w |}, t).

(** *** The monad of asynchronous code *)

Definition M (A : Type) : Type := World → World * Outcome A.

Definition ret {A} (a : A) : M A := λ w, (w, Ok a).

Definition bind {A B} (m : M A) (k : A → M B) : M B :=
  λ w, match m w with
       | (w', Ok a) => k a w'
       | (w', Thrown e) => (w', Thrown e)
       | (w', Stuck) => (w', Stuck)
       end.

Definition throw {A} (error : Js.Exception) : M A := λ w, (w, Thrown error).

(** [try { m } catch (error) { h error }] *)
Definition try_catch {A} (m : M A) (h : Js.Exception → M A) : M A :=
  λ w, match m w with
       | (w', Thrown e) => h e w'
       | r => r
       end.

(** [try { m } finally { f }]: [f] runs on every exit of [m], and the exit
    of [m] stands unless [f] itself throws. *)
Definition try_finally {A} (m : M A) (f : M unit) : M A :=
  λ w, match m w with
       | (w', Stuck) => (w', Stuck)
       | (w', r) =>
           match f w' with
           | (w'', Ok _) => (w'', r)
           | (w'', Thrown e) => (w'', Thrown e)
           | (w'', Stuck) => (w'', Stuck)
           end
       end.

Notation "'let*' x ':=' m 'in' k" := (bind m (λ x, k))
  (at level 10, x name, m at level 100, k at level 200,
   format "'[v' 'let*'  x  :=  m  'in'  '/' k ']'").
Notation "m '>>' k" := (bind m (λ _, k))
  (at level 100, k at level 200, right associativity,
   format "'[v' m  >>  '/' k ']'").

(** [if (b) { m }] *)
Definition when (b : bool) (m : M unit) : M unit := if b then m else ret tt.

(** *** Driver calls *)

Definition of_settled {A} (s : Settled A) : Outcome A :=
  match s with
  | Fulfilled a => Ok a
  | Rejected e => Thrown e
  end.

(** An awaited driver call: one suspension, settled as the tick says. *)
Definition await {A} (c : Call) (r : Tick → Settled A) : M A :=
  λ w, let '(w', t) := suspend 0 (record c w) in (w', of_settled (r t)).

Definition page_on (e : EventName) (h : Handler) : M unit :=
  λ w, (set_listeners (Emitter.on e h) (record (CallOn e h) w), Ok tt).

Definition page_off (e : EventName) (h : Handler) : M unit :=
  λ w, (set_listeners (Emitter.off e h) (record (CallOff e h) w), Ok tt).

(** [await page.waitForTimeout(ms)] *)
Definition waitForTimeout (ms : Z) : M unit :=
  λ w, ((suspend ms (record (CallWaitForTimeout ms) w)).1, Ok tt).

Definition clear (l : Locator) : M unit := await (CallClear l) r_clear.
Definition inputValue (l : Locator) : M string := await (CallInputValue l) r_inputValue.
Definition isDisabled (l : Locator) : M bool := await (CallIsDisabled l) r_isDisabled.
Definition call_fillAction (cb : Callback) (l : Locator) (v : JsValue) : M unit :=
  await (CallFillAction cb l v) r_fillAction.
Definition call_verifyAction (cb : Callback) (l : Locator) (v : JsValue) : M bool :=
  await (CallVerifyAction cb l v) r_verifyAction.

(** [let activeRequests = 0]: a new variable that closures can capture. *)
Definition new_cell : M nat :=
  λ w, (set_cells (λ cs, cs ++ [0]) w, Ok (length (cells w))).

(** *** The engine *)

(** Step 5 of an attempt, the polling loop
    [while (activeRequests > 0) { if (Date.now() - startTime >
    config.requestTimeout) break; await page.waitForTimeout(50); }].
    Fuel is spent on sleeping only. *)
Fixpoint quiescence_loop (fuel : nat) (config : Config) (activeRequests : nat)
    (startTime : Z) : M unit :=
  λ w,
    if 0 <? read_cell activeRequests w then
      if cfg_requestTimeout config <? now w - startTime then (w, Ok tt)
      else match fuel with
           | O => (w, Stuck)
           | S fuel' =>
               (waitForTimeout 50 >>
                quiescence_loop fuel' config activeRequests startTime) w
           end
    else (w, Ok tt).

(** [if (config.waitForRequests && activeRequests > 0) { const startTime =
    Date.now(); while ... }] *)
Definition waitForQuiescence (fuel : nat) (config : Config) (activeRequests : nat)
    : M unit :=
  λ w,
    if cfg_waitForRequests config && (0 <? read_cell activeRequests w)
    then quiescence_loop fuel config activeRequests (now w) w
    else (w, Ok tt).

Definition needVerifyAction : string := "非字符串值必须提供 verifyAction 函数".

(** [verifyFill(locator, expectedValue, verifyAction)] *)
Definition verifyFill (locator : Locator) (expectedValue : JsValue)
    (verifyAction : option Callback) : M bool :=
  match verifyAction with
  | Some cb => call_verifyAction cb locator expectedValue
  | None =>
      match expectedValue with
      | VStr expected =>
          let* actualValue := inputValue locator in
          if negb (String.eqb actualValue expected) then ret false
          else
            let* disabled := try_catch (isDisabled locator) (λ _, ret false) in
            if disabled then ret false else ret true
      | _ => throw needVerifyAction
      end
  end.

(** How one pass through the body of the [for] loop ends: with the
    [return] of the function, or with the next value of [lastError]. *)
Inductive Step :=
| Return (r : FillResult)
| Continue (lastError : string).

Definition mismatch (value : JsValue) (actualValue : string) : string :=
  "值不匹配: 期望 " +:+ Js.dq +:+ String_ value +:+ Js.dq +:+
  ", 实际 " +:+ Js.dq +:+ actualValue +:+ Js.dq.

(** The inner [try] block of an attempt (steps 1 to 7). *)
Definition attempt_try (fuel : nat) (locator : Locator) (value : JsValue)
    (config : Config) (attempt : Z) (activeRequests : nat) : M Step :=
  when ((1 <? attempt) && cfg_clearOnRetry config)
    (when (negb (bool_decide (is_Some (cfg_fillAction config))) && typeof_string value)
       (clear locator >> waitForTimeout 100)) >>
  match cfg_fillAction config with
  | Some cb => call_fillAction cb locator value
  | None => ret tt
  end >>
  waitForTimeout (cfg_waitAfterBlur config) >>
  waitForQuiescence fuel config activeRequests >>
  waitForTimeout (cfg_waitBeforeVerify config) >>
  let* isValid := verifyFill locator value (cfg_verifyAction config) in
  if isValid then
    let* final :=
      try_catch
        (match cfg_verifyAction config with
         | Some _ => ret value
         | None => let* s := inputValue locator in ret (VStr s)
         end)
        (λ _, ret value) in
    ret (Return {| success := true; attempts := attempt; finalValue := final;
                   error := None |})
  else
    let* actualValue := try_catch (inputValue locator) (λ _, ret "(无法获取)") in
    ret (Continue (mismatch value actualValue)).

(** The [finally] block of an attempt. *)
Definition attempt_finally (config : Config) (activeRequests : nat) : M unit :=
  when (cfg_waitForRequests config)
    (page_off EvRequest (TrackRequest activeRequests) >>
     page_off EvRequestFinished (TrackFinish activeRequests) >>
     page_off EvRequestFailed (TrackFinish activeRequests)).

(** [if (attempt <= config.maxRetries) await
    page.waitForTimeout(config.retryDelay)] *)
Definition retry_pause (config : Config) (attempt : Z) : M unit :=
  when (attempt <=? cfg_maxRetries config) (waitForTimeout (cfg_retryDelay config)).

(** [if (config.waitForRequests) { page.on('request', trackRequest); ... }] *)
Definition attempt_register (config : Config) (activeRequests : nat) : M unit :=
  when (cfg_waitForRequests config)
    (page_on EvRequest (TrackRequest activeRequests) >>
     page_on EvRequestFinished (TrackFinish activeRequests) >>
     page_on EvRequestFailed (TrackFinish activeRequests)).

(** The registration of the counter listeners followed by the inner
    [try]/[finally]. *)
Definition attempt_tracked (fuel : nat) (locator : Locator) (value : JsValue)
    (config : Config) (attempt : Z) (activeRequests : nat) : M Step :=
  attempt_register config activeRequests >>
  try_finally
    (attempt_try fuel locator value config attempt activeRequests)
    (attempt_finally config activeRequests).

(** The body of the [for] loop: the outer [try]/[catch] around the
    declaration of the counter, the tracked block and the pause before the
    next attempt.  The [catch] clause first evaluates [error.message ||
    String(error)]; when the value caught is [undefined] or [null] this
    throws, and nothing catches what a [catch] clause throws. *)
Definition attempt_body (fuel : nat) (locator : Locator) (value : JsValue)
    (config : Config) (attempt : Z) : M Step :=
  try_catch
    (let* activeRequests := new_cell in
     let* step := attempt_tracked fuel locator value config attempt activeRequests in
     match step with
     | Return r => ret (Return r)
     | Continue lastError =>
         retry_pause config attempt >> ret (Continue lastError)
     end)
    (λ error,
       match Js.error_text error with
       | inl lastError => retry_pause config attempt >> ret (Continue lastError)
       | inr typeError => throw typeError
       end).

(** [for (let attempt = ...; attempt <= config.maxRetries + 1; attempt++)],
    run for at most [n] passes. *)
Fixpoint attempts_loop (n : nat) (fuel : nat) (locator : Locator)
    (value : JsValue) (config : Config) (attempt : Z) (lastError : string)
    : M Step :=
  match n with
  | O => ret (Continue lastError)
  | S n' =>
      if attempt <=? cfg_maxRetries config + 1 then
        let* step := attempt_body fuel locator value config attempt in
        match step with
        | Return r => ret (Return r)
        | Continue lastError' =>
            attempts_loop n' fuel locator value config (attempt + 1) lastError'
        end
      else ret (Continue lastError)
  end.

(** [FormFillUtil.fillWithRetry(locator, value, options)] *)
Definition fillWithRetry (fuel : nat) (locator : Locator) (value : JsValue)
    (options : FillOptions) : M FillResult :=
  let config := mkConfig options in
  let* step :=
    attempts_loop (Z.to_nat (cfg_maxRetries config + 1)) fuel locator value
      config 1 "" in
  match step with
  | Return r => ret r
  | Continue lastError =>
      let* final := try_catch (inputValue locator) (λ _, ret "") in
      ret {| success := false; attempts := cfg_maxRetries config + 1;
             finalValue := VStr final;
             error := Some (match lastError with
                            | EmptyString => "未知错误"
                            | _ => lastError
                            end) |}
  end.

(** One entry of the batch. *)
Record Field := {
  locator : Locator;
  value : JsValue;
  options : FillOptions
}.

(** [{ ...globalOptions, ...field.options }]: a property of the field's
    options overrides the global one.  An options object is given by the
    properties that hold a value; an object that carries a property whose
    value is [undefined] is not among the inputs modelled. *)
Definition override {A} (g f : option A) : option A :=
  match f with
  | Some v => Some v
  | None => g
  end.

Definition spread (globalOptions fieldOptions : FillOptions) : FillOptions :=
  {| maxRetries := override (maxRetries globalOptions) (maxRetries fieldOptions);
     retryDelay := override (retryDelay globalOptions) (retryDelay fieldOptions);
     waitAfterBlur := override (waitAfterBlur globalOptions) (waitAfterBlur fieldOptions);
     waitBeforeVerify :=
       override (waitBeforeVerify globalOptions) (waitBeforeVerify fieldOptions);
     waitForRequests :=
       override (waitForRequests globalOptions) (waitForRequests fieldOptions);
     requestTimeout := override (requestTimeout globalOptions) (requestTimeout fieldOptions);
     clearOnRetry := override (clearOnRetry globalOptions) (clearOnRetry fieldOptions);
     fillAction := override (fillAction globalOptions) (fillAction fieldOptions);
     verifyAction := override (verifyAction globalOptions) (verifyAction fieldOptions);
     debug := override (debug globalOptions) (debug fieldOptions) |}.

(** The [for (const field of fields)] loop of [fillMultiple], with the
    [results] array built so far. *)
Fixpoint fillMultiple_loop (fuel : nat) (fields : list Field)
    (globalOptions : FillOptions) (results : list FillResult)
    : M (list FillResult) :=
  match fields with
  | [] => ret results
  | field :: rest =>
      let* result :=
        fillWithRetry fuel (locator field) (value field)
          (spread globalOptions (options field)) in
      fillMultiple_loop fuel rest globalOptions (results ++ [result])
  end.

(** [FormFillUtil.fillMultiple(fields, globalOptions)] *)
Definition fillMultiple (fuel : nat) (fields : list Field)
    (globalOptions : FillOptions) : M (list FillResult) :=
  fillMultiple_loop fuel fields globalOptions [].

(** The line feed character, as a one-character text. *)
Definition nl : string := String (Ascii.ascii_of_nat 10) EmptyString.

(** [FormFillUtil.fillAndAssert(locator, value, options)] *)
Definition fillAndAssert (fuel : nat) (locator : Locator) (value : JsValue)
    (options : FillOptions) : M unit :=
  let* result := fillWithRetry fuel locator value options in
  if negb (success result) then
    throw ("表单填充失败: " +:+ default "undefined" (error result) +:+ nl +:+
           "尝试次数: " +:+ pretty (attempts result) +:+ nl +:+
           "期望值: " +:+ Js.dq +:+ String_ value +:+ Js.dq +:+ nl +:+
           "实际值: " +:+ Js.dq +:+ String_ (finalValue result) +:+ Js.dq)
  else ret tt.

(** A schedule in which nothing happens: no extra delay, no event, every
    call settles as [t] says. *)
Definition quiet (t : Tick) : nat → Tick := λ _, t.

Definition calm : Tick :=
  {| elapsed := 0; events := []; r_clear := Fulfilled tt;
     r_inputValue := Fulfilled ""; r_isDisabled := Fulfilled false;
     r_fillAction := Fulfilled tt; r_verifyAction := Fulfilled false |}.

Definition world0 (s : nat → Tick) : World :=
  {| now := 0; sched := s; cursor := 0; listeners := []; cells := [];
     calls := [] |}.

(** The number of polling sleeps that is always enough for the quiescence
    wait of one attempt. *)
Definition enough_fuel (config : Config) (fuel : nat) : Prop :=
  (Z.to_nat (cfg_requestTimeout config / 50 + 1) ≤ fuel)%nat.

(** [h] is one of the two closures over the variable in cell [c]. *)
Definition tracks (c : nat) (h : Handler) : Prop :=
  h = TrackRequest c ∨ h = TrackFinish c.

#[global] Instance tracks_dec c h : Decision (tracks c h).
Proof. unfold tracks. apply _. Defined.

(** No listener refers to a variable that does not exist yet. *)
Definition scoped (w : World) : Prop :=
  Forall (λ reg, ∀ c, tracks c reg.2 → (c < length (cells w))%nat) (listeners w).

(** The registry of a page on which the listeners of cell [c] were put
    after the registrations [l]. *)
Definition tracking (c : nat) (l : list (EventName * Handler))
  : list (EventName * Handler) :=
  l ++ [(EvRequest, TrackRequest c); (EvRequestFinished, TrackFinish c);
        (EvRequestFailed, TrackFinish c)].

(** The number of sleeps of exactly [ms] milliseconds made so far. *)
Definition pauses (ms : Z) (w : World) : nat :=
  length (filter (λ c, c = CallWaitForTimeout ms) (calls w)).

(** [Sequenced fuel g w fields w' results]: [results] are the results of
    [fillWithRetry] on the fields, one after the other in the order of the
    list, each started in the world the previous one ended in. *)
Inductive Sequenced (fuel : nat) (g : FillOptions)
  : World → list Field → World → list FillResult → Prop :=
| Sequenced_nil w : Sequenced fuel g w [] w []
| Sequenced_cons w field fields w1 r w2 rs :
    fillWithRetry fuel (locator field) (value field) (spread g (options field)) w
      = (w1, Ok r) →
    Sequenced fuel g w1 fields w2 rs →
    Sequenced fuel g w (field :: fields) w2 (r :: rs).

(** A schedule that follows [first] for the first suspension and is
    [calm] afterwards. *)
Definition starting_with (first : Tick) : nat → Tick :=
  λ n, match n with O => first | S _ => calm end.

(** A tick during which one request that began earlier finishes. *)
Definition late_finish : Tick :=
  {| elapsed := 0; events := [EvRequestFinished]; r_clear := Fulfilled tt;
     r_inputValue := Fulfilled ""; r_isDisabled := Fulfilled false;
     r_fillAction := Fulfilled tt; r_verifyAction := Fulfilled false |}.

(** *** Notions used to state and prove the properties *)

(** [respects R m]: running [m] takes every world to an [R]-related one. *)
Definition respects {A} (R : relation World) (m : M A) : Prop :=
  ∀ w, R w (m w).1.

(** The parts of the world that no operation of the engine ever rewrites:
    the schedule is fixed, the clock and the cursor only advance, cells
    are only added and the trace of calls only grows. *)
Definition evolves (w w' : World) : Prop :=
  sched w' = sched w ∧ now w ≤ now w' ∧ (cursor w ≤ cursor w')%nat ∧
  (length (cells w) ≤ length (cells w'))%nat ∧ calls w `prefix_of` calls w'.

(** The listener registry is left as it was. *)
Definition same_listeners (w w' : World) : Prop := listeners w' = listeners w.

(** [m] never ends with a thrown error; [m] never runs out of fuel. *)
Definition never_throws {A} (m : M A) : Prop := ∀ w e, (m w).2 ≠ Thrown e.

Definition never_stuck {A} (m : M A) : Prop := ∀ w, (m w).2 ≠ Stuck.

(** The promise is not rejected with [undefined] or [null]. *)
Definition has_text {A} (s : Settled A) : Prop :=
  match s with
  | Rejected error => Js.nullish error = false
  | Fulfilled _ => True
  end.

(** Under the schedule [s], whatever reaches the [catch] clause of an
    attempt on [locator] and [value] has a text: neither [clear] nor the
    fill action is rejected with [undefined] or [null], and [verifyFill]
    does not throw [undefined] or [null]. *)
Definition catchable (locator : Locator) (value : JsValue)
    (verifyAction : option Callback) (s : nat → Tick) : Prop :=
  (∀ n, has_text (r_clear (s n)) ∧ has_text (r_fillAction (s n))) ∧
  ∀ w error, sched w = s →
             (verifyFill locator value verifyAction w).2 = Thrown error →
             Js.nullish error = false.

(** [throws_text locator value verifyAction m]: under such a schedule,
    what [m] throws is neither [undefined] nor [null]. *)
Definition throws_text (locator : Locator) (value : JsValue)
    (verifyAction : option Callback) {A} (m : M A) : Prop :=
  ∀ w error, catchable locator value verifyAction (sched w) →
             (m w).2 = Thrown error → Js.nullish error = false.

(** [respects_unless_stuck R m]: like [respects], for the runs of [m] that
    do not run out of fuel. *)
Definition respects_unless_stuck {A} (R : relation World) (m : M A) : Prop :=
  ∀ w, (m w).2 ≠ Stuck → R w (m w).1.

(** Three text fields on a page whose inputs all read as the empty text:
    the second one is asked to hold ["x"]. *)
Definition three_fields : list Field :=
  [ {| locator := 1%nat; value := VStr ""; options := no_options |};
    {| locator := 2%nat; value := VStr "x"; options := no_options |};
    {| locator := 3%nat; value := VStr ""; options := no_options |} ].

(** A page on which every call of a fill action is rejected with
    [undefined], as by [Promise.reject()]. *)
Definition rude : Tick :=
  {| elapsed := 0; events := []; r_clear := Fulfilled tt;
     r_inputValue := Fulfilled ""; r_isDisabled := Fulfilled false;
     r_fillAction := Rejected Js.Undefined; r_verifyAction := Fulfilled false |}.

(** Three fields, the second of which has a fill action. *)
Definition rejecting_fields : list Field :=
  [ {| locator := 1%nat; value := VStr ""; options := no_options |};
    {| locator := 2%nat; value := VStr "";
       options := {| maxRetries := None; retryDelay := None; waitAfterBlur := None;
                     waitBeforeVerify := None; waitForRequests := None;
                     requestTimeout := None; clearOnRetry := None;
                     fillAction := Some 0%nat; verifyAction := None;
                     debug := None |} |};
    {| locator := 3%nat; value := VStr ""; options := no_options |} ].

(** The global options [{ maxRetries: 1 }]. *)
Definition one_retry : FillOptions :=
  {| maxRetries := Some 1; retryDelay := None; waitAfterBlur := None;
     waitBeforeVerify := None; waitForRequests := None; requestTimeout := None;
     clearOnRetry := None; fillAction := None; verifyAction := None;
     debug := None |}.

(** A world inside an attempt: the counter in cell 0 and its three
    listeners, on a page with no other listener. *)
Definition tracking_world : World :=
  {| now := 0; sched := quiet calm; cursor := 0; listeners := tracking 0 [];
     cells := [0]; calls := [] |}.

End FormFill.

(** ** HttpCapture: the capture correlator *)

Module Capture.

(** [string | RegExp] *)
Inductive UrlPattern :=
| PatString (s : string)
| PatRegExp (r : Js.RegExp).

(** [matchesPattern(url)], as a function of [this.urlPattern]: the answer
    and the pattern afterwards (a [RegExp] is an object that [test] may
    update). *)
Definition matchesPattern (urlPattern : UrlPattern) (url : string)
  : bool * UrlPattern :=
  match urlPattern with
  | PatString s => (Js.includes url s, urlPattern)
  | PatRegExp r => let '(b, r') := Js.RegExp_test r url in (b, PatRegExp r')
  end.

(** The pattern has a match somewhere in [url]: the text contains the
    substring, or the compiled pattern succeeds at some position. *)
Definition url_matches (urlPattern : UrlPattern) (url : string) : bool :=
  match urlPattern with
  | PatString s => Js.includes url s
  | PatRegExp r =>
      existsb (λ i, bool_decide (is_Some (Js.matcher r url i)))
              (seq 0 (S (String.length url)))
  end.

(** A pattern whose evaluation has no state: a substring, or a [RegExp]
    with neither the [g] nor the [y] flag. *)
Definition stateless (urlPattern : UrlPattern) : bool :=
  match urlPattern with
  | PatString _ => true
  | PatRegExp r => negb (Js.global r || Js.sticky r)
  end.

Section capture.

(** The values of type [string | object | null] that the captures carry:
    [null], a string, or another value ([Json]: an object, an array, a
    number or a boolean produced by [JSON.parse]). *)
Context {Json : Type}.

Inductive Data :=
| DNull
| DText (s : string)
| DJson (j : Json).

(** [JSON_parse s] is the value of [JSON.parse(s)], which is [null] for
    the text [null] and a string for a quoted text, and is [None] when
    [JSON.parse(s)] throws.  [URL_searchParams url] lists the entries of
    [new URL(url).searchParams], and is [None] when the [URL] constructor
    throws. *)
Variable JSON_parse : string → option Data.
Variable URL_searchParams : string → option (list (string * string)).

(** The driver's request and response objects, by what their accessors
    return.  [res_text] is [None] when [response.text()] rejects. *)
Record Request := {
  req_url : string;
  req_method : string;
  req_headers : gmap string string;
  req_postDataBuffer : option string
}.

Record Response := {
  res_url : string;
  res_status : Z;
  res_statusText : string;
  res_headers : gmap string string;
  res_text : option string;
  res_request : Request
}.

Record CapturedRequest := {
  url : string;
  method : string;
  headers : gmap string string;
  queryParams : gmap string string;
  postData : Data;
  rawRequest : Request
}.

Record CapturedResponse := {
  status : Z;
  statusText : string;
  responseHeaders : gmap string string;
  body : Data;
  rawResponse : Response
}.

Record CapturedHttpData := {
  request : CapturedRequest;
  response : CapturedResponse
}.

(** [queryParams[key] = value] on the plain object [queryParams], as a
    map of its own properties: the assignment stores the value under
    [key], except for the key [__proto__], for which it runs the setter
    of [Object.prototype], and that one ignores a string. *)
Definition assign (key value : string) (queryParams : gmap string string)
  : gmap string string :=
  if decide (key = "__proto__") then queryParams else <[key := value]> queryParams.

(** [captureRequest(request)]; [None] when the promise rejects. *)
Definition captureRequest (r : Request) : option CapturedRequest :=
  match URL_searchParams (req_url r) with
  | None => None
  | Some entries =>
      Some {| url := req_url r;
              method := req_method r;
              headers := req_headers r;
              queryParams := foldl (λ q '(key, v), assign key v q) ∅ entries;
              postData :=
                match req_postDataBuffer r with
                | Some postDataStr =>
                    match JSON_parse postDataStr with
                    | Some parsed => parsed
                    | None => DText postDataStr
                    end
                | None => DNull
                end;
              rawRequest := r |}
  end.

(** [captureResponse(response)], once [response.text()] has settled. *)
Definition captureResponse (r : Response) : CapturedResponse :=
  {| status := res_status r;
     statusText := res_statusText r;
     responseHeaders := res_headers r;
     body :=
       match res_text r with
       | Some bodyText =>
           let contentType := default "" (res_headers r !! "content-type") in
           if Js.includes contentType "application/json" then
             match JSON_parse bodyText with
             | Some parsed => parsed
             | None => DText bodyText
             end
           else DText bodyText
       | None => DNull
       end;
     rawResponse := r |}.

(** The closures that [startCapture] creates.  Call number [gen] of
    [startCapture] creates its own [requestMap], a request handler over
    it and a response handler; [Foreign] listeners belong to other
    code. *)
Inductive Handler :=
| RequestHandler (gen : nat)
| ResponseHandler (gen : nat)
| Foreign (id : nat).

#[global] Instance Handler_eq_dec : EqDecision Handler.
Proof. solve_decision. Defined.

(** [h] was created by the capture object. *)
Definition own (reg : EventName * Handler) : Prop :=
  match reg.2 with
  | Foreign _ => False
  | _ => True
  end.

#[global] Instance own_dec reg : Decision (own reg).
Proof. unfold own. destruct (reg.2); apply _. Defined.

(** What the page emits. *)
Inductive PageEvent :=
| OnRequest (r : Request)
| OnResponse (r : Response)
| OnRequestFinished (r : Request)
| OnRequestFailed (r : Request).

Definition event_name (ev : PageEvent) : EventName :=
  match ev with
  | OnRequest _ => EvRequest
  | OnResponse _ => EvResponse
  | OnRequestFinished _ => EvRequestFinished
  | OnRequestFailed _ => EvRequestFailed
  end.

(** What the event loop runs while the main flow is suspended: the
    listeners of a page event, or the rest of the response handler
    number [k] among those waiting for [response.text()]. *)
Inductive LoopEvent :=
| Emit (ev : PageEvent)
| Resume (k : nat).

Record Tick := {
  elapsed : nat;
  events : list LoopEvent
}.

(** The fields of the [HttpCapture] object.  [capturedData] refers to an
    array on the heap. *)
Record HttpCapture := {
  urlPattern : UrlPattern;
  capturedData : nat;
  requestHandler : option Handler;
  responseHandler : option Handler;
  isCapturing : bool
}.

(** The world of one capture object: the clock, the schedule of the
    environment, the page's listener registry, the arrays and the
    request maps allocated so far, the object, and the response handlers
    that are suspended at [await response.text()], each with the request
    it has captured already. *)
Record World := {
  now : Z;
  sched : nat → Tick;
  cursor : nat;
  listeners : list (EventName * Handler);
  arrays : list (list CapturedHttpData);
  requestMaps : list (gmap string Request);
  this : HttpCapture;
  pending : list (CapturedRequest * Response)
}.

(** The contents of [this.capturedData]. *)
Definition buffer (w : World) : list CapturedHttpData :=
  default [] (arrays w !! capturedData (this w)).

Definition set_urlPattern (p : UrlPattern) (w : World) : World :=
  {| now := now w; sched := sched w; cursor := cursor w;
     listeners := listeners w; arrays := arrays w;
     requestMaps := requestMaps w;
     this := {| urlPattern := p; capturedData := capturedData (this w);
                requestHandler := requestHandler (this w);
                responseHandler := responseHandler (this w);
                isCapturing := isCapturing (this w) |};
     pending := pending w |}.

(** [new HttpCapture(page, urlPattern)] at time [t0], on a page with the
    listeners [ls], under the schedule [s]. *)
Definition create (p : UrlPattern) (t0 : Z) (s : nat → Tick)
    (ls : list (EventName * Handler)) : World :=
  {| now := t0; sched := s; cursor := 0; listeners := ls;
     arrays := [[]]; requestMaps := [];
     this := {| urlPattern := p; capturedData := 0; requestHandler := None;
                responseHandler := None; isCapturing := false |};
     pending := [] |}.

(** The request handler: [if (this.matchesPattern(request.url()))
    requestMap.set(request.url(), request)]. *)
Definition on_request (gen : nat) (r : Request) (w : World) : World :=
  let '(matches, p) := matchesPattern (urlPattern (this w)) (req_url r) in
  let w := set_urlPattern p w in
  if matches then
    {| now := now w; sched := sched w; cursor := cursor w;
       listeners := listeners w; arrays := arrays w;
       requestMaps := alter (λ m, <[req_url r := r]> m) gen (requestMaps w);
       this := this w; pending := pending w |}
  else w.

(** The response handler up to its suspension at [await
    response.text()]: the test of the URL and [captureRequest]. *)
Definition on_response (r : Response) (w : World) : World :=
  let '(matches, p) := matchesPattern (urlPattern (this w)) (res_url r) in
  let w := set_urlPattern p w in
  if matches then
    match captureRequest (res_request r) with
    | Some capturedRequest =>
        {| now := now w; sched := sched w; cursor := cursor w;
           listeners := listeners w; arrays := arrays w;
           requestMaps := requestMaps w; this := this w;
           pending := pending w ++ [(capturedRequest, r)] |}
    | None => w
    end
  else w.

(** The response handler after [response.text()] has settled:
    [this.capturedData.push({ request, response })]. *)
Definition resume (k : nat) (w : World) : World :=
  match pending w !! k with
  | Some (capturedRequest, r) =>
      {| now := now w; sched := sched w; cursor := cursor w;
         listeners := listeners w;
         arrays :=
           alter (λ a, a ++ [{| request := capturedRequest;
                                response := captureResponse r |}])
                 (capturedData (this w)) (arrays w);
         requestMaps := requestMaps w; this := this w;
         pending := delete k (pending w) |}
  | None => w
  end.

Definition call_handler (h : Handler) (ev : PageEvent) (w : World) : World :=
  match h, ev with
  | RequestHandler gen, OnRequest r => on_request gen r w
  | ResponseHandler _, OnResponse r => on_response r w
  | _, _ => w
  end.

(** The page emits [ev]: the listeners registered for its name run in
    registration order. *)
Definition emit (ev : PageEvent) (w : World) : World :=
  foldl (λ w' '(e, h), if decide (e = event_name ev) then call_handler h ev w' else w')
        w (listeners w).

Definition deliver (le : LoopEvent) (w : World) : World :=
  match le with
  | Emit ev => emit ev w
  | Resume k => resume k w
  end.

Definition deliver_all (les : list LoopEvent) (w : World) : World :=
  foldl (λ w' le, deliver le w') w les.

(** One suspension of the main flow of at least [ms] milliseconds. *)
Definition suspend (ms : Z) (w : World) : World :=
  let t := sched w (cursor w) in
  deliver_all (events t)
    {| now := now w + Z.max 0 ms + Z.of_nat (elapsed t); sched := sched w;
       cursor := S (cursor w); listeners := listeners w; arrays := arrays w;
       requestMaps := requestMaps w; this := this w; pending := pending w |}.

(** [startCapture()] *)
Definition startCapture (w : World) : World :=
  if isCapturing (this w) then w
  else
    let gen := length (requestMaps w) in
    {| now := now w; sched := sched w; cursor := cursor w;
       listeners :=
         Emitter.on EvResponse (ResponseHandler gen)
           (Emitter.on EvRequest (RequestHandler gen) (listeners w));
       arrays := arrays w ++ [[]];
       requestMaps := requestMaps w ++ [∅];
       this := {| urlPattern := urlPattern (this w);
                  capturedData := length (arrays w);
                  requestHandler := Some (RequestHandler gen);
                  responseHandler := Some (ResponseHandler gen);
                  isCapturing := true |};
       pending := pending w |}.

(** [stopCapture()] *)
Definition stopCapture (w : World) : World :=
  if negb (isCapturing (this w)) then w
  else
    {| now := now w; sched := sched w; cursor := cursor w;
       listeners :=
         (let ls := match requestHandler (this w) with
                    | Some h => Emitter.off EvRequest h (listeners w)
                    | None => listeners w
                    end in
          match responseHandler (this w) with
          | Some h => Emitter.off EvResponse h ls
          | None => ls
          end);
       arrays := arrays w;
       requestMaps := requestMaps w;
       this := {| urlPattern := urlPattern (this w);
                  capturedData := capturedData (this w);
                  requestHandler := None;
                  responseHandler := None;
                  isCapturing := false |};
       pending := pending w |}.

(** [clear()]: [this.capturedData = []] *)
Definition clear (w : World) : World :=
  {| now := now w; sched := sched w; cursor := cursor w;
     listeners := listeners w; arrays := arrays w ++ [[]];
     requestMaps := requestMaps w;
     this := {| urlPattern := urlPattern (this w);
                capturedData := length (arrays w);
                requestHandler := requestHandler (this w);
                responseHandler := responseHandler (this w);
                isCapturing := isCapturing (this w) |};
     pending := pending w |}.

(** [getAllCapturedData()]: [[...this.capturedData]], a new array. *)
Definition getAllCapturedData (w : World) : World * nat :=
  ({| now := now w; sched := sched w; cursor := cursor w;
      listeners := listeners w; arrays := arrays w ++ [buffer w];
      requestMaps := requestMaps w; this := this w; pending := pending w |},
   length (arrays w)).

Definition timeout_message (timeout : Z) : string :=
  "等待请求超时 (" +:+ pretty timeout +:+ "ms), 未捕获到匹配的请求".

(** The [while (Date.now() - startTime < timeout)] loop of
    [waitForNextCapture]; fuel is spent on sleeping only. *)
Fixpoint wait_loop (fuel : nat) (timeout startTime : Z) (w : World)
  : World * Outcome CapturedHttpData :=
  if now w - startTime <? timeout then
    match last (buffer w) with
    | Some data => (w, Ok data)
    | None =>
        match fuel with
        | O => (w, Stuck)
        | S fuel' => wait_loop fuel' timeout startTime (suspend 100 w)
        end
    end
  else (w, Thrown (timeout_message timeout)).

(** [waitForNextCapture(timeout)]; [None] stands for the default of
    30000 ms. *)
Definition waitForNextCapture (fuel : nat) (timeout : option Z) (w : World)
  : World * Outcome CapturedHttpData :=
  let timeout := default 30000 timeout in
  let startTime := now w in
  match last (buffer w) with
  | Some data => (w, Ok data)
  | None => wait_loop fuel timeout startTime w
  end.

(** What a test does with the capture object, one step at a time. *)
Inductive Op :=
| OpStart
| OpStop
| OpClear
| OpGetAll
| OpWait (fuel : nat) (timeout : option Z)
| OpAwait (ms : Z).

Definition run_op (op : Op) (w : World) : World :=
  match op with
  | OpStart => startCapture w
  | OpStop => stopCapture w
  | OpClear => clear w
  | OpGetAll => (getAllCapturedData w).1
  | OpWait fuel timeout => (waitForNextCapture fuel timeout w).1
  | OpAwait ms => suspend ms w
  end.

Definition run (ops : list Op) (w : World) : World :=
  foldl (λ w' op, run_op op w') w ops.

(** The worlds a test can bring about, from a new capture object on a
    page that has listeners of other code only. *)
Inductive reachable : World → Prop :=
| reachable_create p t0 s ids :
    reachable (create p t0 s ((λ reg, (reg.1, Foreign reg.2)) <$> ids))
| reachable_op op w : reachable w → reachable (run_op op w).

(** The steps that neither restart nor clear nor stop the capture. *)
Definition passive (op : Op) : bool :=
  match op with
  | OpGetAll | OpWait _ _ | OpAwait _ => true
  | _ => false
  end.

(** The responses among [les] whose URL the pattern matches, in order of
    arrival. *)
Definition matching (p : UrlPattern) (les : list LoopEvent) : list Response :=
  omap (λ le, match le with
              | Emit (OnResponse r) =>
                  if url_matches p (res_url r) then Some r else None
              | _ => None
              end) les.

(** The pair that the capture of [r] produces. *)
Definition pair_of (r : Response) : option CapturedHttpData :=
  (λ capturedRequest, {| request := capturedRequest; response := captureResponse r |})
    <$> captureRequest (res_request r).

(** The events of a tick are prompt for [p]: every matching response is
    followed at once by the rest of its handler, its request can be
    captured, and no other handler resumes. *)
Fixpoint prompt (p : UrlPattern) (les : list LoopEvent) : bool :=
  match les with
  | [] => true
  | Emit (OnResponse r) :: rest =>
      if url_matches p (res_url r) then
        match rest with
        | Resume O :: rest' =>
            bool_decide (is_Some (captureRequest (res_request r))) && prompt p rest'
        | _ => false
        end
      else prompt p rest
  | Emit _ :: rest => prompt p rest
  | Resume _ :: _ => false
  end.

(** No response that the schedule of [w] ever delivers has a URL that
    the pattern matches. *)
Definition silent (w : World) : Prop :=
  ∀ n r, Emit (OnResponse r) ∈ events (sched w n) →
         url_matches (urlPattern (this w)) (res_url r) = false.

(** The events delivered between two positions of the schedule. *)
Definition delivered (s : nat → Tick) (from to : nat) : list LoopEvent :=
  concat ((λ i, events (s i)) <$> seq from (to - from)).

(** *** Notions used to state and prove the properties *)

(** The event handlers touch the contents of the buffer, the suspended
    handlers, the request maps and the [lastIndex] of the pattern, and
    nothing else. *)
Definition frame (w w' : World) : Prop :=
  listeners w' = listeners w ∧ sched w' = sched w ∧
  capturedData (this w') = capturedData (this w) ∧
  requestHandler (this w') = requestHandler (this w) ∧
  responseHandler (this w') = responseHandler (this w) ∧
  isCapturing (this w') = isCapturing (this w) ∧
  length (arrays w') = length (arrays w) ∧
  stateless (urlPattern (this w')) = stateless (urlPattern (this w)) ∧
  ∀ u, url_matches (urlPattern (this w')) u = url_matches (urlPattern (this w)) u.

(** The array of the buffer exists, and the listeners of the capture
    object on the page are its current pair of handlers while it
    captures, and none otherwise. *)
Definition wf (w : World) : Prop :=
  (capturedData (this w) < length (arrays w))%nat ∧
  if isCapturing (this w) then
    ∃ g, requestHandler (this w) = Some (RequestHandler g) ∧
         responseHandler (this w) = Some (ResponseHandler g) ∧
         filter own (listeners w)
         = [(EvRequest, RequestHandler g); (EvResponse, ResponseHandler g)]
  else filter own (listeners w) = [].

(** [quiet w w']: between [w] and [w'] no pair was buffered and no
    handler was suspended. *)
Definition quiet (w w' : World) : Prop :=
  frame w w' ∧ arrays w' = arrays w ∧ pending w' = pending w.

(** [ev] is not a response that the pattern of [w] matches. *)
Definition unmatched (w : World) (ev : PageEvent) : Prop :=
  match ev with
  | OnResponse r => url_matches (urlPattern (this w)) (res_url r) = false
  | _ => True
  end.

(** [grows w w']: the buffer of [w'] extends the buffer of [w], and every
    other array is as it was. *)
Definition grows (w w' : World) : Prop :=
  frame w w' ∧ buffer w `prefix_of` buffer w' ∧
  ∀ a, a ≠ capturedData (this w) → arrays w' !! a = arrays w !! a.

(** The capture object is capturing with pattern [p], and no handler
    is suspended. *)
Definition steady (p : UrlPattern) (w : World) : Prop :=
  wf w ∧ isCapturing (this w) = true ∧ pending w = [] ∧ urlPattern (this w) = p.

(** Between [w] and [w'] the buffer has received the pairs of the
    matching responses delivered meanwhile, one for each, in order of
    arrival. *)
Definition caught (p : UrlPattern) (w w' : World) : Prop :=
  sched w' = sched w ∧ (cursor w ≤ cursor w')%nat ∧
  let arrived := matching p (delivered (sched w) (cursor w) (cursor w')) in
  buffer w' = buffer w ++ omap pair_of arrived ∧
  length (omap pair_of arrived) = length arrived.

(** What the delivery of the events [les] of one tick does. *)
Definition tick_caught (p : UrlPattern) (les : list LoopEvent) (w w' : World) : Prop :=
  steady p w' ∧ sched w' = sched w ∧ cursor w' = cursor w ∧ now w' = now w ∧
  buffer w' = buffer w ++ omap pair_of (matching p les) ∧
  length (omap pair_of (matching p les)) = length (matching p les).

(** Every tick of the schedule of [w] is prompt for [p]. *)
Definition prompt_schedule (p : UrlPattern) (w : World) : Prop :=
  ∀ n, prompt p (events (sched w n)) = true.

End capture.

Arguments Data : clear implicits.
Arguments CapturedRequest : clear implicits.
Arguments CapturedResponse : clear implicits.
Arguments CapturedHttpData : clear implicits.
Arguments World : clear implicits.

(** *** Concrete pages for the examples *)

(** [JSON.parse] that always throws, and URLs without a query. *)
Definition never_json : string → option (Data unit) := λ _, None.
Definition no_query : string → option (list (string * string)) := λ _, Some [].

(** A [GET] request for [u], and its response [200 OK] with body [text]. *)
Definition get (u : string) : Request :=
  {| req_url := u; req_method := "GET"; req_headers := ∅;
     req_postDataBuffer := None |}.

Definition ok (u : string) (text : string) : Response :=
  {| res_url := u; res_status := 200; res_statusText := "OK";
     res_headers := ∅; res_text := Some text; res_request := get u |}.

(** The schedule whose successive ticks deliver the events listed, and
    nothing afterwards. *)
Definition ticks (ts : list (list LoopEvent)) : nat → Tick :=
  λ n, {| elapsed := 0; events := default [] (ts !! n) |}.

Definition response_a : Response := ok "http://h/api/a" "A".
Definition response_b : Response := ok "http://h/api/b" "B".

(** A capture on ["/api"] that has seen the response [a] arrive, whose
    body has not been read yet. *)
Definition capture_pending : World unit :=
  run never_json no_query [OpStart; OpAwait 0]
    (create (PatString "/api") 0 (ticks [[Emit (OnResponse response_a)]]) []).

(** A capture on ["/api"] that has seen [a] then [b] arrive; the body of
    [b] was read first, then that of [a]. *)
Definition capture_reordered : World unit :=
  run never_json no_query [OpStart; OpAwait 0; OpAwait 0; OpAwait 0]
    (create (PatString "/api") 0
       (ticks [[Emit (OnResponse response_a); Emit (OnResponse response_b)];
               [Resume 1]; [Resume 0]]) []).

(** A capture on ["/zzz"] on a page where only [a] arrives. *)
Definition capture_unmatched : World unit :=
  run never_json no_query [OpStart]
    (create (PatString "/zzz") 0 (ticks [[Emit (OnResponse response_a)]]) []).

(** The regular expression [/api/g]. *)
Definition api_g : Js.RegExp :=
  {| Js.matcher := Js.literal "api"; Js.global := true; Js.sticky := false;
     Js.lastIndex := 0 |}.

End Capture.

(** ** Further definitions for FormFillUtil *)

Module FormFillMore.
Import FormFill.

(** The call is a [locator.clear()]. *)
Definition is_clear (c : Call) : Prop :=
  match c with
  | CallClear _ => True
  | _ => False
  end.

#[global] Instance is_clear_dec c : Decision (is_clear c).
Proof. destruct c; simpl; apply _. Defined.

(** The calls of [locator.clear()] made so far. *)
Definition clears (w : World) : list Call := filter is_clear (calls w).

(** No [locator.clear()] is made between [w] and [w']. *)
Definition no_clear (w w' : World) : Prop := clears w' = clears w.

(** The options of a call that clears nothing on a retry: a custom fill
    action is given, or clearing is switched off. *)
Definition keeps_field (value : JsValue) (options : FillOptions) : bool :=
  bool_decide (is_Some (fillAction options)) || negb (typeof_string value)
  || negb (default true (clearOnRetry options)).

(** The clearing step of attempt number [attempt] is skipped: it is the
    first attempt, clearing is switched off, a fill action is given, or the
    value is not a text. *)
Definition skips_clear (v : JsValue) (config : Config) (attempt : Z) : Prop :=
  attempt = 1 ∨ cfg_clearOnRetry config = false ∨
  is_Some (cfg_fillAction config) ∨ typeof_string v = false.

End FormFillMore.


(** ** Further definitions for HttpCapture *)

Module CaptureMore.
Import Capture.

Section capture.
Context {Json : Type}.
Variable JSON_parse : string → option (Data Json).
Variable URL_searchParams : string → option (list (string * string)).

(** [setupHttpCapture(page, urlPattern)] at time [t0], on a page with the
    listeners [ls], under the schedule [s]: the new capture object,
    started. *)
Definition setupHttpCapture (p : UrlPattern) (t0 : Z) (s : nat → Tick)
    (ls : list (EventName * Handler)) : World Json :=
  let capture := create p t0 s ls in
  startCapture capture.

(** [waitForHttpCapture(page, urlPattern, timeout)]: the [finally] block
    runs on both exits of [waitForNextCapture]. *)
Definition waitForHttpCapture (fuel : nat) (p : UrlPattern) (timeout : option Z)
    (t0 : Z) (s : nat → Tick) (ls : list (EventName * Handler))
  : World Json * Outcome (CapturedHttpData Json) :=
  let capture := setupHttpCapture p t0 s ls in
  match waitForNextCapture JSON_parse URL_searchParams fuel timeout capture with
  | (w, Stuck) => (w, Stuck)
  | (w, r) => (stopCapture w, r)
  end.

(** The value that [queryParams[key]] ends with after
    [searchParams.forEach((value, key) => queryParams[key] = value)] over
    [entries]: the value of the last entry for [key]. *)
Definition last_value (key : string) (entries : list (string * string))
  : option string :=
  last (omap (λ '(k, v), if decide (k = key) then Some v else None) entries).

(** [d] is the capture of a response whose URL the pattern matches,
    paired with the capture of that response's own request. *)
Definition captured_by (p : UrlPattern) (d : CapturedHttpData Json) : Prop :=
  ∃ r, url_matches p (res_url r) = true ∧
       pair_of JSON_parse URL_searchParams r = Some d.

(** Every suspended response handler holds a response whose URL the
    pattern matches, with the capture of its request. *)
Definition suspended_by (p : UrlPattern)
    (k : CapturedRequest Json * Response) : Prop :=
  url_matches p (res_url k.2) = true ∧
  captureRequest JSON_parse URL_searchParams (res_request k.2) = Some k.1.

(** What the capture object holds is faithful to what the page sent:
    every buffered pair is the capture of a response that the pattern
    matches, and so is what every suspended handler holds. *)
Definition faithful (w : World Json) : Prop :=
  Forall (captured_by (urlPattern (this w))) (buffer w) ∧
  Forall (suspended_by (urlPattern (this w))) (pending w).

(** The listeners of other code, from their event names and identities. *)
Definition foreign (ids : list (EventName * nat)) : list (EventName * Handler) :=
  (λ reg, (reg.1, Foreign reg.2)) <$> ids.

(** The listener registry of a page that had the listeners [ids] of other
    code when the capture object [w] was made: these, in their order,
    followed by the current pair of handlers of the object while it
    captures, and by nothing otherwise. *)
Definition registry_of (ids : list (EventName * nat)) (w : World Json) : Prop :=
  if isCapturing (this w) then
    ∃ g, requestHandler (this w) = Some (RequestHandler g) ∧
         responseHandler (this w) = Some (ResponseHandler g) ∧
         listeners w
         = foreign ids ++ [(EvRequest, RequestHandler g); (EvResponse, ResponseHandler g)]
  else listeners w = foreign ids.

End capture.

(** A page on which the response [a] arrives during the first suspension,
    and its body is read at once. *)
Definition arrival : nat → Tick :=
  ticks [[Emit (OnResponse response_a); Resume 0]].

End CaptureMore.
(** ** Facts about the built-ins *)

Module JsFacts.
Import Js.

Lemma append_nil (q : string) : "" +:+ q = q.
Proof. reflexivity. Qed.

Lemma append_cons a (p q : string) : String a p +:+ q = String a (p +:+ q).
Proof. reflexivity. Qed.

Lemma prefix_spec (p s : string) :
  String.prefix p s = true ↔ ∃ post, s = p +:+ post.
Proof.
  revert s. induction p as [|a p IH]; intros s.
  - split; [intros _; by exists s|by destruct s].
  - destruct s as [|b s]; simpl; [split; [done|by intros [post ?]]|].
    destruct (Ascii.ascii_dec a b) as [->|Hne].
    + rewrite IH. split; intros [post Hp]; exists post;
        rewrite append_cons in *; congruence.
    + split; [done|]. intros [post Hp]. rewrite append_cons in Hp. congruence.
Qed.

(** [includes] is containment: the text is the pattern with something
    before and something after. *)
Lemma includes_spec (s pat : string) :
  includes s pat = true ↔ ∃ pre post, s = pre +:+ pat +:+ post.
Proof.
  induction s as [|a s IH].
  - change (includes "" pat) with (String.prefix pat "" || false).
    rewrite orb_false_r, prefix_spec. split.
    + intros [post Hp]. by exists "", post.
    + intros (pre & post & Hp). destruct pre; [by exists post|done].
  - change (includes (String a s) pat)
      with (String.prefix pat (String a s) || includes s pat).
    rewrite orb_true_iff, prefix_spec, IH. split.
    + intros [[post Hp]|(pre & post & Hp)].
      * by exists "", post.
      * exists (String a pre), post. rewrite append_cons. by rewrite Hp.
    + intros (pre & post & Hp). destruct pre as [|b pre].
      * left. by exists post.
      * right. exists pre, post. rewrite append_cons in Hp. congruence.
Qed.

(** A match found by the search loop is a match of the compiled pattern at
    one of the positions tried. *)
Lemma exec_from_Some r s n i e :
  exec_from r s n i = Some e →
  ∃ j, (i ≤ j ≤ i + n)%nat ∧ matcher r s j = Some e.
Proof.
  revert i. induction n as [|n IH]; intros i; simpl.
  - destruct (matcher r s i) eqn:Hm.
    + intros; simplify_eq. exists i. split; [lia|done].
    + by destruct (sticky r).
  - destruct (matcher r s i) eqn:Hm.
    + intros; simplify_eq. exists i. split; [lia|done].
    + destruct (sticky r); [done|]. intros He.
      apply IH in He as (j & Hj & Hmj). exists j. split; [lia|done].
Qed.

(** A pattern that is not sticky finds a match whenever one of the
    positions has one. *)
Lemma exec_from_None r s n i :
  sticky r = false →
  exec_from r s n i = None →
  ∀ j, (i ≤ j ≤ i + n)%nat → matcher r s j = None.
Proof.
  intros Hst. revert i. induction n as [|n IH]; intros i; simpl; rewrite Hst.
  - destruct (matcher r s i) eqn:Hm; [done|]. intros _ j Hj.
    by replace j with i by lia.
  - destruct (matcher r s i) eqn:Hm; [done|]. intros He j Hj.
    destruct (decide (j = i)) as [->|]; [done|]. apply (IH _ He). lia.
Qed.

Lemma existsb_matcher r s n :
  existsb (λ i, bool_decide (is_Some (matcher r s i))) (seq 0 n) = true ↔
  ∃ j, (j < n)%nat ∧ is_Some (matcher r s j).
Proof.
  rewrite existsb_exists. split.
  - intros (j & Hj & Hm). apply in_seq in Hj. apply bool_decide_eq_true in Hm.
    exists j. split; [lia|done].
  - intros (j & Hj & Hm). exists j. split; [apply in_seq; lia|].
    by apply bool_decide_eq_true.
Qed.

End JsFacts.

(** ** Facts about the event emitter *)

Module EmitterFacts.
Import Emitter.
Section emitter.
Context {H : Type} `{EqDecision H}.
Implicit Types (x y : EventName * H) (l k : list (EventName * H)) (h : H).

Lemma remove_last_not_in x l : x ∉ l → remove_last x l = None.
Proof.
  induction l as [|y l IH]; [done|]. intros Hn.
  apply not_elem_of_cons in Hn as [Hxy Hl]. simpl.
  rewrite (IH Hl). by rewrite decide_False.
Qed.

(** The occurrence that [off] removes is the last one. *)
Lemma remove_last_middle x l k :
  x ∉ k → remove_last x (l ++ x :: k) = Some (l ++ k).
Proof.
  intros Hk. induction l as [|y l IH]; simpl.
  - rewrite (remove_last_not_in _ _ Hk). by rewrite decide_True.
  - by rewrite IH.
Qed.

Lemma off_middle e h l k :
  (e, h) ∉ k → off e h (l ++ (e, h) :: k) = l ++ k.
Proof. intros Hk. unfold off. by rewrite remove_last_middle. Qed.

Lemma off_on e h l : off e h (on e h l) = l.
Proof.
  unfold on. rewrite (off_middle e h l []); [by rewrite app_nil_r|].
  apply not_elem_of_nil.
Qed.

Lemma off_not_in e h l : (e, h) ∉ l → off e h l = l.
Proof. intros Hn. unfold off. by rewrite remove_last_not_in. Qed.

(** Removing a registration commutes with keeping the registrations that
    satisfy [P], when the removed one satisfies it. *)
Lemma remove_last_filter (P : EventName * H → Prop) `{!∀ x, Decision (P x)} x l :
  P x → remove_last x (filter P l) = filter P <$> remove_last x l.
Proof.
  intros HP. induction l as [|y l IH]; [done|].
  simpl. rewrite filter_cons. destruct (decide (P y)) as [Hy|Hy]; simpl.
  - rewrite IH. destruct (remove_last x l) as [r|]; simpl.
    + by rewrite filter_cons_True.
    + by destruct (decide (x = y)).
  - rewrite IH. destruct (remove_last x l) as [r|]; simpl.
    + by rewrite filter_cons_False.
    + destruct (decide (x = y)) as [->|]; [done|done].
Qed.

Lemma off_filter (P : EventName * H → Prop) `{!∀ x, Decision (P x)} e h l :
  P (e, h) → filter P (off e h l) = off e h (filter P l).
Proof.
  intros HP. unfold off. rewrite (remove_last_filter P) by done.
  by destruct (remove_last (e, h) l).
Qed.

Lemma off_filter_out (P : EventName * H → Prop) `{!∀ x, Decision (P x)} e h l :
  ¬ P (e, h) → filter P (off e h l) = filter P l.
Proof.
  intros HP. unfold off.
  induction l as [|y l IH]; [done|]. simpl in *.
  destruct (remove_last (e, h) l) as [r|]; simpl in *.
  - rewrite !filter_cons. rewrite IH. done.
  - destruct (decide ((e, h) = y)) as [<-|]; simpl; [|done].
    by rewrite filter_cons_False.
Qed.

End emitter.
End EmitterFacts.

(** ** Facts about the retry-verify engine *)

Module FormFillFacts.
Import FormFill.

(** *** Basic facts about the world *)

Arguments suspend : simpl never.
Arguments record : simpl never.
Arguments emit_all : simpl never.

Lemma foldl_run_handler_length e (ls : list (EventName * Handler)) cs :
  length (foldl (λ cs' '(e', h), if decide (e' = e) then run_handler h cs' else cs')
            cs ls) = length cs.
Proof.
  revert cs. induction ls as [|[e' h] ls IH]; intros cs; simpl; [done|].
  rewrite IH. destruct (decide (e' = e)); [|done].
  destruct h; simpl; by rewrite ?length_alter.
Qed.

Lemma emit_all_fields es w :
  now (emit_all es w) = now w ∧ sched (emit_all es w) = sched w ∧
  cursor (emit_all es w) = cursor w ∧ listeners (emit_all es w) = listeners w ∧
  calls (emit_all es w) = calls w ∧
  length (cells (emit_all es w)) = length (cells w).
Proof.
  revert w. induction es as [|e es IH]; intros w; [done|].
  change (emit_all (e :: es) w) with (emit_all es (emit e w)).
  destruct (IH (emit e w)) as (-> & -> & -> & -> & -> & ->).
  simpl. by rewrite foldl_run_handler_length.
Qed.

Lemma suspend_fields ms w :
  now (suspend ms w).1 = now w + Z.max 0 ms + Z.of_nat (elapsed (sched w (cursor w))) ∧
  sched (suspend ms w).1 = sched w ∧
  cursor (suspend ms w).1 = S (cursor w) ∧
  listeners (suspend ms w).1 = listeners w ∧
  calls (suspend ms w).1 = calls w ∧
  length (cells (suspend ms w).1) = length (cells w).
Proof.
  unfold suspend. cbn [fst].
  match goal with |- context [emit_all ?es ?w'] =>
    destruct (emit_all_fields es w') as (-> & -> & -> & -> & -> & ->) end.
  done.
Qed.

(** *** Relations that every step of a computation respects *)

Section respects.
Context (R : relation World) `{!PreOrder R}.

Lemma respects_ret {A} (a : A) : respects R (ret a).
Proof. intros w. simpl. reflexivity. Qed.

Lemma respects_throw {A} e : respects R (@throw A e).
Proof. intros w. simpl. reflexivity. Qed.

Lemma respects_bind {A B} (m : M A) (k : A → M B) :
  respects R m → (∀ a, respects R (k a)) → respects R (bind m k).
Proof.
  intros Hm Hk w. unfold bind. specialize (Hm w).
  destruct (m w) as [w' [a|e|]]; simpl in *; [|done..].
  etrans; [exact Hm|apply Hk].
Qed.

Lemma respects_try_catch {A} (m : M A) h :
  respects R m → (∀ e, respects R (h e)) → respects R (try_catch m h).
Proof.
  intros Hm Hh w. unfold try_catch. specialize (Hm w).
  destruct (m w) as [w' [a|e|]]; simpl in *; [done| |done].
  etrans; [exact Hm|apply Hh].
Qed.

Lemma respects_try_finally {A} (m : M A) f :
  respects R m → respects R f → respects R (try_finally m f).
Proof.
  intros Hm Hf w. unfold try_finally. specialize (Hm w).
  destruct (m w) as [w' [a|e|]]; simpl in *; [| |done];
    specialize (Hf w'); destruct (f w') as [w'' [?|?|]]; simpl in *;
    by etrans.
Qed.

Lemma respects_when b m : respects R m → respects R (when b m).
Proof. intros Hm. destruct b; simpl; [done|apply respects_ret]. Qed.

End respects.

#[global] Instance evolves_preorder : PreOrder evolves.
Proof.
  split.
  - intros w. by repeat split.
  - intros w1 w2 w3 (?&?&?&?&?) (?&?&?&?&?). repeat split; try lia.
    + congruence.
    + by etrans.
Qed.

#[global] Instance same_listeners_preorder : PreOrder same_listeners.
Proof. split; [done|]. intros w1 w2 w3 H1 H2. unfold same_listeners in *. congruence. Qed.

Lemma record_evolves c w : evolves w (record c w).
Proof. unfold record. repeat split; simpl; try lia. by apply prefix_app_r. Qed.

Lemma suspend_evolves ms w : evolves w (suspend ms w).1.
Proof.
  destruct (suspend_fields ms w) as (Hn & Hs & Hc & _ & Hk & Hl).
  repeat split; rewrite ?Hs, ?Hc, ?Hk, ?Hl; try done; lia.
Qed.

Lemma waitForTimeout_evolves ms : respects evolves (waitForTimeout ms).
Proof.
  intros w.
  change (waitForTimeout ms w).1 with (suspend ms (record (CallWaitForTimeout ms) w)).1.
  etrans; [apply (record_evolves (CallWaitForTimeout ms))|apply suspend_evolves].
Qed.

Lemma await_evolves {A} c (r : Tick → Settled A) : respects evolves (await c r).
Proof.
  intros w. unfold await.
  pose proof (suspend_evolves 0 (record c w)) as Hs.
  destruct (suspend 0 (record c w)) as [w' t]. simpl in *.
  etrans; [apply (record_evolves c)|exact Hs].
Qed.

Lemma page_on_evolves e h : respects evolves (page_on e h).
Proof. intros w. unfold page_on, record. repeat split; simpl; try lia. by apply prefix_app_r. Qed.

Lemma page_off_evolves e h : respects evolves (page_off e h).
Proof. intros w. unfold page_off, record. repeat split; simpl; try lia. by apply prefix_app_r. Qed.

Lemma new_cell_evolves : respects evolves new_cell.
Proof. intros w. repeat split; simpl; rewrite ?length_app; simpl; try lia; done. Qed.

Lemma waitForTimeout_listeners ms : respects same_listeners (waitForTimeout ms).
Proof.
  intros w. unfold same_listeners.
  change (waitForTimeout ms w).1 with (suspend ms (record (CallWaitForTimeout ms) w)).1.
  by destruct (suspend_fields ms (record (CallWaitForTimeout ms) w)) as (_&_&_&->&_).
Qed.

Lemma await_listeners {A} c (r : Tick → Settled A) : respects same_listeners (await c r).
Proof.
  intros w. unfold await, same_listeners.
  pose proof (suspend_fields 0 (record c w)) as (_&_&_&Hl&_).
  by destruct (suspend 0 (record c w)) as [w' t].
Qed.

Lemma new_cell_listeners : respects same_listeners new_cell.
Proof. by intros w. Qed.

Create HintDb respects.

#[global] Hint Resolve waitForTimeout_evolves await_evolves page_on_evolves
  page_off_evolves new_cell_evolves waitForTimeout_listeners await_listeners
  new_cell_listeners : respects.

(** Structural decomposition of a goal [respects R m]. *)
Ltac respects_step :=
  match goal with
  | |- respects _ (bind _ _) => apply respects_bind; [apply _| |intros ?]
  | |- respects _ (try_catch _ _) => apply respects_try_catch; [apply _| |intros ?]
  | |- respects _ (try_finally _ _) => apply respects_try_finally; [apply _| |]
  | |- respects _ (when _ _) => apply respects_when; [apply _|]
  | |- respects _ (ret _) => apply respects_ret; apply _
  | |- respects _ (throw _) => apply respects_throw; apply _
  | |- respects _ (match ?x with _ => _ end) => destruct x
  | |- _ => solve [eauto with respects]
  end.

Ltac respects_auto := repeat respects_step.

Lemma quiescence_loop_respects (R : relation World) `{!PreOrder R} fuel config c start :
  respects R (waitForTimeout 50) →
  respects R (quiescence_loop fuel config c start).
Proof.
  intros Hs. revert start. induction fuel as [|fuel IH]; intros start w; simpl.
  - repeat case_match; simpl; reflexivity.
  - repeat case_match; simpl; try reflexivity.
    apply (respects_bind R); [done|]. intros _. apply IH.
Qed.

Lemma waitForQuiescence_respects (R : relation World) `{!PreOrder R} fuel config c :
  respects R (waitForTimeout 50) →
  respects R (waitForQuiescence fuel config c).
Proof.
  intros Hs w. unfold waitForQuiescence. case_match; [|reflexivity].
  by apply quiescence_loop_respects.
Qed.

#[global] Hint Extern 1 (respects _ (waitForQuiescence _ _ _)) =>
  apply waitForQuiescence_respects; [apply _|] : respects.

Lemma verifyFill_evolves l v va : respects evolves (verifyFill l v va).
Proof. unfold verifyFill, call_verifyAction, inputValue, isDisabled. respects_auto. Qed.

Lemma verifyFill_listeners l v va : respects same_listeners (verifyFill l v va).
Proof. unfold verifyFill, call_verifyAction, inputValue, isDisabled. respects_auto. Qed.

#[global] Hint Resolve verifyFill_evolves verifyFill_listeners : respects.

Lemma attempt_try_evolves fuel l v config attempt c :
  respects evolves (attempt_try fuel l v config attempt c).
Proof.
  unfold attempt_try, clear, call_fillAction, inputValue. respects_auto.
Qed.

Lemma attempt_try_listeners fuel l v config attempt c :
  respects same_listeners (attempt_try fuel l v config attempt c).
Proof.
  unfold attempt_try, clear, call_fillAction, inputValue. respects_auto.
Qed.

Lemma attempt_body_evolves fuel l v config attempt :
  respects evolves (attempt_body fuel l v config attempt).
Proof.
  unfold attempt_body, attempt_tracked, attempt_register, attempt_finally, retry_pause.
  pose proof attempt_try_evolves. respects_auto.
Qed.

Lemma attempts_loop_evolves n fuel l v config attempt le :
  respects evolves (attempts_loop n fuel l v config attempt le).
Proof.
  revert attempt le. induction n as [|n IH]; intros attempt le; simpl.
  - respects_auto.
  - pose proof attempt_body_evolves. respects_auto.
Qed.

Lemma fillWithRetry_evolves fuel l v o : respects evolves (fillWithRetry fuel l v o).
Proof.
  unfold fillWithRetry, inputValue. pose proof attempts_loop_evolves. respects_auto.
Qed.

(** *** Computations that cannot throw, or cannot get stuck *)

Lemma never_throws_ret {A} (a : A) : never_throws (ret a).
Proof. by intros w e. Qed.

Lemma never_throws_bind {A B} (m : M A) (k : A → M B) :
  never_throws m → (∀ a, never_throws (k a)) → never_throws (bind m k).
Proof.
  intros Hm Hk w e. unfold bind. specialize (Hm w).
  destruct (m w) as [w' [a|e'|]]; simpl in *; [apply Hk|by destruct (Hm e')|done].
Qed.

Lemma never_throws_try_catch {A} (m : M A) h :
  (∀ e, never_throws (h e)) → never_throws (try_catch m h).
Proof.
  intros Hh w e. unfold try_catch.
  destruct (m w) as [w' [a|e'|]]; simpl; [done|apply Hh|done].
Qed.

Lemma never_throws_when b m : never_throws m → never_throws (when b m).
Proof. intros Hm. destruct b; [done|apply never_throws_ret]. Qed.

Lemma never_throws_waitForTimeout ms : never_throws (waitForTimeout ms).
Proof. by intros w e. Qed.

Lemma never_stuck_ret {A} (a : A) : never_stuck (ret a).
Proof. by intros w. Qed.

Lemma never_stuck_throw {A} e : never_stuck (@throw A e).
Proof. by intros w. Qed.

Lemma never_stuck_bind {A B} (m : M A) (k : A → M B) :
  never_stuck m → (∀ a, never_stuck (k a)) → never_stuck (bind m k).
Proof.
  intros Hm Hk w. unfold bind. specialize (Hm w).
  destruct (m w) as [w' [a|e'|]]; simpl in *; [apply Hk|done|done].
Qed.

Lemma never_stuck_try_catch {A} (m : M A) h :
  never_stuck m → (∀ e, never_stuck (h e)) → never_stuck (try_catch m h).
Proof.
  intros Hm Hh w. unfold try_catch. specialize (Hm w).
  destruct (m w) as [w' [a|e'|]]; simpl in *; [done|apply Hh|done].
Qed.

Lemma never_stuck_try_finally {A} (m : M A) f :
  never_stuck m → never_stuck f → never_stuck (try_finally m f).
Proof.
  intros Hm Hf w. unfold try_finally. specialize (Hm w).
  destruct (m w) as [w' [a|e'|]]; simpl in *; [| |done];
    specialize (Hf w'); by destruct (f w') as [w'' [?|?|]].
Qed.

Lemma never_stuck_when b m : never_stuck m → never_stuck (when b m).
Proof. intros Hm. destruct b; [done|apply never_stuck_ret]. Qed.

Lemma never_stuck_waitForTimeout ms : never_stuck (waitForTimeout ms).
Proof. by intros w. Qed.

Lemma never_stuck_await {A} c (r : Tick → Settled A) : never_stuck (await c r).
Proof.
  intros w. unfold await. destruct (suspend 0 (record c w)) as [w' t]. simpl.
  by destruct (r t).
Qed.

Lemma never_stuck_page_on e h : never_stuck (page_on e h).
Proof. by intros w. Qed.

Lemma never_stuck_page_off e h : never_stuck (page_off e h).
Proof. by intros w. Qed.

Lemma never_stuck_new_cell : never_stuck new_cell.
Proof. by intros w. Qed.

Create HintDb outcome.

#[global] Hint Resolve never_throws_ret never_throws_waitForTimeout
  never_stuck_ret never_stuck_throw never_stuck_waitForTimeout never_stuck_await
  never_stuck_page_on never_stuck_page_off never_stuck_new_cell : outcome.

Ltac outcome_step :=
  match goal with
  | |- never_throws (bind _ _) => apply never_throws_bind; [|intros ?]
  | |- never_throws (try_catch _ _) => apply never_throws_try_catch; intros ?
  | |- never_throws (when _ _) => apply never_throws_when
  | |- never_stuck (bind _ _) => apply never_stuck_bind; [|intros ?]
  | |- never_stuck (try_catch _ _) => apply never_stuck_try_catch; [|intros ?]
  | |- never_stuck (try_finally _ _) => apply never_stuck_try_finally
  | |- never_stuck (when _ _) => apply never_stuck_when
  | |- never_throws (match ?x with _ => _ end) => destruct x
  | |- never_stuck (match ?x with _ => _ end) => destruct x
  | |- _ => solve [eauto with outcome]
  end.

Ltac outcome_auto := repeat outcome_step.

(** *** The quiescence wait ends *)

(** Each sleep of the polling loop moves the clock by at least 50 ms, so
    the deadline check fails after finitely many of them. *)
Lemma waitForTimeout_now ms w :
  now w + Z.max 0 ms ≤ now (waitForTimeout ms w).1.
Proof.
  change (waitForTimeout ms w).1 with (suspend ms (record (CallWaitForTimeout ms) w)).1.
  destruct (suspend_fields ms (record (CallWaitForTimeout ms) w)) as (-> & _).
  unfold record; simpl. lia.
Qed.

Lemma quiescence_loop_ends fuel config c start w :
  (Z.to_nat ((cfg_requestTimeout config - (now w - start)) / 50 + 1) ≤ fuel)%nat →
  (quiescence_loop fuel config c start w).2 = Ok tt.
Proof.
  revert w. induction fuel as [|fuel IH]; intros w Hfuel; simpl.
  - destruct (0 <? read_cell c w); [|done].
    destruct (cfg_requestTimeout config <? now w - start) eqn:Hd; [done|].
    apply Z.ltb_ge in Hd. exfalso.
    assert (0 ≤ (cfg_requestTimeout config - (now w - start)) / 50)
      by (apply Z.div_pos; lia).
    lia.
  - destruct (0 <? read_cell c w); [|done].
    destruct (cfg_requestTimeout config <? now w - start) eqn:Hd; [done|].
    apply Z.ltb_ge in Hd. unfold bind.
    pose proof (waitForTimeout_now 50 w) as Hnow.
    destruct (waitForTimeout 50 w) as [w1 [[]|?|]] eqn:Hw; [|done..].
    simpl in Hnow. apply IH.
    assert ((cfg_requestTimeout config - (now w1 - start)) / 50 + 1
            ≤ (cfg_requestTimeout config - (now w - start)) / 50).
    { assert ((cfg_requestTimeout config - (now w1 - start)) / 50
              ≤ (cfg_requestTimeout config - (now w - start) + (-1) * 50) / 50)
        by (apply Z.div_le_mono; lia).
      rewrite Z.div_add in H by lia. lia. }
    assert (0 ≤ (cfg_requestTimeout config - (now w - start)) / 50)
      by (apply Z.div_pos; lia).
    lia.
Qed.

Lemma waitForQuiescence_never_stuck fuel config c :
  enough_fuel config fuel → never_stuck (waitForQuiescence fuel config c).
Proof.
  intros Hfuel w. unfold waitForQuiescence.
  destruct (cfg_waitForRequests config && (0 <? read_cell c w)); [|done].
  rewrite quiescence_loop_ends; [done|].
  unfold enough_fuel in Hfuel. by replace (now w - now w) with 0 by lia; rewrite Z.sub_0_r.
Qed.

#[global] Hint Resolve waitForQuiescence_never_stuck : outcome.

Lemma verifyFill_never_stuck l v va : never_stuck (verifyFill l v va).
Proof. unfold verifyFill, call_verifyAction, inputValue, isDisabled. outcome_auto. Qed.

#[global] Hint Resolve verifyFill_never_stuck : outcome.

Lemma attempt_try_never_stuck fuel l v config attempt c :
  enough_fuel config fuel → never_stuck (attempt_try fuel l v config attempt c).
Proof.
  intros Hfuel. unfold attempt_try, clear, call_fillAction, inputValue. outcome_auto.
Qed.

Lemma retry_pause_never_throws config attempt : never_throws (retry_pause config attempt).
Proof. unfold retry_pause. outcome_auto. Qed.

Lemma retry_pause_never_stuck config attempt : never_stuck (retry_pause config attempt).
Proof. unfold retry_pause. outcome_auto. Qed.

#[global] Hint Resolve retry_pause_never_throws retry_pause_never_stuck : outcome.

Lemma evolves_sched w w' : evolves w w' → sched w' = sched w.
Proof. by intros (? & _). Qed.

Lemma await_outcome {A} c (r : Tick → Settled A) w :
  (await c r w).2 = of_settled (r (sched w (cursor w))).
Proof. done. Qed.

Lemma never_throws_quiescence_loop fuel config c start :
  never_throws (quiescence_loop fuel config c start).
Proof.
  induction fuel as [|fuel IH]; intros w e; simpl.
  - by repeat case_match.
  - repeat case_match; try done.
    apply never_throws_bind; [apply never_throws_waitForTimeout|done].
Qed.

Lemma never_throws_waitForQuiescence fuel config c :
  never_throws (waitForQuiescence fuel config c).
Proof.
  intros w e. unfold waitForQuiescence. case_match; [|done].
  apply never_throws_quiescence_loop.
Qed.

Lemma never_throws_page_on e h : never_throws (page_on e h).
Proof. by intros w e'. Qed.

Lemma never_throws_page_off e h : never_throws (page_off e h).
Proof. by intros w e'. Qed.

Lemma never_throws_new_cell : never_throws new_cell.
Proof. by intros w e'. Qed.

#[global] Hint Resolve never_throws_waitForQuiescence never_throws_page_on
  never_throws_page_off never_throws_new_cell : outcome.

Lemma never_throws_attempt_register config c : never_throws (attempt_register config c).
Proof. unfold attempt_register. outcome_auto. Qed.

Lemma never_throws_attempt_finally config c : never_throws (attempt_finally config c).
Proof. unfold attempt_finally. outcome_auto. Qed.

(** *** What an attempt throws *)

Section throws_text.
Variables (l : Locator) (v : JsValue) (va : option Callback).

Lemma throws_text_never_throws {A} (m : M A) : never_throws m → throws_text l v va m.
Proof. intros Hm w e _ He. by destruct (Hm w e). Qed.

Lemma throws_text_ret {A} (a : A) : throws_text l v va (ret a).
Proof. by intros w e _ ?. Qed.

Lemma throws_text_bind {A B} (m : M A) (k : A → M B) :
  respects evolves m → throws_text l v va m → (∀ a, throws_text l v va (k a)) →
  throws_text l v va (bind m k).
Proof.
  intros Hev Hm Hk w e Hs. unfold bind.
  specialize (Hev w). specialize (Hm w).
  destruct (m w) as [w' [a|e'|]]; simpl in *; [|intros; simplify_eq; by apply Hm|done].
  apply Hk. by rewrite (evolves_sched _ _ Hev).
Qed.

Lemma throws_text_try_finally {A} (m : M A) f :
  throws_text l v va m → never_throws f → throws_text l v va (try_finally m f).
Proof.
  intros Hm Hf w e Hs. unfold try_finally. specialize (Hm w).
  destruct (m w) as [w' [a|e'|]]; simpl in *; [| |done];
    specialize (Hf w'); destruct (f w') as [w'' [[]|e''|]]; simpl in *;
    intros; simplify_eq; try by destruct (Hf e).
  by apply Hm.
Qed.

Lemma throws_text_when b m : throws_text l v va m → throws_text l v va (when b m).
Proof. intros Hm. destruct b; [done|apply throws_text_ret]. Qed.

Lemma throws_text_clear : throws_text l v va (clear l).
Proof.
  intros w e [Hs _]. unfold clear. rewrite await_outcome.
  destruct (Hs (cursor w)) as [Hc _].
  destruct (r_clear (sched w (cursor w))); simpl in *; intros; by simplify_eq.
Qed.

Lemma throws_text_fillAction cb : throws_text l v va (call_fillAction cb l v).
Proof.
  intros w e [Hs _]. unfold call_fillAction. rewrite await_outcome.
  destruct (Hs (cursor w)) as [_ Hc].
  destruct (r_fillAction (sched w (cursor w))); simpl in *; intros; by simplify_eq.
Qed.

Lemma throws_text_verifyFill : throws_text l v va (verifyFill l v va).
Proof. intros w e [_ Hv]. by apply Hv. Qed.

Lemma throws_text_attempt_try fuel config attempt c :
  cfg_verifyAction config = va →
  throws_text l v va (attempt_try fuel l v config attempt c).
Proof.
  intros Hva. unfold attempt_try. rewrite Hva.
  apply throws_text_bind; [unfold clear; respects_auto| |intros _].
  { do 2 apply throws_text_when.
    apply throws_text_bind; [apply await_evolves|apply throws_text_clear|].
    intros _. apply throws_text_never_throws, never_throws_waitForTimeout. }
  apply throws_text_bind; [unfold call_fillAction; respects_auto| |intros _].
  { destruct (cfg_fillAction config);
      [apply throws_text_fillAction|apply throws_text_ret]. }
  apply throws_text_bind; [respects_auto| |intros _].
  { apply throws_text_never_throws, never_throws_waitForTimeout. }
  apply throws_text_bind; [respects_auto| |intros _].
  { apply throws_text_never_throws, never_throws_waitForQuiescence. }
  apply throws_text_bind; [respects_auto| |intros _].
  { apply throws_text_never_throws, never_throws_waitForTimeout. }
  apply throws_text_bind; [respects_auto|apply throws_text_verifyFill|].
  intros []; apply throws_text_never_throws; outcome_auto.
Qed.

Lemma throws_text_attempt_tracked fuel config attempt c :
  cfg_verifyAction config = va →
  throws_text l v va (attempt_tracked fuel l v config attempt c).
Proof.
  intros Hva. unfold attempt_tracked.
  apply throws_text_bind; [unfold attempt_register; respects_auto| |intros _].
  { apply throws_text_never_throws, never_throws_attempt_register. }
  apply throws_text_try_finally;
    [by apply throws_text_attempt_try|apply never_throws_attempt_finally].
Qed.

End throws_text.

(** A schedule under which no awaited call is rejected with [undefined]
    or [null] is one under which the [catch] clause can take whatever
    reaches it. *)
Lemma rejections_with_text_catchable l v va (s : nat → Tick) :
  (∀ n, has_text (r_clear (s n)) ∧ has_text (r_inputValue (s n)) ∧
        has_text (r_fillAction (s n)) ∧ has_text (r_verifyAction (s n))) →
  catchable l v va s.
Proof.
  intros Hs. split; [intros n; by destruct (Hs n) as (? & _ & ? & _)|].
  intros w e <-. unfold verifyFill. destruct va as [cb|].
  - unfold call_verifyAction. rewrite await_outcome.
    destruct (Hs (cursor w)) as (_ & _ & _ & Hc).
    destruct (r_verifyAction (sched w (cursor w))); simpl in *; intros; by simplify_eq.
  - destruct v; try (simpl; intros; by simplify_eq).
    unfold bind.
    pose proof (await_outcome (CallInputValue l) r_inputValue w) as Ho.
    fold (inputValue l) in Ho. destruct (Hs (cursor w)) as (_ & Hc & _).
    destruct (inputValue l w) as [w1 o1]. simpl in Ho. subst o1.
    destruct (r_inputValue (sched w (cursor w))) as [a|e0]; simpl in *;
      [|intros; by simplify_eq].
    destruct (negb _); [done|].
    pose proof (never_throws_try_catch (isDisabled l) (λ _, ret false)
                  (λ _, never_throws_ret false) w1) as Hd.
    unfold bind. destruct (try_catch _ _ w1) as [w2 [[]|e2|]]; simpl in *;
      intros; simplify_eq. by destruct (Hd e).
Qed.

(** Under a schedule that is [catchable], whatever happens inside an
    attempt, the [catch] clause absorbs it. *)
Lemma attempt_body_never_throws fuel l v config attempt w e :
  catchable l v (cfg_verifyAction config) (sched w) →
  (attempt_body fuel l v config attempt w).2 ≠ Thrown e.
Proof.
  intros Hs. unfold attempt_body, try_catch.
  match goal with |- context [bind ?m ?k w] =>
    assert (throws_text l v (cfg_verifyAction config) (bind m k)) as Ht end.
  { apply throws_text_bind; [apply new_cell_evolves| |intros c].
    - apply throws_text_never_throws, never_throws_new_cell.
    - apply throws_text_bind; [|by apply throws_text_attempt_tracked|].
      { unfold attempt_tracked, attempt_register, attempt_finally.
        pose proof attempt_try_evolves. respects_auto. }
      intros [r|le]; apply throws_text_never_throws; outcome_auto. }
  specialize (Ht w).
  match goal with |- context [bind ?m ?k w] =>
    destruct (bind m k w) as [w1 [step|e1|]] end; simpl in *; [done| |done].
  specialize (Ht e1 Hs eq_refl).
  destruct e1 as [name [|a message]| | |text]; try done; simpl;
    match goal with |- context [bind ?m ?k w1] =>
      apply (never_throws_bind m k)
    end; outcome_auto.
Qed.

Lemma attempt_body_never_stuck fuel l v config attempt :
  enough_fuel config fuel → never_stuck (attempt_body fuel l v config attempt).
Proof.
  intros Hfuel. pose proof (attempt_try_never_stuck fuel l v config attempt) as Ht.
  unfold attempt_body, attempt_tracked, attempt_register, attempt_finally.
  outcome_auto.
Qed.

Lemma attempts_loop_never_throws n fuel l v config attempt le w e :
  catchable l v (cfg_verifyAction config) (sched w) →
  (attempts_loop n fuel l v config attempt le w).2 ≠ Thrown e.
Proof.
  revert attempt le w. induction n as [|n IH]; intros attempt le w Hs; simpl; [done|].
  destruct (attempt <=? cfg_maxRetries config + 1); [|done].
  unfold bind.
  pose proof (attempt_body_never_throws fuel l v config attempt w) as Hb.
  pose proof (attempt_body_evolves fuel l v config attempt w) as Hev.
  destruct (attempt_body fuel l v config attempt w) as [w1 [[r|le1]|e1|]];
    simpl in *; [done| |by destruct (Hb e1)|done].
  apply IH. by rewrite (evolves_sched _ _ Hev).
Qed.

Lemma attempts_loop_never_stuck n fuel l v config attempt le :
  enough_fuel config fuel →
  never_stuck (attempts_loop n fuel l v config attempt le).
Proof.
  intros Hfuel. revert attempt le. induction n as [|n IH]; intros attempt le; simpl.
  - outcome_auto.
  - pose proof (attempt_body_never_stuck fuel l v config) as Hb. outcome_auto.
Qed.

(** [fillWithRetry] returns a result when its loop throws nothing. *)
Lemma fillWithRetry_returns_after fuel l v o w :
  enough_fuel (mkConfig o) fuel →
  (∀ e, (attempts_loop (Z.to_nat (cfg_maxRetries (mkConfig o) + 1)) fuel l v
           (mkConfig o) 1 "" w).2 ≠ Thrown e) →
  ∃ w' r, fillWithRetry fuel l v o w = (w', Ok r).
Proof.
  intros Hfuel Ht.
  assert (never_stuck (fillWithRetry fuel l v o)) as Hs.
  { unfold fillWithRetry, inputValue.
    pose proof (attempts_loop_never_stuck) as Hl. outcome_auto. }
  specialize (Hs w). revert Hs. unfold fillWithRetry, bind.
  destruct (attempts_loop _ fuel l v (mkConfig o) 1 "" w) as [w1 [[r|le]|e|]];
    simpl in *; [eauto|..|by destruct (Ht e)|done].
  pose proof (never_throws_try_catch (inputValue l) (λ _, ret "")
                (λ _, never_throws_ret "") w1) as Hi.
  destruct (try_catch (inputValue l) (λ _, ret "") w1) as [w2 [s|e|]];
    simpl in *; [eauto|by destruct (Hi e)|done].
Qed.

(** It does so when nothing that reaches a [catch] clause is [undefined]
    or [null]. *)
Lemma fillWithRetry_returns fuel l v o w :
  enough_fuel (mkConfig o) fuel →
  catchable l v (verifyAction o) (sched w) →
  ∃ w' r, fillWithRetry fuel l v o w = (w', Ok r).
Proof.
  intros Hfuel Hc. apply fillWithRetry_returns_after; [done|].
  intros e. by apply attempts_loop_never_throws.
Qed.

(** *** Inversion of the monadic operations *)

Lemma respects_run {A} (R : relation World) (m : M A) w w' o :
  respects R m → m w = (w', o) → R w w'.
Proof. intros Hm Hw. specialize (Hm w). by rewrite Hw in Hm. Qed.

Lemma bind_Ok_inv {A B} (m : M A) (k : A → M B) w w' b :
  bind m k w = (w', Ok b) →
  ∃ w1 a, m w = (w1, Ok a) ∧ k a w1 = (w', Ok b).
Proof.
  unfold bind. destruct (m w) as [w1 [a|e|]]; [eauto|done..].
Qed.

Lemma bind_Thrown_inv {A B} (m : M A) (k : A → M B) w w' e :
  bind m k w = (w', Thrown e) →
  m w = (w', Thrown e) ∨ ∃ w1 a, m w = (w1, Ok a) ∧ k a w1 = (w', Thrown e).
Proof.
  unfold bind. destruct (m w) as [w1 [a|e'|]]; [eauto|left; congruence|done].
Qed.

Lemma try_finally_inv {A} (m : M A) f w w' o :
  try_finally m f w = (w', o) → o ≠ Stuck →
  ∃ w1 o1, m w = (w1, o1) ∧ o1 ≠ Stuck ∧
    ((f w1 = (w', Ok tt) ∧ o = o1) ∨ (∃ e, f w1 = (w', Thrown e) ∧ o = Thrown e)).
Proof.
  unfold try_finally. intros Hw Ho.
  destruct (m w) as [w1 [a|e|]]; [| |by simplify_eq].
  - exists w1, (Ok a). split; [done|]. split; [done|].
    destruct (f w1) as [w2 [[]|e'|]]; simplify_eq; eauto.
  - exists w1, (Thrown e). split; [done|]. split; [done|].
    destruct (f w1) as [w2 [[]|e'|]]; simplify_eq; eauto.
Qed.

(** *** The listeners of an attempt are removed again *)

Lemma attempt_register_listeners config c w :
  listeners (attempt_register config c w).1 =
    if cfg_waitForRequests config then tracking c (listeners w) else listeners w.
Proof.
  unfold attempt_register. destruct (cfg_waitForRequests config); [|done].
  unfold when, bind, page_on, Emitter.on, record, tracking. simpl.
  by rewrite <- !app_assoc.
Qed.

Lemma attempt_register_Ok config c w :
  (attempt_register config c w).2 = Ok tt.
Proof. unfold attempt_register. by destruct (cfg_waitForRequests config). Qed.

Lemma attempt_finally_listeners config c w l :
  listeners w =
    (if cfg_waitForRequests config then tracking c l else l) →
  attempt_finally config c w = ((attempt_finally config c w).1, Ok tt) ∧
  listeners (attempt_finally config c w).1 = l.
Proof.
  unfold attempt_finally. destruct (cfg_waitForRequests config); [|done].
  intros Hl. split; [done|].
  unfold when, bind, page_off, record, tracking. simpl. rewrite Hl.
  unfold tracking.
  rewrite EmitterFacts.off_middle
    by (rewrite !elem_of_cons, elem_of_nil; intros [?|[?|[]]]; discriminate).
  rewrite (EmitterFacts.off_middle _ _ l)
    by (rewrite !elem_of_cons, elem_of_nil; intros [?|[]]; discriminate).
  rewrite (EmitterFacts.off_middle _ _ l []) by apply not_elem_of_nil.
  by rewrite app_nil_r.
Qed.

Lemma attempt_tracked_listeners fuel l v config attempt c w :
  (attempt_tracked fuel l v config attempt c w).2 ≠ Stuck →
  listeners (attempt_tracked fuel l v config attempt c w).1 = listeners w.
Proof.
  unfold attempt_tracked, bind.
  pose proof (attempt_register_listeners config c w) as Hreg.
  pose proof (attempt_register_Ok config c w) as Hok.
  destruct (attempt_register config c w) as [w1 o1]. simpl in *. subst o1.
  intros Hns.
  destruct (try_finally _ _ w1) as [w' o] eqn:Htf.
  apply try_finally_inv in Htf as (w2 & o2 & Htry & _ & Hfin); [|done].
  pose proof (respects_run _ _ _ _ _ (attempt_try_listeners fuel l v config attempt c) Htry)
    as Hsame. unfold same_listeners in Hsame.
  destruct (attempt_finally_listeners config c w2 (listeners w)) as [Hf Hl];
    [congruence|].
  simpl. destruct Hfin as [[Hfin _]|[e [Hfin _]]]; rewrite Hfin in *; simpl in *;
    [done|by simplify_eq].
Qed.

Lemma retry_pause_listeners config attempt : respects same_listeners (retry_pause config attempt).
Proof. unfold retry_pause. respects_auto. Qed.

Lemma respects_weaken {A} (R : relation World) (m : M A) :
  respects R m → respects_unless_stuck R m.
Proof. intros Hm w _. apply Hm. Qed.

Lemma respects_unless_stuck_bind {A B} (R : relation World) `{!PreOrder R}
    (m : M A) (k : A → M B) :
  respects_unless_stuck R m → (∀ a, respects_unless_stuck R (k a)) →
  respects_unless_stuck R (bind m k).
Proof.
  intros Hm Hk w. unfold bind. specialize (Hm w).
  destruct (m w) as [w1 [a|e|]]; simpl in *; intros Hns; [|by apply Hm|done].
  etrans; [by apply Hm|by apply Hk].
Qed.

Lemma respects_unless_stuck_try_catch {A} (R : relation World) `{!PreOrder R}
    (m : M A) h :
  respects_unless_stuck R m → (∀ e, respects_unless_stuck R (h e)) →
  respects_unless_stuck R (try_catch m h).
Proof.
  intros Hm Hh w. unfold try_catch. specialize (Hm w).
  destruct (m w) as [w1 [a|e|]]; simpl in *; intros Hns; [by apply Hm| |done].
  etrans; [by apply Hm|by apply Hh].
Qed.

Lemma attempt_body_listeners fuel l v config attempt :
  respects_unless_stuck same_listeners (attempt_body fuel l v config attempt).
Proof.
  unfold attempt_body.
  apply respects_unless_stuck_try_catch; [apply _| |].
  - apply respects_unless_stuck_bind; [apply _| |intros c].
    + apply respects_weaken, new_cell_listeners.
    + apply respects_unless_stuck_bind; [apply _| |intros [r|le]].
      * intros w. apply attempt_tracked_listeners.
      * apply respects_weaken. respects_auto.
      * apply respects_weaken. pose proof retry_pause_listeners. respects_auto.
  - intros e. apply respects_weaken. pose proof retry_pause_listeners. respects_auto.
Qed.

Lemma attempts_loop_listeners n fuel l v config attempt le w :
  enough_fuel config fuel →
  listeners (attempts_loop n fuel l v config attempt le w).1 = listeners w.
Proof.
  intros Hfuel. revert attempt le w.
  induction n as [|n IH]; intros attempt le w; simpl; [done|].
  destruct (attempt <=? cfg_maxRetries config + 1); [|done].
  unfold bind.
  pose proof (attempt_body_listeners fuel l v config attempt w) as Hb.
  pose proof (attempt_body_never_stuck fuel l v config attempt Hfuel w) as Hns.
  unfold same_listeners in Hb.
  destruct (attempt_body fuel l v config attempt w) as [w1 [[r|le1]|e|]]; simpl in *.
  - by apply Hb.
  - rewrite IH. by apply Hb.
  - by apply Hb.
  - done.
Qed.

Lemma attempt_tracked_never_stuck fuel l v config attempt c :
  enough_fuel config fuel → never_stuck (attempt_tracked fuel l v config attempt c).
Proof.
  intros Hfuel. pose proof (attempt_try_never_stuck fuel l v config attempt) as Ht.
  unfold attempt_tracked, attempt_register, attempt_finally. outcome_auto.
Qed.

(** C9. The request-counter listeners of an attempt are gone when the
    attempt ends, on every exit path.  With enough fuel for the quiescence
    wait: (1) the tracked block of an attempt (registration, inner [try],
    [finally]) leaves the listener registry exactly as it found it, whether
    it ends with the [return] of a success, with a verification failure or
    with a thrown error; (2) so does the whole body of the loop, [catch]
    clause included, also when that clause itself throws; (3) after any
    number of passes of the loop, that is,
    when the next attempt begins, the registry is the one the invocation
    started with, and no listener of a counter created by an earlier attempt
    of this invocation is registered. *)
Theorem C9_counter_listeners_removed_on_every_exit
    fuel l v config (w : World) :
  enough_fuel config fuel →
  scoped w →
  (∀ attempt c w1,
     let r := attempt_tracked fuel l v config attempt c w1 in
     r.2 ≠ Stuck ∧ listeners r.1 = listeners w1) ∧
  (∀ attempt w1,
     let r := attempt_body fuel l v config attempt w1 in
     r.2 ≠ Stuck ∧ listeners r.1 = listeners w1) ∧
  (∀ n attempt lastError,
     let w' := (attempts_loop n fuel l v config attempt lastError w).1 in
     listeners w' = listeners w ∧
     ∀ e c h, (length (cells w) ≤ c)%nat → tracks c h → (e, h) ∉ listeners w').
Proof.
  intros Hfuel Hsc. split; [|split].
  - intros attempt c w1 r. subst r.
    pose proof (attempt_tracked_never_stuck fuel l v config attempt c Hfuel w1) as Hns.
    split; [done|]. by apply attempt_tracked_listeners.
  - intros attempt w1 r. subst r.
    pose proof (attempt_body_never_stuck fuel l v config attempt Hfuel w1) as Hns.
    split; [done|]. by apply attempt_body_listeners.
  - intros n attempt le w'. subst w'.
    rewrite attempts_loop_listeners by done. split; [done|].
    intros e c h Hc Hh Hin.
    unfold scoped in Hsc. rewrite Forall_forall in Hsc.
    specialize (Hsc _ Hin c Hh). lia.
Qed.

Lemma C9_witness :
  listeners (attempts_loop 4 61 0%nat (VStr "x") (mkConfig no_options) 1 ""
               (world0 (quiet calm))).1
  = listeners (world0 (quiet calm)).
Proof.
  destruct (C9_counter_listeners_removed_on_every_exit 61 0%nat (VStr "x")
              (mkConfig no_options) (world0 (quiet calm))) as (_ & _ & Hloop).
  - unfold enough_fuel. vm_compute. lia.
  - apply Forall_nil_2.
  - apply (Hloop 4%nat 1 "").
Defined.

(** *** The request counter *)

Arguments emit : simpl never.

Lemma foldl_untracked e c (ls : list (EventName * Handler)) cs :
  Forall (λ reg, ¬ tracks c reg.2) ls →
  foldl (λ cs' '(e', h), if decide (e' = e) then run_handler h cs' else cs') cs ls !! c
  = cs !! c.
Proof.
  revert cs. induction ls as [|[e' h] ls IH]; intros cs Hls; [done|].
  apply Forall_cons in Hls as [Hh Hls]. simpl. rewrite IH by done.
  destruct (decide (e' = e)); [|done].
  destruct h as [c'|c'|i]; simpl; [| |done];
    (apply list_lookup_alter_ne; intros ->; apply Hh; unfold tracks; simpl; auto).
Qed.

(** With the listeners of cell [c] registered once, a [request] event adds
    one to the counter and a [EvRequestFinished] or [EvRequestFailed] event
    takes one away, whatever the counter holds. *)
Lemma emit_tracking e c l w :
  listeners w = tracking c l →
  Forall (λ reg, ¬ tracks c reg.2) l →
  (c < length (cells w))%nat →
  read_cell c (emit e w) =
    read_cell c w + match e with
                    | EvRequest => 1
                    | EvRequestFinished | EvRequestFailed => -1
                    | EvResponse => 0
                    end.
Proof.
  intros Hl Hun Hc. unfold read_cell, emit, set_cells. simpl. rewrite Hl.
  unfold tracking. rewrite foldl_app.
  pose proof (foldl_untracked e c l (cells w) Hun) as Hpre.
  set (cs := foldl _ (cells w) l) in *.
  destruct (lookup_lt_is_Some_2 (cells w) c Hc) as [x Hx].
  rewrite Hx in *. simpl.
  destruct e; simpl; rewrite ?list_lookup_alter_eq, ?Hpre; simpl; lia.
Qed.

Lemma quiescence_loop_quiet fuel config c start w :
  read_cell c w ≤ 0 → quiescence_loop fuel config c start w = (w, Ok tt).
Proof.
  intros Hc. destruct fuel; simpl;
    by destruct (Z.ltb_spec 0 (read_cell c w)); [lia|].
Qed.

Lemma waitForQuiescence_quiet fuel config c w :
  read_cell c w ≤ 0 → waitForQuiescence fuel config c w = (w, Ok tt).
Proof.
  intros Hc. unfold waitForQuiescence.
  destruct (Z.ltb_spec 0 (read_cell c w)); [lia|]. by rewrite andb_false_r.
Qed.

(** When the polling loop is over, the counter is not positive or the
    deadline has passed. *)
Lemma quiescence_loop_exit fuel config c start w w' :
  quiescence_loop fuel config c start w = (w', Ok tt) →
  read_cell c w' ≤ 0 ∨ cfg_requestTimeout config < now w' - start.
Proof.
  revert w. induction fuel as [|fuel IH]; intros w; simpl.
  - destruct (Z.ltb_spec 0 (read_cell c w)).
    + destruct (Z.ltb_spec (cfg_requestTimeout config) (now w - start)); [|done].
      intros; simplify_eq. by right.
    + intros; simplify_eq. by left.
  - destruct (Z.ltb_spec 0 (read_cell c w)).
    + destruct (Z.ltb_spec (cfg_requestTimeout config) (now w - start)).
      * intros; simplify_eq. by right.
      * intros Hb. apply bind_Ok_inv in Hb as (w1 & [] & _ & Hb). by eapply IH.
    + intros; simplify_eq. by left.
Qed.

(** The polling loop sleeps only while the counter is positive: a run that
    changes the world found a positive counter. *)
Lemma quiescence_loop_sleeps fuel config c start w :
  (quiescence_loop fuel config c start w).1 ≠ w → 0 < read_cell c w.
Proof.
  intros Hne. destruct (Z.lt_ge_cases 0 (read_cell c w)) as [|Hle]; [done|].
  by rewrite quiescence_loop_quiet in Hne by lia.
Qed.

(** *** What a pass through the loop can return *)

Lemma try_catch_Ok_inv {A} (m : M A) h w w' a :
  try_catch m h w = (w', Ok a) →
  m w = (w', Ok a) ∨ ∃ w1 e, m w = (w1, Thrown e) ∧ h e w1 = (w', Ok a).
Proof.
  unfold try_catch. destruct (m w) as [w1 [a'|e|]]; [by left|eauto|done].
Qed.

(** Derive [evolves w w'] from a run [m w = (w', _)] of a piece of the
    engine. *)
Ltac run_evolves H :=
  match type of H with
  | ?m ?w = (?w', _) =>
      let E := fresh "E" in
      assert (evolves w w') as E
        by (eapply respects_run; [|exact H];
            unfold clear, call_fillAction, inputValue, attempt_register, retry_pause;
            respects_auto)
  end.


(** A pass returns from the function only after the verification said
    [true], and then with [success] and the number of the attempt. *)
Lemma attempt_try_Return fuel l v config attempt c w w' r :
  attempt_try fuel l v config attempt c w = (w', Ok (Return r)) →
  (∃ w1 w2, sched w1 = sched w ∧
            verifyFill l v (cfg_verifyAction config) w1 = (w2, Ok true)) ∧
  success r = true ∧ attempts r = attempt.
Proof.
  unfold attempt_try. intros H.
  apply bind_Ok_inv in H as (w1 & [] & H1 & H). run_evolves H1.
  apply bind_Ok_inv in H as (w2 & [] & H2 & H). run_evolves H2.
  apply bind_Ok_inv in H as (w3 & [] & H3 & H). run_evolves H3.
  apply bind_Ok_inv in H as (w4 & [] & H4 & H). run_evolves H4.
  apply bind_Ok_inv in H as (w5 & [] & H5 & H). run_evolves H5.
  apply bind_Ok_inv in H as (w6 & isValid & H6 & H).
  assert (evolves w w5) as Hev by (repeat (etrans; [eassumption|]); reflexivity).
  destruct isValid.
  - apply bind_Ok_inv in H as (w7 & final & _ & H).
    unfold ret in H. simplify_eq. simpl. split; [|done].
    exists w5, w6. split; [by apply evolves_sched|done].
  - apply bind_Ok_inv in H as (w7 & av & _ & H). unfold ret in H. simplify_eq.
Qed.

Lemma attempt_tracked_Return fuel l v config attempt c w w' r :
  attempt_tracked fuel l v config attempt c w = (w', Ok (Return r)) →
  (∃ w1 w2, sched w1 = sched w ∧
            verifyFill l v (cfg_verifyAction config) w1 = (w2, Ok true)) ∧
  success r = true ∧ attempts r = attempt.
Proof.
  unfold attempt_tracked. intros H.
  apply bind_Ok_inv in H as (w1 & [] & H1 & H). run_evolves H1.
  apply try_finally_inv in H as (w2 & o2 & Htry & _ & [[_ <-]|[e [_ ?]]]);
    [|done..].
  apply attempt_try_Return in Htry as ((w3 & w4 & Hs & Hv) & ? & ?).
  split; [|done]. exists w3, w4. split; [|done].
  rewrite Hs. by apply evolves_sched.
Qed.

Lemma attempt_body_Return fuel l v config attempt w w' r :
  attempt_body fuel l v config attempt w = (w', Ok (Return r)) →
  (∃ w1 w2, sched w1 = sched w ∧
            verifyFill l v (cfg_verifyAction config) w1 = (w2, Ok true)) ∧
  success r = true ∧ attempts r = attempt.
Proof.
  unfold attempt_body. intros H.
  apply try_catch_Ok_inv in H as [H|(w1 & e & _ & H)].
  - apply bind_Ok_inv in H as (w1 & c & H1 & H).
    assert (evolves w w1) as E1
      by (eapply respects_run; [apply new_cell_evolves|exact H1]).
    apply bind_Ok_inv in H as (w2 & step & H2 & H).
    destruct step as [r'|le].
    + unfold ret in H. simplify_eq.
      apply attempt_tracked_Return in H2 as ((w3 & w4 & Hs & Hv) & ? & ?).
      split; [|done]. exists w3, w4. split; [|done].
      rewrite Hs. by apply evolves_sched.
    + apply bind_Ok_inv in H as (w3 & [] & _ & H). unfold ret in H. simplify_eq.
  - destruct (Js.error_text e) as [text|typeError]; [|done].
    apply bind_Ok_inv in H as (w3 & [] & _ & H). unfold ret in H. simplify_eq.
Qed.

Lemma attempts_loop_Return n fuel l v config attempt le w w' r :
  attempts_loop n fuel l v config attempt le w = (w', Ok (Return r)) →
  (∃ w1 w2, sched w1 = sched w ∧
            verifyFill l v (cfg_verifyAction config) w1 = (w2, Ok true)) ∧
  success r = true ∧ attempt ≤ attempts r < attempt + Z.of_nat n.
Proof.
  revert attempt le w. induction n as [|n IH]; intros attempt le w; simpl.
  - unfold ret. intros; simplify_eq.
  - destruct (attempt <=? cfg_maxRetries config + 1); [|unfold ret; intros; simplify_eq].
    intros H. apply bind_Ok_inv in H as (w1 & step & H1 & H).
    destruct step as [r'|le'].
    + unfold ret in H. simplify_eq.
      apply attempt_body_Return in H1 as (Hv & ? & ?). split; [done|]. split; [done|lia].
    + apply IH in H as ((w3 & w4 & Hs & Hv) & ? & ?).
      assert (evolves w w1) as E1
        by (eapply respects_run; [apply attempt_body_evolves|exact H1]).
      split; [|split; [done|lia]]. exists w3, w4. split; [|done].
      rewrite Hs. by apply evolves_sched.
Qed.

(** The result of [fillWithRetry]: a success that some verification
    vouched for, or the failure after the last attempt. *)
Lemma fillWithRetry_result fuel l v o w w' r :
  fillWithRetry fuel l v o w = (w', Ok r) →
  ((∃ w1 w2, sched w1 = sched w ∧
             verifyFill l v (verifyAction o) w1 = (w2, Ok true)) ∧
   success r = true ∧ 1 ≤ attempts r ≤ cfg_maxRetries (mkConfig o) + 1) ∨
  (success r = false ∧ attempts r = cfg_maxRetries (mkConfig o) + 1 ∧
   is_Some (error r)).
Proof.
  unfold fillWithRetry. intros H.
  apply bind_Ok_inv in H as (w1 & step & H1 & H).
  destruct step as [r'|le].
  - unfold ret in H. simplify_eq. left.
    apply attempts_loop_Return in H1 as (Hv & ? & ?). split; [done|]. split; [done|].
    lia.
  - apply bind_Ok_inv in H as (w2 & final & _ & H). unfold ret in H. simplify_eq.
    right. simpl. eauto.
Qed.

(** C4. When the verification says [false] at every attempt,
    [fillWithRetry] with [maxRetries = m >= 0] returns, without throwing,
    a result with [success = false] and [attempts = m + 1].  The
    verification saying [false] at every attempt is stated for the schedule
    of the page: wherever the run may have got to, [verifyFill] returns
    [false].  An attempt whose [clear] or fill action is rejected does not
    get to its verification; such attempts are allowed here as long as the
    rejection is not with [undefined] or [null], the two values on which
    the [catch] clause itself throws. *)
Theorem C4_exhausted_retries_return_failure
    fuel l v o (m : Z) (w : World) :
  cfg_maxRetries (mkConfig o) = m →
  0 ≤ m →
  enough_fuel (mkConfig o) fuel →
  (∀ n, has_text (r_clear (sched w n)) ∧ has_text (r_fillAction (sched w n))) →
  (∀ w1, sched w1 = sched w → (verifyFill l v (verifyAction o) w1).2 = Ok false) →
  ∃ w' r, fillWithRetry fuel l v o w = (w', Ok r) ∧
          success r = false ∧ attempts r = m + 1.
Proof.
  intros Hm Hpos Hfuel Htext Hfalse.
  assert (catchable l v (verifyAction o) (sched w)) as Hc.
  { split; [done|]. intros w1 e Hs He. rewrite (Hfalse w1 Hs) in He. done. }
  destruct (fillWithRetry_returns fuel l v o w Hfuel Hc) as (w' & r & Hrun).
  exists w', r. split; [done|].
  apply fillWithRetry_result in Hrun as [((w1 & w2 & Hs & Hv) & _)|(? & ? & _)].
  - specialize (Hfalse w1 Hs). rewrite Hv in Hfalse. simplify_eq.
  - split; [done|congruence].
Qed.

(** The spec's example: [maxRetries = 2] and a predicate that is always
    false give [{success: false, attempts: 3}]. *)
Lemma C4_witness :
  ∃ w' r,
    fillWithRetry 61 0%nat (VStr "x")
      {| maxRetries := Some 2; retryDelay := None; waitAfterBlur := None;
         waitBeforeVerify := None; waitForRequests := None; requestTimeout := None;
         clearOnRetry := None; fillAction := None; verifyAction := Some 0%nat;
         debug := None |}
      (world0 (quiet calm)) = (w', Ok r) ∧
    success r = false ∧ attempts r = 2 + 1.
Proof.
  apply (C4_exhausted_retries_return_failure 61 0%nat (VStr "x") _ 2 (world0 (quiet calm))).
  - reflexivity.
  - lia.
  - unfold enough_fuel. vm_compute. lia.
  - intros n. split; exact I.
  - intros w1 Hs. unfold verifyFill, call_verifyAction, await, suspend. simpl.
    rewrite Hs. reflexivity.
Defined.

(** *** Retries of a configuration error *)

Lemma evolves_pauses ms w w' : evolves w w' → (pauses ms w ≤ pauses ms w')%nat.
Proof.
  intros (_ & _ & _ & _ & [k Hk]). unfold pauses. rewrite Hk, filter_app, length_app. lia.
Qed.

Lemma waitForTimeout_calls ms w :
  calls (waitForTimeout ms w).1 = calls w ++ [CallWaitForTimeout ms].
Proof.
  change (waitForTimeout ms w).1 with (suspend ms (record (CallWaitForTimeout ms) w)).1.
  by destruct (suspend_fields ms (record (CallWaitForTimeout ms) w)) as (_&_&_&_&->&_).
Qed.

Lemma retry_pause_pauses config attempt w :
  attempt ≤ cfg_maxRetries config →
  pauses (cfg_retryDelay config) (retry_pause config attempt w).1
  = S (pauses (cfg_retryDelay config) w).
Proof.
  intros Hle. unfold retry_pause.
  destruct (Z.leb_spec attempt (cfg_maxRetries config)); [|lia].
  unfold when, pauses. rewrite waitForTimeout_calls, filter_app, length_app.
  rewrite filter_cons_True by done. simpl. lia.
Qed.

Lemma attempt_inner_evolves fuel l v config attempt :
  respects evolves
    (let* activeRequests := new_cell in
     let* step := attempt_tracked fuel l v config attempt activeRequests in
     match step with
     | Return r => ret (Return r)
     | Continue lastError => retry_pause config attempt >> ret (Continue lastError)
     end).
Proof.
  unfold attempt_tracked, attempt_register, attempt_finally, retry_pause.
  pose proof attempt_try_evolves. respects_auto.
Qed.

(** A pass that does not return ends with the pause before the next one. *)
Lemma attempt_body_Continue fuel l v config attempt w w' e :
  attempt_body fuel l v config attempt w = (w', Ok (Continue e)) →
  ∃ w1, evolves w w1 ∧ w' = (retry_pause config attempt w1).1.
Proof.
  unfold attempt_body. intros H.
  apply try_catch_Ok_inv in H as [H|(w1 & e0 & H0 & H)].
  - apply bind_Ok_inv in H as (w1 & c & H1 & H).
    assert (evolves w w1) as E1
      by (eapply respects_run; [apply new_cell_evolves|exact H1]).
    apply bind_Ok_inv in H as (w2 & step & H2 & H).
    assert (evolves w1 w2) as E2.
    { eapply respects_run; [|exact H2].
      unfold attempt_tracked, attempt_register, attempt_finally.
      pose proof attempt_try_evolves. respects_auto. }
    destruct step as [r'|le].
    + unfold ret in H. simplify_eq.
    + apply bind_Ok_inv in H as (w3 & [] & H3 & H). unfold ret in H. simplify_eq.
      exists w2. split; [by etrans|]. by rewrite H3.
  - destruct (Js.error_text e0) as [text|typeError]; [|done].
    apply bind_Ok_inv in H as (w3 & [] & H3 & H). unfold ret in H. simplify_eq.
    exists w1. split; [|by rewrite H3].
    eapply respects_run; [apply attempt_inner_evolves|exact H0].
Qed.

Lemma retry_pause_evolves config attempt : respects evolves (retry_pause config attempt).
Proof. unfold retry_pause. respects_auto. Qed.

(** Passes that all fail sleep [retryDelay] after each of them but the one
    numbered [maxRetries + 1]. *)
Lemma attempts_loop_pauses n fuel l v config attempt le w w' e :
  attempts_loop n fuel l v config attempt le w = (w', Ok (Continue e)) →
  attempt + Z.of_nat n ≤ cfg_maxRetries config + 2 →
  (pauses (cfg_retryDelay config) w + (n - 1) ≤ pauses (cfg_retryDelay config) w')%nat.
Proof.
  revert attempt le w. induction n as [|n IH]; intros attempt le w; simpl.
  - unfold ret. intros; simplify_eq. lia.
  - intros H Hn.
    destruct (Z.leb_spec attempt (cfg_maxRetries config + 1)); [|lia].
    apply bind_Ok_inv in H as (w1 & step & H1 & H).
    destruct step as [r'|le']; [unfold ret in H; simplify_eq|].
    apply attempt_body_Continue in H1 as (w0 & E0 & ->).
    pose proof (evolves_pauses (cfg_retryDelay config) _ _ E0) as Hp0.
    apply IH in H as Hp; [|lia].
    destruct n as [|n].
    + pose proof (evolves_pauses (cfg_retryDelay config) _ _
                    (retry_pause_evolves config attempt w0)). simpl in *. lia.
    + rewrite retry_pause_pauses in Hp by lia. simpl in *. lia.
Qed.


(** *** Running a computation forwards *)

Lemma bind_run {A B} (m : M A) (k : A → M B) w w1 a :
  m w = (w1, Ok a) → bind m k w = k a w1.
Proof. intros H. unfold bind. by rewrite H. Qed.


Lemma runs_Ok {A} (m : M A) w :
  never_throws m → never_stuck m → ∃ w' a, m w = (w', Ok a).
Proof.
  intros Ht Hs. specialize (Ht w). specialize (Hs w).
  destruct (m w) as [w' [a|e|]]; simpl in *; [eauto|by destruct (Ht e)|done].
Qed.

Lemma attempt_register_position config c w :
  sched (attempt_register config c w).1 = sched w ∧
  cursor (attempt_register config c w).1 = cursor w.
Proof. unfold attempt_register. by destruct (cfg_waitForRequests config). Qed.

Lemma attempt_finally_runs config c w :
  ∃ w', attempt_finally config c w = (w', Ok tt) ∧ evolves w w'.
Proof.
  destruct (runs_Ok (attempt_finally config c) w) as (w' & [] & H);
    [apply never_throws_attempt_finally|unfold attempt_finally; outcome_auto|].
  exists w'. split; [done|]. eapply respects_run; [|exact H].
  unfold attempt_finally. respects_auto.
Qed.

(** Without a [verifyAction], the verification of a value that is not a
    string throws the configuration error. *)
Lemma verifyFill_config_error l v w :
  typeof_string v = false → verifyFill l v None w = (w, Thrown needVerifyAction).
Proof. by destruct v. Qed.

(** The inner [try] block of an attempt for such a value ends with that
    error, provided the fill action, if there is one, fulfils. *)
Lemma attempt_try_config_error fuel l v config attempt c w w' o :
  typeof_string v = false →
  cfg_verifyAction config = None →
  (is_Some (cfg_fillAction config) → ∀ n, r_fillAction (sched w n) = Fulfilled tt) →
  attempt_try fuel l v config attempt c w = (w', o) →
  o = Thrown needVerifyAction ∨ o = Stuck.
Proof.
  intros Hv Hva Hfill. unfold attempt_try. rewrite Hv, Hva, andb_false_r.
  destruct o as [step|e|]; [| |by right]; intros H.
  - exfalso.
    apply bind_Ok_inv in H as (w1 & [] & _ & H).
    apply bind_Ok_inv in H as (w2 & [] & _ & H).
    apply bind_Ok_inv in H as (w3 & [] & _ & H).
    apply bind_Ok_inv in H as (w4 & [] & _ & H).
    apply bind_Ok_inv in H as (w5 & [] & _ & H).
    apply bind_Ok_inv in H as (w6 & isValid & H6 & _).
    by rewrite verifyFill_config_error in H6.
  - left.
    apply bind_Thrown_inv in H as [H|(w1 & [] & H1 & H)].
    { exfalso.
      match type of H with ?m _ = _ =>
        assert (never_throws m) as Hnt
          by (apply never_throws_when; simpl; apply never_throws_ret)
      end.
      apply (Hnt w e). by rewrite H. }
    assert (evolves w w1) as E1.
    { eapply respects_run; [|exact H1]. respects_auto. }
    apply bind_Thrown_inv in H as [H|(w2 & [] & _ & H)].
    { exfalso. destruct (cfg_fillAction config) as [cb|] eqn:Hcb; [|done].
      unfold call_fillAction in H.
      pose proof (await_outcome (CallFillAction cb l v) r_fillAction w1) as Ho.
      rewrite H, (evolves_sched _ _ E1), Hfill in Ho by done. done. }
    apply bind_Thrown_inv in H as [H|(w3 & [] & _ & H)]; [done|].
    apply bind_Thrown_inv in H as [H|(w4 & [] & _ & H)].
    { exfalso. eapply never_throws_waitForQuiescence. by erewrite H. }
    apply bind_Thrown_inv in H as [H|(w5 & [] & _ & H)]; [done|].
    apply bind_Thrown_inv in H as [H|(w6 & isValid & H6 & _)].
    + rewrite verifyFill_config_error in H by done. by simplify_eq.
    + by rewrite verifyFill_config_error in H6.
Qed.

(** So a pass of the loop for such a value ends with the configuration
    error's message as last error: the [catch] clause takes the error. *)
Lemma attempt_body_config_error fuel l v config attempt w w' o :
  typeof_string v = false →
  cfg_verifyAction config = None →
  (is_Some (cfg_fillAction config) → ∀ n, r_fillAction (sched w n) = Fulfilled tt) →
  attempt_body fuel l v config attempt w = (w', o) →
  o = Ok (Continue needVerifyAction) ∨ o = Stuck.
Proof.
  intros Hv Hva Hfill. unfold attempt_body, try_catch.
  rewrite (bind_run new_cell _ w (set_cells (λ cs, cs ++ [0]) w) (length (cells w)))
    by done.
  set (w1 := set_cells (λ cs, cs ++ [0]) w). set (c := length (cells w)).
  assert (∀ w2 o2, attempt_tracked fuel l v config attempt c w1 = (w2, o2) →
                   o2 = Thrown needVerifyAction ∨ o2 = Stuck) as Htracked.
  { intros w2 o2 Hrun. unfold attempt_tracked, bind in Hrun.
    pose proof (attempt_register_Ok config c w1) as Hr.
    pose proof (attempt_register_position config c w1) as [Hs _].
    destruct (attempt_register config c w1) as [w3 o3]. simpl in *. subst o3.
    unfold try_finally in Hrun.
    destruct (attempt_try fuel l v config attempt c w3) as [w4 o4] eqn:Htry.
    eapply attempt_try_config_error in Htry; [|done|done|by rewrite Hs].
    destruct Htry as [-> | ->]; [|simplify_eq; by right].
    destruct (attempt_finally_runs config c w4) as (w5 & Hfin & _).
    rewrite Hfin in Hrun. simplify_eq. by left. }
  unfold bind at 1.
  destruct (attempt_tracked fuel l v config attempt c w1) as [w2 o2] eqn:Hrun.
  destruct (Htracked w2 o2 eq_refl) as [-> | ->]; [|intros; simplify_eq; by right].
  simpl. intros H.
  destruct (runs_Ok (retry_pause config attempt) w2) as (w3 & [] & H3);
    [apply retry_pause_never_throws|apply retry_pause_never_stuck|].
  rewrite (bind_run _ _ _ _ _ H3) in H. unfold ret in H. simplify_eq. by left.
Qed.

Lemma attempts_loop_config_error n fuel l v config attempt le w w' e :
  typeof_string v = false →
  cfg_verifyAction config = None →
  (is_Some (cfg_fillAction config) → ∀ n, r_fillAction (sched w n) = Fulfilled tt) →
  attempts_loop n fuel l v config attempt le w = (w', Ok (Continue e)) →
  e = le ∨ e = needVerifyAction.
Proof.
  intros Hv Hva. revert attempt le w. induction n as [|n IH]; intros attempt le w Hfill; simpl.
  - unfold ret. intros; simplify_eq. by left.
  - destruct (attempt <=? cfg_maxRetries config + 1); [|unfold ret; intros; simplify_eq; by left].
    intros H. apply bind_Ok_inv in H as (w1 & step & H1 & H).
    destruct step as [r'|le']; [unfold ret in H; simplify_eq|].
    assert (sched w1 = sched w) as Hs.
    { apply evolves_sched. eapply respects_run; [apply attempt_body_evolves|exact H1]. }
    apply attempt_body_config_error in H1 as [?|?]; [|done..]. simplify_eq.
    apply IH in H as [->| ->]; [by right|by right|].
    intros Hcb k. rewrite Hs. by apply Hfill.
Qed.

Lemma attempts_loop_config_error_last n fuel l v config attempt le w w' e :
  typeof_string v = false →
  cfg_verifyAction config = None →
  (is_Some (cfg_fillAction config) → ∀ n, r_fillAction (sched w n) = Fulfilled tt) →
  (0 < n)%nat → attempt ≤ cfg_maxRetries config + 1 →
  attempts_loop n fuel l v config attempt le w = (w', Ok (Continue e)) →
  e = needVerifyAction.
Proof.
  intros Hv Hva Hfill Hn Ha. destruct n as [|n]; [lia|]. simpl.
  destruct (Z.leb_spec attempt (cfg_maxRetries config + 1)) as [_|?]; [|lia].
  intros Hl. apply bind_Ok_inv in Hl as (w1 & step & H1 & Hl).
  destruct step as [r'|le']; [unfold ret in Hl; simplify_eq|].
  assert (sched w1 = sched w) as Hs.
  { apply evolves_sched. eapply respects_run; [apply attempt_body_evolves|exact H1]. }
  apply attempt_body_config_error in H1 as [?|?]; [|done..]. simplify_eq.
  apply attempts_loop_config_error in Hl as [->| ->]; [done..|].
  intros Hcb k. rewrite Hs. by apply Hfill.
Qed.

(** With a fill action that fulfils, the loop for such a value throws
    nothing. *)
Lemma attempts_loop_config_error_caught n fuel l v config attempt le w e :
  typeof_string v = false →
  cfg_verifyAction config = None →
  (is_Some (cfg_fillAction config) → ∀ n, r_fillAction (sched w n) = Fulfilled tt) →
  (attempts_loop n fuel l v config attempt le w).2 ≠ Thrown e.
Proof.
  intros Hv Hva. revert attempt le w.
  induction n as [|n IH]; intros attempt le w Hfill; simpl; [done|].
  destruct (attempt <=? cfg_maxRetries config + 1); [|done].
  unfold bind.
  pose proof (attempt_body_evolves fuel l v config attempt w) as Hev.
  destruct (attempt_body fuel l v config attempt w) as [w1 o1] eqn:H1.
  apply attempt_body_config_error in H1 as [-> | ->]; [|done..].
  apply IH. intros Hcb k. simpl in Hev. rewrite (evolves_sched _ _ Hev). by apply Hfill.
Qed.

(** C1, as the code has it.  A value that is not a string, given without
    a [verifyAction], does not make [fillWithRetry] raise.  When the fill
    action, if there is one, fulfils, the configuration error thrown by
    [verifyFill] is caught by the [catch] clause of the attempt like any
    other error: the call returns a result with [success = false] and
    [attempts = maxRetries + 1], and when [maxRetries >= 0] it has slept
    [retryDelay] at least [maxRetries] times on the way and the result
    carries the configuration error's message. *)
Theorem C1_configuration_error_is_caught_and_retried
    fuel l v o (w : World) :
  typeof_string v = false →
  verifyAction o = None →
  enough_fuel (mkConfig o) fuel →
  (is_Some (fillAction o) → ∀ n, r_fillAction (sched w n) = Fulfilled tt) →
  ∃ w' r,
    fillWithRetry fuel l v o w = (w', Ok r) ∧
    success r = false ∧
    attempts r = cfg_maxRetries (mkConfig o) + 1 ∧
    (0 ≤ cfg_maxRetries (mkConfig o) →
       (pauses (cfg_retryDelay (mkConfig o)) w + Z.to_nat (cfg_maxRetries (mkConfig o))
        ≤ pauses (cfg_retryDelay (mkConfig o)) w')%nat ∧
       error r = Some needVerifyAction).
Proof.
  intros Hv Hva Hfuel Hfill.
  destruct (fillWithRetry_returns_after fuel l v o w Hfuel) as (w' & r & Hrun).
  { intros e. by apply attempts_loop_config_error_caught. }
  exists w', r. split; [done|].
  pose proof Hrun as Hres.
  apply fillWithRetry_result in Hres as [((w1 & w2 & _ & Hver) & _)|(Hs & Ha & _)].
  { rewrite Hva, verifyFill_config_error in Hver by done. simplify_eq. }
  split; [done|]. split; [done|]. intros Hpos.
  unfold fillWithRetry in Hrun.
  apply bind_Ok_inv in Hrun as (w1 & step & Hloop & Hrun).
  destruct step as [r'|le].
  { apply attempts_loop_Return in Hloop as ((w2 & w3 & _ & Hver) & _).
    simpl in Hver. rewrite Hva, verifyFill_config_error in Hver by done. simplify_eq. }
  apply bind_Ok_inv in Hrun as (w2 & final & Hfin & Hrun). unfold ret in Hrun.
  simplify_eq. split.
  - assert (evolves w1 w') as E.
    { eapply respects_run; [|exact Hfin]. unfold inputValue. respects_auto. }
    pose proof (evolves_pauses (cfg_retryDelay (mkConfig o)) _ _ E).
    apply attempts_loop_pauses in Hloop; lia.
  - simpl. apply attempts_loop_config_error_last in Hloop as ->; [done..|lia|lia].
Qed.

Lemma C1_witness :
  ∃ w' r,
    fillWithRetry 61 0%nat (VBool true) no_options (world0 (quiet calm)) = (w', Ok r) ∧
    success r = false ∧
    attempts r = cfg_maxRetries (mkConfig no_options) + 1 ∧
    (0 ≤ cfg_maxRetries (mkConfig no_options) →
       (pauses (cfg_retryDelay (mkConfig no_options)) (world0 (quiet calm))
        + Z.to_nat (cfg_maxRetries (mkConfig no_options))
        ≤ pauses (cfg_retryDelay (mkConfig no_options)) w')%nat ∧
       error r = Some needVerifyAction).
Proof.
  apply (C1_configuration_error_is_caught_and_retried 61 0%nat (VBool true) no_options
           (world0 (quiet calm))).
  - reflexivity.
  - reflexivity.
  - unfold enough_fuel. vm_compute. lia.
  - intros _ n. reflexivity.
Defined.

(** C1 as stated fails: [fillWithRetry(locator, true)] with default options
    on a page where nothing else happens does not raise the configuration
    error.  It makes all four attempts, sleeps the retry delay of 500 ms
    three times, and returns a failure result that carries the error's
    message. *)
Lemma C1_counterexample :
  let run := fillWithRetry 0 0%nat (VBool true) no_options (world0 (quiet calm)) in
  run.2 = Ok {| success := false; attempts := 4; finalValue := VStr "";
                error := Some needVerifyAction |} ∧
  (∀ e, run.2 ≠ Thrown e) ∧
  pauses 500 run.1 = 3%nat.
Proof. vm_compute. split; [reflexivity|]. split; [intros e; discriminate|reflexivity]. Qed.

(** *** The batch *)

(** When nothing that reaches a [catch] clause is [undefined] or [null],
    the batch returns one result per field, in order. *)
Lemma fillMultiple_loop_sequenced fuel fields g acc w :
  Forall (λ f, enough_fuel (mkConfig (spread g (options f))) fuel ∧
               catchable (locator f) (value f)
                 (verifyAction (spread g (options f))) (sched w)) fields →
  ∃ w' rs, fillMultiple_loop fuel fields g acc w = (w', Ok (acc ++ rs)) ∧
           length rs = length fields ∧ Sequenced fuel g w fields w' rs.
Proof.
  revert acc w. induction fields as [|field fields IH]; intros acc w Hfuel; simpl.
  - exists w, []. rewrite app_nil_r. repeat split. constructor.
  - apply Forall_cons in Hfuel as [[Hf Hc] Hfuel].
    destruct (fillWithRetry_returns fuel (locator field) (value field)
                (spread g (options field)) w Hf Hc) as (w1 & r & Hrun).
    assert (sched w1 = sched w) as Hs.
    { apply evolves_sched. eapply respects_run; [apply fillWithRetry_evolves|exact Hrun]. }
    destruct (IH (acc ++ [r]) w1) as (w' & rs & Hloop & Hlen & Hseq);
      [by rewrite Hs|].
    exists w', (r :: rs). unfold bind. rewrite Hrun, Hloop.
    rewrite <- app_assoc. simpl. repeat split; [by rewrite Hlen|].
    by econstructor.
Qed.

(** The spec's scenario: the second of three fields exhausts its retries;
    the batch returns three results, the first and the third successful. *)
Example fillMultiple_middle_field_fails :
  match (fillMultiple 0 three_fields one_retry (world0 (quiet calm))).2 with
  | Ok results => Some (success <$> results, attempts <$> results)
  | _ => None
  end = Some ([true; false; true], [1; 2; 1]).
Proof. vm_compute. reflexivity. Qed.

(** C8 fails on the code.  On a batch of three fields whose second field
    has a fill action that is rejected with [undefined], the [catch]
    clause of [fillWithRetry] throws a [TypeError] while it reads
    [error.message]; nothing catches it, so [fillMultiple] throws it too:
    no result is returned, and the third field is not touched, since no
    driver call is made on its locator.  On its own the first field is
    filled with success, and so is the third. *)
Theorem C8_fillMultiple_aborts_on_undefined_rejection :
  let run := fillMultiple 0 rejecting_fields no_options (world0 (quiet rude)) in
  run.2 = Thrown (Js.cannot_read_message "undefined") ∧
  (∀ results, run.2 ≠ Ok results) ∧
  filter (λ c, c = CallInputValue 3%nat) (calls run.1) = [] ∧
  (∀ f, f ∈ [ {| locator := 1%nat; value := VStr ""; options := no_options |};
              {| locator := 3%nat; value := VStr ""; options := no_options |} ] →
        ∃ w' r, fillWithRetry 0 (locator f) (value f) (options f)
                  (world0 (quiet rude)) = (w', Ok r) ∧ success r = true).
Proof.
  split; [by vm_compute|]. split; [intros results; by vm_compute|].
  split; [by vm_compute|].
  intros f [->|[->|[]%elem_of_nil]%elem_of_cons]%elem_of_cons;
    eexists _, _; (split; [vm_compute; reflexivity|reflexivity]).
Qed.

(** *** The quiescence wait and the sign of the counter *)

(** C10. Inside an attempt that tracks requests (the listeners of the
    counter in cell [c] are registered, after the registrations [l] of
    other code):
    - every [EvRequestFinished] and every [EvRequestFailed] event takes one off
      the counter and every [request] event adds one, whatever the counter
      holds, so a request that began before the listeners were registered
      and ends during the attempt drives the counter below zero;
    - the quiescence wait does nothing (no sleep, no change of the world)
      when the counter is not positive after the post-action sleep, or when
      requests are not tracked;
    - the polling loop returns at once, without sleeping, whenever it finds
      the counter not positive, and when it has returned the counter is not
      positive or the deadline has passed;
    - on a page where the first sleep of the attempt (the post-action
      sleep) sees one request finish that was never seen to start, the
      counter is -1, no polling sleep of 50 ms is made (there is no fuel
      for one), and the attempt verifies and succeeds. *)
Theorem C10_quiescence_wait_only_on_positive_counter
    fuel config c l (w : World) :
  listeners w = tracking c l →
  Forall (λ reg, ¬ tracks c reg.2) l →
  (c < length (cells w))%nat →
  read_cell c (emit EvRequestFinished w) = read_cell c w - 1 ∧
  read_cell c (emit EvRequestFailed w) = read_cell c w - 1 ∧
  read_cell c (emit EvRequest w) = read_cell c w + 1 ∧
  (read_cell c w ≤ 0 → waitForQuiescence fuel config c w = (w, Ok tt)) ∧
  (cfg_waitForRequests config = false →
   waitForQuiescence fuel config c w = (w, Ok tt)) ∧
  (∀ start w1, read_cell c w1 ≤ 0 →
     quiescence_loop fuel config c start w1 = (w1, Ok tt)) ∧
  (∀ start w1 w2, quiescence_loop fuel config c start w1 = (w2, Ok tt) →
     read_cell c w2 ≤ 0 ∨ cfg_requestTimeout config < now w2 - start) ∧
  (let run := fillWithRetry 0 0%nat (VStr "") no_options
                (world0 (starting_with late_finish)) in
   read_cell 0 run.1 = -1 ∧ pauses 50 run.1 = 0%nat ∧
   ∃ r, run.2 = Ok r ∧ success r = true ∧ attempts r = 1).
Proof.
  intros Hl Hun Hc.
  split; [by rewrite (emit_tracking _ c l)|].
  split; [by rewrite (emit_tracking _ c l)|].
  split; [by rewrite (emit_tracking _ c l)|].
  split; [apply waitForQuiescence_quiet|].
  split; [by intros Hoff; unfold waitForQuiescence; rewrite Hoff|].
  split; [intros start w1; apply quiescence_loop_quiet|].
  split; [intros start w1 w2; apply quiescence_loop_exit|].
  vm_compute. split; [reflexivity|]. split; [reflexivity|]. eexists. by repeat split.
Qed.

Lemma C10_witness :
  read_cell 0 (emit EvRequestFinished tracking_world) = read_cell 0 tracking_world - 1 ∧
  read_cell 0 (emit EvRequestFinished (emit EvRequestFinished tracking_world)) = -2.
Proof.
  destruct (C10_quiescence_wait_only_on_positive_counter 0 (mkConfig no_options) 0 []
              tracking_world) as (H1 & _).
  - reflexivity.
  - apply Forall_nil_2.
  - simpl. lia.
  - split; [exact H1|]. vm_compute. reflexivity.
Defined.

End FormFillFacts.
(** ** Facts about the capture correlator *)

Module CaptureFacts.
Import Capture.

(** *** The pattern matcher *)

Lemma url_matches_regexp r u :
  url_matches (PatRegExp r) u = true ↔
  ∃ i, (i ≤ String.length u)%nat ∧ is_Some (Js.matcher r u i).
Proof.
  unfold url_matches. rewrite JsFacts.existsb_matcher.
  split; intros (i & Hi & Hm); exists i; (split; [lia|done]).
Qed.

Lemma matchesPattern_regexp r u :
  matchesPattern (PatRegExp r) u
  = ((Js.RegExp_test r u).1, PatRegExp (Js.RegExp_test r u).2).
Proof. simpl. by destruct (Js.RegExp_test r u). Qed.

(** When [matchesPattern] says yes, the pattern has a match in the URL,
    whatever the state of the [RegExp]. *)
Lemma matchesPattern_sound p u :
  (matchesPattern p u).1 = true → url_matches p u = true.
Proof.
  destruct p as [s|r]; [done|]. rewrite matchesPattern_regexp. simpl.
  unfold Js.RegExp_test.
  destruct (decide _) as [|Hlen]; [done|].
  destruct (Js.exec_from _ _ _ _) as [e|] eqn:He; [|done]. intros _.
  apply JsFacts.exec_from_Some in He as (j & Hj & Hm).
  apply (url_matches_regexp r u). exists j. split; [lia|by rewrite Hm].
Qed.

(** A test changes at most the [lastIndex] of the pattern. *)
Lemma RegExp_test_fields r u :
  Js.matcher (Js.RegExp_test r u).2 = Js.matcher r ∧
  Js.global (Js.RegExp_test r u).2 = Js.global r ∧
  Js.sticky (Js.RegExp_test r u).2 = Js.sticky r.
Proof.
  unfold Js.RegExp_test.
  destruct (Js.global r || Js.sticky r); destruct (decide _);
    try destruct (Js.exec_from _ _ _ _); done.
Qed.

Lemma url_matches_after p u u' :
  url_matches (matchesPattern p u).2 u' = url_matches p u'.
Proof.
  destruct p as [s|r]; [done|]. rewrite matchesPattern_regexp. simpl.
  by destruct (RegExp_test_fields r u) as (-> & _).
Qed.

Lemma stateless_after p u : stateless (matchesPattern p u).2 = stateless p.
Proof.
  destruct p as [s|r]; [done|]. rewrite matchesPattern_regexp. simpl.
  by destruct (RegExp_test_fields r u) as (_ & -> & ->).
Qed.

Lemma matchesPattern_stateless p u :
  stateless p = true → matchesPattern p u = (url_matches p u, p).
Proof.
  destruct p as [s|r]; [done|]. intros Hfl. rewrite matchesPattern_regexp.
  simpl in Hfl. apply negb_true_iff in Hfl. unfold Js.RegExp_test. rewrite Hfl.
  apply orb_false_iff in Hfl as [_ Hst].
  destruct (decide _) as [|_]; [lia|]. rewrite Nat.sub_0_r.
  destruct (Js.exec_from r u (String.length u) 0) as [e|] eqn:He.
  - apply JsFacts.exec_from_Some in He as (j & Hj & Hm).
    assert (url_matches (PatRegExp r) u = true) as Hu; [|by rewrite Hu].
    apply url_matches_regexp. exists j. split; [lia|by rewrite Hm].
  - pose proof (JsFacts.exec_from_None r u _ _ Hst He) as Hnone.
    assert (url_matches (PatRegExp r) u = false) as Hu; [|by rewrite Hu].
    apply not_true_iff_false. intros (j & Hj & Hm)%url_matches_regexp.
    rewrite Hnone in Hm by lia. by destruct Hm.
Qed.

(** C3, as the code has it.  For a substring pattern, and for a regular
    expression without the [g] and [y] flags, the match is a pure function
    of the pattern and the URL: it leaves the pattern as it was, so that
    evaluating it again on the same URL gives the same answer; a substring
    pattern matches exactly when the URL contains the substring, and such a
    regular expression exactly when the compiled pattern succeeds at some
    position of the URL. *)
Theorem C3_stateless_patterns_match_purely (p : UrlPattern) (u : string) :
  stateless p = true →
  matchesPattern p u = (url_matches p u, p) ∧
  (matchesPattern (matchesPattern p u).2 u).1 = (matchesPattern p u).1 ∧
  match p with
  | PatString s =>
      (matchesPattern p u).1 = true ↔ ∃ pre post, u = pre +:+ s +:+ post
  | PatRegExp r =>
      (matchesPattern p u).1 = true ↔
      ∃ i, (i ≤ String.length u)%nat ∧ is_Some (Js.matcher r u i)
  end.
Proof.
  intros Hst. rewrite !(matchesPattern_stateless p u Hst). simpl.
  rewrite (matchesPattern_stateless p u Hst). simpl.
  split; [done|]. split; [done|].
  destruct p as [s|r].
  - apply JsFacts.includes_spec.
  - apply url_matches_regexp.
Qed.

Lemma C3_witness :
  matchesPattern (PatString "/api") "http://h/api/users"
  = (url_matches (PatString "/api") "http://h/api/users", PatString "/api").
Proof.
  apply (C3_stateless_patterns_match_purely (PatString "/api") "http://h/api/users").
  reflexivity.
Defined.

(** C3 as stated fails for a regular expression with the [g] flag: the
    first evaluation of [/api/g] on a URL that contains [api] answers
    [true] and leaves [lastIndex] behind the match, and the second
    evaluation of the same object on the same URL answers [false]. *)
Lemma C3_counterexample :
  let u := "http://h/api/users" in
  let first := matchesPattern (PatRegExp api_g) u in
  let second := matchesPattern first.2 u in
  first.1 = true ∧ second.1 = false ∧ url_matches (PatRegExp api_g) u = true.
Proof. vm_compute. done. Qed.

Section correlator.
Context {Json : Type}.
Variable JSON_parse : string → option (Data Json).
Variable URL_searchParams : string → option (list (string * string)).

Local Abbreviation World := (World Json).
Local Abbreviation CapturedHttpData := (CapturedHttpData Json).
Local Abbreviation on_response := (on_response JSON_parse URL_searchParams).
Local Abbreviation resume := (resume JSON_parse).
Local Abbreviation call_handler := (call_handler JSON_parse URL_searchParams).
Local Abbreviation emit := (emit JSON_parse URL_searchParams).
Local Abbreviation deliver := (deliver JSON_parse URL_searchParams).
Local Abbreviation deliver_all := (deliver_all JSON_parse URL_searchParams).
Local Abbreviation suspend := (suspend JSON_parse URL_searchParams).
Local Abbreviation wait_loop := (wait_loop JSON_parse URL_searchParams).
Local Abbreviation waitForNextCapture := (waitForNextCapture JSON_parse URL_searchParams).
Local Abbreviation run_op := (run_op JSON_parse URL_searchParams).
Local Abbreviation run := (run JSON_parse URL_searchParams).
Local Abbreviation reachable := (reachable JSON_parse URL_searchParams).
Local Abbreviation pair_of := (pair_of JSON_parse URL_searchParams).
Local Abbreviation prompt := (prompt JSON_parse URL_searchParams).
Local Abbreviation silent := (@silent Json).
Local Abbreviation frame := (@frame Json).
Local Abbreviation quiet := (@quiet Json).
Local Abbreviation grows := (@grows Json).
Local Abbreviation wf := (@wf Json).
Local Abbreviation unmatched := (@unmatched Json).
Local Abbreviation prompt_schedule := (prompt_schedule JSON_parse URL_searchParams).

Implicit Types (w : World) (ev : PageEvent) (le : LoopEvent).

(** *** Waiting with a buffer that is not empty *)

(** C2. When the buffer holds at least one pair, [waitForNextCapture]
    returns the pair that was appended last, at once: the world is left
    exactly as it was, so no time passes, the schedule does not move and
    no event is delivered, that is, there is no polling sleep. *)
Theorem C2_wait_returns_latest_buffered_pair fuel timeout w :
  buffer w ≠ [] →
  ∃ older latest,
    buffer w = older ++ [latest] ∧
    waitForNextCapture fuel timeout w = (w, Ok latest).
Proof.
  intros Hne. destruct (exists_last Hne) as (older & latest & Hb).
  exists older, latest. split; [done|].
  unfold Capture.waitForNextCapture. by rewrite Hb, last_snoc.
Qed.

(** *** What the delivery of events leaves alone *)

#[local] Instance frame_preorder : PreOrder frame.
Proof.
  split.
  - intros w. by repeat split.
  - intros w1 w2 w3 (?&?&?&?&?&?&?&?&H8) (?&?&?&?&?&?&?&?&H8').
    repeat split; try congruence; intros u; by rewrite H8', H8.
Qed.

Lemma frame_set_urlPattern w u :
  frame w (set_urlPattern (matchesPattern (urlPattern (this w)) u).2 w).
Proof.
  unfold frame, set_urlPattern. simpl.
  split_and!; try done; [apply stateless_after|intros u'; apply url_matches_after].
Qed.

Lemma frame_on_request g r w : frame w (on_request g r w).
Proof.
  unfold on_request.
  pose proof (frame_set_urlPattern w (req_url r)) as Hf.
  destruct (matchesPattern (urlPattern (this w)) (req_url r)) as [[] p]; simpl in *;
    [|done].
  etrans; [exact Hf|]. by repeat split.
Qed.

Lemma frame_on_response r w : frame w (on_response r w).
Proof.
  unfold Capture.on_response.
  pose proof (frame_set_urlPattern w (res_url r)) as Hf.
  destruct (matchesPattern (urlPattern (this w)) (res_url r)) as [[] p]; simpl in *;
    [|done].
  destruct (captureRequest _ _ _); [|done].
  etrans; [exact Hf|]. by repeat split.
Qed.

Lemma frame_resume k w : frame w (resume k w).
Proof.
  unfold Capture.resume. destruct (pending w !! k) as [[c r]|]; [|reflexivity].
  repeat split; simpl. by rewrite length_alter.
Qed.

Lemma frame_call_handler h ev w : frame w (call_handler h ev w).
Proof.
  destruct h, ev; simpl; try reflexivity;
    [apply frame_on_request|apply frame_on_response].
Qed.

Lemma frame_foldl {A} (f : World → A → World) (l : list A) w :
  (∀ w' a, frame w' (f w' a)) → frame w (foldl f w l).
Proof.
  intros Hf. revert w. induction l as [|a l IH]; intros w; simpl; [reflexivity|].
  etrans; [apply (Hf w a)|apply IH].
Qed.

Lemma frame_emit ev w : frame w (emit ev w).
Proof.
  unfold Capture.emit. apply frame_foldl. intros w' [e h].
  destruct (decide _); [apply frame_call_handler|reflexivity].
Qed.

Lemma frame_deliver le w : frame w (deliver le w).
Proof. destruct le; [apply frame_emit|apply frame_resume]. Qed.

Lemma frame_deliver_all les w : frame w (deliver_all les w).
Proof. apply frame_foldl. intros w' le. apply frame_deliver. Qed.

Lemma frame_suspend ms w : frame w (suspend ms w).
Proof.
  unfold Capture.suspend.
  etrans; [|apply frame_deliver_all]. by repeat split.
Qed.

Lemma frame_wait_loop fuel timeout start w :
  frame w (wait_loop fuel timeout start w).1.
Proof.
  revert w. induction fuel as [|fuel IH]; intros w; simpl;
    repeat case_match; simpl; try reflexivity.
  etrans; [apply (frame_suspend 100)|apply IH].
Qed.

Lemma frame_waitForNextCapture fuel timeout w :
  frame w (waitForNextCapture fuel timeout w).1.
Proof.
  unfold Capture.waitForNextCapture. case_match; [reflexivity|].
  apply frame_wait_loop.
Qed.

(** *** The invariant of the listener registry *)

Lemma wf_frame w w' : frame w w' → wf w → wf w'.
Proof.
  intros (Hl & _ & Hc & Hq & Hp & Hi & Ha & _) [Hlt Hreg].
  unfold wf. rewrite Hl, Hc, Hq, Hp, Hi, Ha. done.
Qed.

Lemma wf_create p t0 s ids :
  wf (create p t0 s ((λ reg, (reg.1, Foreign reg.2)) <$> ids)).
Proof.
  split; [simpl; lia|]. simpl.
  induction ids as [|[e i] ids IH]; [done|]. rewrite fmap_cons.
  rewrite filter_cons_False; [done|]. by intros [].
Qed.

Lemma wf_startCapture w : wf w → wf (startCapture w).
Proof.
  intros [Hlt Hreg]. unfold startCapture.
  destruct (isCapturing (this w)) eqn:Hcap; [split; [done|by rewrite Hcap]|].
  split; simpl; [rewrite length_app; simpl; lia|].
  exists (length (requestMaps w)). split; [done|]. split; [done|].
  unfold Emitter.on. rewrite !filter_app, Hreg.
  by rewrite !filter_cons_True by done.
Qed.

Lemma stopCapture_listeners w :
  wf w → isCapturing (this w) = true →
  filter own (listeners (stopCapture w)) = [] ∧
  filter (λ reg, ¬ own reg) (listeners (stopCapture w))
  = filter (λ reg, ¬ own reg) (listeners w).
Proof.
  intros [_ Hreg] Hcap. unfold stopCapture. rewrite Hcap in *. simpl.
  destruct Hreg as (g & -> & -> & Hreg). split.
  - rewrite !EmitterFacts.off_filter by done. rewrite Hreg.
    assert (Emitter.off EvRequest (RequestHandler g)
              [(EvRequest, RequestHandler g); (EvResponse, ResponseHandler g)]
            = [(EvResponse, ResponseHandler g)]) as ->.
    { apply (EmitterFacts.off_middle _ _ [] [(EvResponse, ResponseHandler g)]).
      rewrite list_elem_of_singleton. discriminate. }
    apply (EmitterFacts.off_middle _ _ [] []), not_elem_of_nil.
  - rewrite !EmitterFacts.off_filter_out; [done|by intros []..].
Qed.

Lemma wf_stopCapture w : wf w → wf (stopCapture w).
Proof.
  intros Hwf. destruct (isCapturing (this w)) eqn:Hcap.
  - destruct (stopCapture_listeners w Hwf Hcap) as [Hown _].
    destruct Hwf as [Hlt _]. unfold wf. rewrite Hown.
    unfold stopCapture. rewrite Hcap. simpl. done.
  - unfold stopCapture. by rewrite Hcap.
Qed.

Lemma wf_clear w : wf w → wf (clear w).
Proof.
  intros [Hlt Hreg]. split; simpl; [rewrite length_app; simpl; lia|done].
Qed.

Lemma wf_getAllCapturedData w : wf w → wf (getAllCapturedData w).1.
Proof.
  intros [Hlt Hreg]. split; simpl; [rewrite length_app; simpl; lia|done].
Qed.

Lemma wf_run_op op w : wf w → wf (run_op op w).
Proof.
  destruct op; simpl.
  - apply wf_startCapture.
  - apply wf_stopCapture.
  - apply wf_clear.
  - apply wf_getAllCapturedData.
  - apply wf_frame, frame_waitForNextCapture.
  - apply wf_frame, frame_suspend.
Qed.

Lemma reachable_wf w : reachable w → wf w.
Proof.
  induction 1 as [p t0 s ids|op w _ IH]; [apply wf_create|by apply wf_run_op].
Qed.

(** *** Which handlers an event reaches *)

Lemma foldl_filter_skip {A B} (P : B → Prop) `{!∀ x, Decision (P x)}
    (f : A → B → A) (l : list B) (a : A) :
  (∀ a x, ¬ P x → f a x = a) → foldl f a l = foldl f a (filter P l).
Proof.
  intros Hskip. revert a. induction l as [|x l IH]; intros a; [done|].
  rewrite filter_cons. destruct (decide (P x)) as [HP|HP]; simpl.
  - apply IH.
  - rewrite (Hskip a x HP). apply IH.
Qed.

Lemma emit_own ev w :
  emit ev w
  = foldl (λ w' '(e, h), if decide (e = event_name ev) then call_handler h ev w' else w')
      w (filter own (listeners w)).
Proof.
  unfold Capture.emit. apply (foldl_filter_skip own).
  intros w' [e h] Hown. destruct (decide _); [|done].
  destruct h; try (by destruct Hown). by destruct ev.
Qed.

(** A capture object that is not capturing hears nothing. *)
Lemma emit_idle ev w :
  wf w → isCapturing (this w) = false → emit ev w = w.
Proof.
  intros [_ Hreg] Hcap. rewrite Hcap in Hreg. by rewrite emit_own, Hreg.
Qed.

(** While it captures, each event reaches its handler once. *)
Lemma emit_capturing ev w :
  wf w → isCapturing (this w) = true →
  ∃ g, emit ev w = match ev with
                   | OnRequest r => on_request g r w
                   | OnResponse r => on_response r w
                   | _ => w
                   end.
Proof.
  intros [_ Hreg] Hcap. rewrite Hcap in Hreg. destruct Hreg as (g & _ & _ & Hreg).
  exists g. rewrite emit_own, Hreg. by destruct ev.
Qed.

(** *** Stopping *)

Lemma stopCapture_idle w : isCapturing (this w) = false → stopCapture w = w.
Proof. intros Hcap. unfold stopCapture. by rewrite Hcap. Qed.

Lemma stopCapture_not_capturing w : isCapturing (this (stopCapture w)) = false.
Proof. unfold stopCapture. by destruct (isCapturing (this w)) eqn:Hcap. Qed.

Lemma stopCapture_keeps w :
  arrays (stopCapture w) = arrays w ∧
  capturedData (this (stopCapture w)) = capturedData (this w) ∧
  pending (stopCapture w) = pending w.
Proof. unfold stopCapture. by destruct (isCapturing (this w)). Qed.

Lemma getAllCapturedData_reads w :
  arrays (getAllCapturedData w).1 !! (getAllCapturedData w).2 = Some (buffer w).
Proof. simpl. by rewrite lookup_app_r, Nat.sub_diag. Qed.

(** C7. [stopCapture] is idempotent; it takes both listeners of the
    capture object off the page and leaves the listeners of other code
    alone; it does not touch the buffer, which can still be read
    afterwards; and once it has returned, an event that the page emits,
    in particular a response whose URL matches the pattern, changes
    nothing: no entry is added to the buffer, and no handler is left
    waiting that could add one later. *)
Theorem C7_stopCapture_idempotent_keeps_buffer_and_silences w :
  reachable w →
  let w' := stopCapture w in
  stopCapture w' = w' ∧
  filter own (listeners w') = [] ∧
  filter (λ reg, ¬ own reg) (listeners w') = filter (λ reg, ¬ own reg) (listeners w) ∧
  arrays w' = arrays w ∧
  buffer w' = buffer w ∧
  arrays (getAllCapturedData w').1 !! (getAllCapturedData w').2 = Some (buffer w) ∧
  ∀ ev, emit ev w' = w' ∧
        buffer (emit ev w') = buffer w ∧ pending (emit ev w') = pending w.
Proof.
  intros Hreach w'. pose proof (reachable_wf w Hreach) as Hwf.
  pose proof (wf_stopCapture w Hwf) as Hwf'.
  pose proof (stopCapture_not_capturing w) as Hcap'.
  destruct (stopCapture_keeps w) as (Harr & Hcd & Hpend).
  assert (buffer w' = buffer w) as Hbuf.
  { unfold buffer. subst w'. by rewrite Harr, Hcd. }
  split; [by apply stopCapture_idle|].
  split; [|split].
  - destruct Hwf' as [_ Hreg]. subst w'. by rewrite Hcap' in Hreg.
  - destruct (isCapturing (this w)) eqn:Hcap.
    + by apply stopCapture_listeners.
    + subst w'. by rewrite stopCapture_idle.
  - split; [done|]. split; [done|].
    split; [by rewrite getAllCapturedData_reads, Hbuf|].
    intros ev. rewrite (emit_idle ev w') by done. done.
Qed.

(** *** Waiting while nothing matches *)

#[local] Instance quiet_preorder : PreOrder quiet.
Proof.
  split.
  - intros w. by split.
  - intros w1 w2 w3 (?&?&?) (?&?&?). split; [by etrans|]. split; congruence.
Qed.

Lemma quiet_on_request g r w : quiet w (on_request g r w).
Proof.
  split; [apply frame_on_request|]. unfold on_request.
  by destruct (matchesPattern _ _) as [[] p].
Qed.

Lemma quiet_on_response r w :
  url_matches (urlPattern (this w)) (res_url r) = false →
  quiet w (on_response r w).
Proof.
  intros Hno. split; [apply frame_on_response|]. unfold Capture.on_response.
  pose proof (matchesPattern_sound (urlPattern (this w)) (res_url r)) as Hs.
  destruct (matchesPattern _ _) as [[] p]; simpl in *; [|done].
  rewrite Hs in Hno; done.
Qed.

Lemma quiet_resume k w : pending w = [] → quiet w (resume k w).
Proof. intros Hp. unfold Capture.resume. rewrite Hp. simpl. reflexivity. Qed.

Lemma unmatched_frame w w' ev : frame w w' → unmatched w ev → unmatched w' ev.
Proof.
  intros (_&_&_&_&_&_&_&_&Hu). destruct ev; simpl; try done. by rewrite Hu.
Qed.

Lemma quiet_emit ev w : unmatched w ev → quiet w (emit ev w).
Proof.
  intros Hun. unfold Capture.emit. generalize (listeners w) as l.
  intros l. revert w Hun. induction l as [|[e h] l IH]; intros w Hun; simpl;
    [reflexivity|].
  assert (quiet w (if decide (e = event_name ev) then call_handler h ev w else w))
    as Hq.
  { destruct (decide _); [|reflexivity].
    destruct h, ev; simpl; try reflexivity;
      [apply quiet_on_request|by apply quiet_on_response]. }
  etrans; [exact Hq|]. apply IH. eapply unmatched_frame; [apply Hq|done].
Qed.

Lemma quiet_deliver_all les w :
  pending w = [] →
  (∀ r, Emit (OnResponse r) ∈ les →
        url_matches (urlPattern (this w)) (res_url r) = false) →
  quiet w (deliver_all les w).
Proof.
  revert w. induction les as [|le les IH]; intros w Hp Hno; [reflexivity|].
  change (deliver_all (le :: les) w) with (deliver_all les (deliver le w)).
  assert (quiet w (deliver le w)) as Hq.
  { destruct le as [ev|k]; simpl; [|by apply quiet_resume].
    apply quiet_emit. destruct ev; simpl; try done.
    apply Hno. by left. }
  etrans; [exact Hq|]. destruct Hq as ((_&_&_&_&_&_&_&_&Hu) & _ & Hp').
  apply IH; [congruence|]. intros r Hin. rewrite Hu. apply Hno. by right.
Qed.

Lemma suspend_now ms w :
  now (suspend ms w) = now w + Z.max 0 ms + Z.of_nat (elapsed (sched w (cursor w))) ∧
  cursor (suspend ms w) = S (cursor w).
Proof.
  unfold Capture.suspend.
  set (w0 := {| now := _ |}).
  assert (∀ les w1, now (deliver_all les w1) = now w1 ∧
                    cursor (deliver_all les w1) = cursor w1) as Hd.
  { induction les as [|le les IH]; intros w1; [done|].
    change (deliver_all (le :: les) w1) with (deliver_all les (deliver le w1)).
    destruct (IH (deliver le w1)) as [-> ->]. clear IH.
    destruct le as [ev|k]; simpl.
    - unfold Capture.emit. generalize (listeners w1) as l. intros l. revert w1.
      induction l as [|[e h] l IH]; intros w1; simpl; [done|].
      destruct (IH (if decide (e = event_name ev) then call_handler h ev w1 else w1))
        as [-> ->].
      destruct (decide _); [|done].
      destruct h, ev; simpl; try done.
      + unfold on_request. by destruct (matchesPattern _ _) as [[] p].
      + unfold Capture.on_response. destruct (matchesPattern _ _) as [[] p]; [|done].
        by destruct (captureRequest _ _ _).
    - unfold Capture.resume. by destruct (pending w1 !! k) as [[c r]|]. }
  destruct (Hd (events (sched w (cursor w))) w0) as [-> ->]. done.
Qed.

Lemma silent_quiet w w' : quiet w w' → silent w → silent w'.
Proof.
  intros ((_&Hs&_&_&_&_&_&_&Hu) & _) Hsil n r Hin.
  rewrite Hu. apply Hsil with n. by rewrite <- Hs.
Qed.

Lemma quiet_suspend ms w : pending w = [] → silent w → quiet w (suspend ms w).
Proof.
  intros Hp Hsil. unfold Capture.suspend.
  set (w0 := {| now := _ |}).
  assert (quiet w w0) as H0 by (by repeat split).
  etrans; [exact H0|]. apply quiet_deliver_all; [done|].
  intros r Hin. by apply (Hsil (cursor w)).
Qed.

Lemma quiet_buffer w w' : quiet w w' → buffer w' = buffer w.
Proof. intros ((_&_&Hc&_) & Ha & _). unfold buffer. by rewrite Ha, Hc. Qed.

(** With an empty buffer and nothing matching on the way, the polling
    loop ends in the timeout error, and not before the deadline. *)
Lemma wait_loop_times_out fuel timeout start w :
  buffer w = [] → pending w = [] → silent w →
  (Z.to_nat ((timeout - (now w - start) + 99) / 100) ≤ fuel)%nat →
  ∃ w', wait_loop fuel timeout start w = (w', Thrown (timeout_message timeout)) ∧
        timeout ≤ now w' - start ∧ quiet w w'.
Proof.
  revert w. induction fuel as [|fuel IH]; intros w Hb Hp Hsil Hfuel; simpl.
  - destruct (Z.ltb_spec (now w - start) timeout) as [Hlt|Hge].
    + exfalso.
      assert (1 ≤ (timeout - (now w - start) + 99) / 100)
        by (apply Z.div_le_lower_bound; lia).
      lia.
    + exists w. split; [done|]. split; [lia|reflexivity].
  - destruct (Z.ltb_spec (now w - start) timeout) as [Hlt|Hge].
    + rewrite Hb. simpl.
      pose proof (quiet_suspend 100 w Hp Hsil) as Hq.
      destruct (suspend_now 100 w) as [Hnow _].
      destruct (IH (suspend 100 w)) as (w' & Hrun & Hdl & Hq').
      * by rewrite (quiet_buffer _ _ Hq).
      * destruct Hq as (_ & _ & ->). done.
      * by eapply silent_quiet.
      * assert ((timeout - (now (suspend 100 w) - start) + 99) / 100
                ≤ (timeout - (now w - start) + 99 + (-1) * 100) / 100)
          by (apply Z.div_le_mono; lia).
        rewrite Z.div_add in H by lia.
        assert (1 ≤ (timeout - (now w - start) + 99) / 100)
          by (apply Z.div_le_lower_bound; lia).
        lia.
      * exists w'. split; [done|]. split; [done|]. by etrans.
    + exists w. split; [done|]. split; [lia|reflexivity].
Qed.

Lemma quiet_wait_loop fuel timeout start w :
  pending w = [] → silent w → quiet w (wait_loop fuel timeout start w).1.
Proof.
  revert w. induction fuel as [|fuel IH]; intros w Hp Hsil; simpl;
    repeat case_match; simpl; try reflexivity.
  pose proof (quiet_suspend 100 w Hp Hsil) as Hq.
  etrans; [exact Hq|]. apply IH; [|by eapply silent_quiet].
  destruct Hq as (_ & _ & ->). done.
Qed.

Lemma quiet_waitForNextCapture fuel timeout w :
  pending w = [] → silent w → quiet w (waitForNextCapture fuel timeout w).1.
Proof.
  intros Hp Hsil. unfold Capture.waitForNextCapture. case_match; [reflexivity|].
  by apply quiet_wait_loop.
Qed.

(** No step of a test changes the schedule or what the pattern
    matches. *)
Lemma run_op_silent op w : silent (run_op op w) ↔ silent w.
Proof.
  assert (sched (run_op op w) = sched w ∧
          ∀ u, url_matches (urlPattern (this (run_op op w))) u
               = url_matches (urlPattern (this w)) u) as [Hs Hu].
  { destruct op; simpl.
    - unfold startCapture. by destruct (isCapturing (this w)).
    - unfold stopCapture. by destruct (isCapturing (this w)).
    - done.
    - done.
    - by destruct (frame_waitForNextCapture fuel timeout w) as (_&?&_&_&_&_&_&_&?).
    - by destruct (frame_suspend ms w) as (_&?&_&_&_&_&_&_&?). }
  unfold Capture.silent. rewrite Hs. by setoid_rewrite Hu.
Qed.

Lemma buffer_fresh_array w (a : list CapturedHttpData) :
  default [] ((arrays w ++ [a]) !! length (arrays w)) = a.
Proof. by rewrite lookup_app_r, Nat.sub_diag. Qed.

(** A capture object that never meets a matching response has an empty
    buffer and no suspended handler. *)
Lemma reachable_silent_empty w :
  reachable w → silent w → buffer w = [] ∧ pending w = [].
Proof.
  induction 1 as [p t0 s ids|op w Hreach IH]; [done|].
  intros Hsil. pose proof (proj1 (run_op_silent op w) Hsil) as Hsil0.
  destruct (IH Hsil0) as [Hb Hp]. pose proof (reachable_wf w Hreach) as [Hlt _].
  destruct op; simpl.
  - unfold startCapture. destruct (isCapturing (this w)); [done|].
    unfold buffer. simpl. by rewrite buffer_fresh_array.
  - destruct (stopCapture_keeps w) as (Ha & Hc & ->).
    unfold buffer in *. by rewrite Ha, Hc.
  - unfold buffer. simpl. by rewrite buffer_fresh_array.
  - unfold buffer in *. simpl. by rewrite lookup_app_l.
  - pose proof (quiet_waitForNextCapture fuel timeout w Hp Hsil0) as Hq.
    rewrite (quiet_buffer _ _ Hq). by destruct Hq as (_ & _ & ->).
  - pose proof (quiet_suspend ms w Hp Hsil0) as Hq.
    rewrite (quiet_buffer _ _ Hq). by destruct Hq as (_ & _ & ->).
Qed.

(** C5. On a capture object that no matching response ever reaches (in
    any step of the test so far, or while waiting),
    [waitForNextCapture(timeout)] ends with the timeout error, and the
    clock reads at least [timeout] milliseconds more when it does than
    when the call began.  The number of polling sleeps is at most
    [timeout / 100], rounded up. *)
Theorem C5_wait_times_out_not_before_deadline fuel timeout w :
  reachable w →
  silent w →
  (Z.to_nat ((default 30000 timeout + 99) / 100)%Z ≤ fuel)%nat →
  ∃ w',
    waitForNextCapture fuel timeout w
    = (w', Thrown (timeout_message (default 30000 timeout))) ∧
    default 30000 timeout ≤ now w' - now w.
Proof.
  intros Hreach Hsil Hfuel.
  destruct (reachable_silent_empty w Hreach Hsil) as [Hb Hp].
  unfold Capture.waitForNextCapture. rewrite Hb. simpl.
  destruct (wait_loop_times_out fuel (default 30000 timeout) (now w) w)
    as (w' & Hrun & Hdl & _); [done..| |by exists w'].
  by replace (now w - now w) with 0 by lia; rewrite Z.sub_0_r.
Qed.

(** *** The buffer only grows, and only in its own array *)

#[local] Instance grows_preorder : PreOrder grows.
Proof.
  split.
  - intros w. by split.
  - intros w1 w2 w3 (Hf&Hb&Ha) (Hf'&Hb'&Ha'). split; [by etrans|].
    split; [by etrans|]. intros a Hne. rewrite Ha', Ha; [done..|].
    by destruct Hf as (_&_&->&_).
Qed.

Lemma grows_same w w' :
  frame w w' → arrays w' = arrays w → grows w w'.
Proof.
  intros Hf Ha. split; [done|]. split; [|by rewrite Ha].
  unfold buffer. destruct Hf as (_&_&->&_). by rewrite Ha.
Qed.

Lemma grows_on_request g r w : grows w (on_request g r w).
Proof. by destruct (quiet_on_request g r w) as (? & ? & _); apply grows_same. Qed.

Lemma grows_on_response r w : grows w (on_response r w).
Proof.
  apply grows_same; [apply frame_on_response|]. unfold Capture.on_response.
  destruct (matchesPattern _ _) as [[] p]; [|done]. by destruct (captureRequest _ _ _).
Qed.

Lemma resume_buffer k w c r :
  pending w !! k = Some (c, r) →
  (capturedData (this w) < length (arrays w))%nat →
  buffer (resume k w)
  = buffer w ++ [{| request := c; response := captureResponse JSON_parse r |}].
Proof.
  intros Hk Hlt. unfold Capture.resume. rewrite Hk. unfold buffer. simpl.
  destruct (lookup_lt_is_Some_2 _ _ Hlt) as [b Hb].
  by rewrite list_lookup_alter_eq, Hb.
Qed.

Lemma grows_resume k w : grows w (resume k w).
Proof.
  split; [apply frame_resume|]. unfold Capture.resume.
  destruct (pending w !! k) as [[c r]|] eqn:Hk; [|done]. split.
  - unfold buffer. simpl. rewrite list_lookup_alter_eq.
    destruct (arrays w !! capturedData (this w)); simpl; [by apply prefix_app_r|done].
  - intros a Hne. simpl. by rewrite list_lookup_alter_ne.
Qed.

Lemma grows_deliver le w : grows w (deliver le w).
Proof.
  destruct le as [ev|k]; simpl; [|apply grows_resume].
  unfold Capture.emit. generalize (listeners w) as l. intros l. revert w.
  induction l as [|[e h] l IH]; intros w; simpl; [reflexivity|].
  etrans; [|apply IH]. destruct (decide _); [|reflexivity].
  destruct h, ev; simpl; try reflexivity;
    [apply grows_on_request|apply grows_on_response].
Qed.

Lemma grows_deliver_all les w : grows w (deliver_all les w).
Proof.
  revert w. induction les as [|le les IH]; intros w; [reflexivity|].
  change (deliver_all (le :: les) w) with (deliver_all les (deliver le w)).
  etrans; [apply grows_deliver|apply IH].
Qed.

Lemma grows_suspend ms w : grows w (suspend ms w).
Proof.
  unfold Capture.suspend. etrans; [|apply grows_deliver_all].
  apply grows_same; [by repeat split|done].
Qed.

Lemma grows_wait_loop fuel timeout start w :
  grows w (wait_loop fuel timeout start w).1.
Proof.
  revert w. induction fuel as [|fuel IH]; intros w; simpl;
    repeat case_match; simpl; try reflexivity.
  etrans; [apply (grows_suspend 100)|apply IH].
Qed.

Lemma grows_waitForNextCapture fuel timeout w :
  grows w (waitForNextCapture fuel timeout w).1.
Proof.
  unfold Capture.waitForNextCapture. case_match; [reflexivity|].
  apply grows_wait_loop.
Qed.

Lemma getAllCapturedData_buffer w :
  wf w → buffer (getAllCapturedData w).1 = buffer w.
Proof. intros [Hlt _]. unfold buffer. simpl. by rewrite lookup_app_l. Qed.

Lemma prefix_run_op op w :
  wf w → passive op = true → buffer w `prefix_of` buffer (run_op op w).
Proof.
  intros Hwf Hop. destruct op; try done; cbn [Capture.run_op].
  - by rewrite getAllCapturedData_buffer.
  - apply grows_waitForNextCapture.
  - apply grows_suspend.
Qed.

Lemma wf_run ops w : wf w → wf (run ops w).
Proof.
  revert w. induction ops as [|op ops IH]; intros w Hwf; [done|].
  apply IH. by apply wf_run_op.
Qed.

Lemma prefix_run ops w :
  wf w → forallb passive ops = true → buffer w `prefix_of` buffer (run ops w).
Proof.
  revert w. induction ops as [|op ops IH]; intros w Hwf Hops; [done|].
  simpl in Hops. apply andb_true_iff in Hops as [Hop Hops].
  change (run (op :: ops) w) with (run ops (run_op op w)).
  etrans; [by apply prefix_run_op|]. apply IH; [by apply wf_run_op|done].
Qed.

(** The array that [getAllCapturedData] returns is new, holds a copy of
    the buffer, and stays as it is whatever is delivered later; the
    buffer itself is not touched. *)
Lemma getAllCapturedData_snapshot w :
  wf w →
  let w' := (getAllCapturedData w).1 in
  let a := (getAllCapturedData w).2 in
  arrays w !! a = None ∧
  a ≠ capturedData (this w) ∧
  arrays w' !! a = Some (buffer w) ∧
  buffer w' = buffer w ∧
  pending w' = pending w ∧
  ∀ les, arrays (deliver_all les w') !! a = Some (buffer w).
Proof.
  intros Hwf w' a. pose proof Hwf as [Hlt _].
  split; [by apply lookup_ge_None_2|].
  split; [subst a; simpl; lia|].
  split; [apply getAllCapturedData_reads|].
  split; [by apply getAllCapturedData_buffer|].
  split; [done|].
  intros les. destruct (grows_deliver_all les w') as (_ & _ & Ha).
  rewrite Ha; [apply getAllCapturedData_reads|]. subst a w'. simpl. lia.
Qed.

(** *** Captures that complete at once *)

Lemma set_urlPattern_id w : set_urlPattern (urlPattern (this w)) w = w.
Proof. by destruct w as [? ? ? ? ? ? [] ?]. Qed.

Lemma delivered_nil (s : nat → Tick) a : delivered s a a = [].
Proof. unfold delivered. by rewrite Nat.sub_diag. Qed.

Lemma delivered_one (s : nat → Tick) a : delivered s a (S a) = events (s a).
Proof.
  unfold delivered. replace (S a - a)%nat with 1%nat by lia. simpl.
  by rewrite app_nil_r.
Qed.

Lemma delivered_app (s : nat → Tick) a b c :
  (a ≤ b)%nat → (b ≤ c)%nat →
  delivered s a c = delivered s a b ++ delivered s b c.
Proof.
  intros Hab Hbc. unfold delivered.
  replace (c - a)%nat with ((b - a) + (c - b))%nat by lia.
  rewrite seq_app, fmap_app, concat_app.
  by replace (a + (b - a))%nat with b by lia.
Qed.

Lemma matching_app p (l1 l2 : list LoopEvent) :
  matching p (l1 ++ l2) = matching p l1 ++ matching p l2.
Proof. apply omap_app. Qed.

Section prompt.
Variable p : UrlPattern.
Hypothesis Hp : stateless p = true.

Local Abbreviation steady := (@steady Json p).
Local Abbreviation caught := (caught JSON_parse URL_searchParams p).
Local Abbreviation tick_caught := (tick_caught JSON_parse URL_searchParams p).

Lemma caught_refl w : caught w w.
Proof.
  split; [done|]. split; [done|]. cbv zeta. rewrite delivered_nil. simpl.
  by rewrite app_nil_r.
Qed.

Lemma caught_trans w1 w2 w3 : caught w1 w2 → caught w2 w3 → caught w1 w3.
Proof.
  intros (Hs & Hc & Hb & Hl) (Hs' & Hc' & Hb' & Hl'). cbv zeta in *.
  split; [congruence|]. split; [lia|]. cbv zeta.
  rewrite (delivered_app _ _ (cursor w2)) by done.
  rewrite matching_app, omap_app, !length_app.
  rewrite Hs in Hb', Hl'. rewrite Hb', Hb, <- app_assoc. split; [done|lia].
Qed.

Lemma steady_frame w w' :
  frame w w' → pending w' = [] → urlPattern (this w') = p → steady w → steady w'.
Proof.
  intros Hf Hpend Hpat (Hwf & Hcap & _ & _). split; [by eapply wf_frame|].
  split; [|done]. by destruct Hf as (_&_&_&_&_&->&_).
Qed.

Lemma emit_steady_other ev w :
  steady w →
  match ev with OnResponse r => url_matches p (res_url r) = false | _ => True end →
  tick_caught [Emit ev] w (emit ev w).
Proof.
  intros Hst Hev. pose proof Hst as (Hwf & Hcap & Hpend & Hpat).
  destruct (emit_capturing ev w Hwf Hcap) as (g & Hemit).
  assert (matching p [Emit ev] = []) as Hm.
  { destruct ev; simpl; try done. by rewrite Hev. }
  unfold Capture.tick_caught. rewrite Hm. simpl. rewrite app_nil_r.
  assert (quiet w (emit ev w) ∧ urlPattern (this (emit ev w)) = p ∧
          cursor (emit ev w) = cursor w ∧ now (emit ev w) = now w) as (Hq & Hpat' & ? & ?).
  { rewrite Hemit. destruct ev as [r|r|r|r]; [| |by rewrite Hpat..].
    - split; [apply quiet_on_request|]. unfold on_request.
      rewrite Hpat, (matchesPattern_stateless p _ Hp), <- Hpat, set_urlPattern_id.
      by destruct (url_matches _ _).
    - split; [apply quiet_on_response; by rewrite Hpat|].
      unfold Capture.on_response.
      rewrite Hpat, (matchesPattern_stateless p _ Hp), Hev, <- Hpat, set_urlPattern_id.
      done. }
  split; [|split; [by destruct Hq as ((_&?&_)&_)|]].
  - eapply steady_frame; [apply Hq| |done..]. destruct Hq as (_&_&->). done.
  - split; [done|]. split; [done|]. split; [|done]. by apply quiet_buffer.
Qed.

Lemma emit_steady_match r c w :
  steady w →
  url_matches p (res_url r) = true →
  captureRequest JSON_parse URL_searchParams (res_request r) = Some c →
  tick_caught [Emit (OnResponse r); Resume 0] w (resume 0 (emit (OnResponse r) w)).
Proof.
  intros Hst Hm Hc. pose proof Hst as (Hwf & Hcap & Hpend & Hpat).
  destruct (emit_capturing (OnResponse r) w Hwf Hcap) as (g & Hemit).
  assert (emit (OnResponse r) w
          = {| now := now w; sched := sched w; cursor := cursor w;
               listeners := listeners w; arrays := arrays w;
               requestMaps := requestMaps w; this := this w;
               pending := [(c, r)] |}) as Hw1.
  { rewrite Hemit. unfold Capture.on_response.
    rewrite Hpat, (matchesPattern_stateless p _ Hp), Hm, <- Hpat, set_urlPattern_id.
    by rewrite Hc, Hpend. }
  set (w1 := emit (OnResponse r) w) in *.
  assert (frame w (resume 0 w1)) as Hf.
  { etrans; [apply (frame_emit (OnResponse r))|apply frame_resume]. }
  unfold Capture.tick_caught.
  assert (matching p [Emit (OnResponse r); Resume 0] = [r]) as ->
    by (simpl; by rewrite Hm).
  assert (pair_of r = Some {| request := c; response := captureResponse JSON_parse r |})
    as Hpair by (unfold Capture.pair_of; by rewrite Hc).
  simpl. rewrite Hpair. simpl.
  assert (pending w1 !! 0%nat = Some (c, r)) as Hk by (by rewrite Hw1).
  split; [|split; [by destruct Hf as (_&?&_)|]].
  - eapply steady_frame; [exact Hf| | |done].
    + unfold Capture.resume. rewrite Hk. simpl. by rewrite Hw1.
    + unfold Capture.resume. rewrite Hk. simpl. by rewrite Hw1.
  - split; [unfold Capture.resume; rewrite Hk; simpl; by rewrite Hw1|].
    split; [unfold Capture.resume; rewrite Hk; simpl; by rewrite Hw1|].
    split; [|done].
    rewrite (resume_buffer 0 w1 c r Hk).
    + unfold buffer. by rewrite Hw1.
    + rewrite Hw1. simpl. by destruct Hwf.
Qed.

Lemma tick_caught_app l1 l2 w1 w2 w3 :
  tick_caught l1 w1 w2 → tick_caught l2 w2 w3 → tick_caught (l1 ++ l2) w1 w3.
Proof.
  intros (_ & Hs & Hc & Hn & Hb & Hl) (Hst & Hs' & Hc' & Hn' & Hb' & Hl').
  split; [done|]. split; [congruence|]. split; [congruence|]. split; [congruence|].
  rewrite matching_app, omap_app, length_app, length_app.
  rewrite Hb', Hb, <- app_assoc. split; [done|lia].
Qed.

Lemma deliver_all_prompt n les w :
  (length les ≤ n)%nat →
  steady w → prompt p les = true →
  tick_caught les w (deliver_all les w).
Proof.
  revert les w. induction n as [|n IH]; intros les w Hlen Hst Hpr.
  { destruct les; [|simpl in Hlen; lia].
    repeat split; try apply Hst. simpl. by rewrite app_nil_r. }
  destruct les as [|[ev|k] rest]; [| |done].
  { repeat split; try apply Hst. simpl. by rewrite app_nil_r. }
  simpl in Hlen.
  assert (∀ ev', match ev' with
                 | OnResponse r => url_matches p (res_url r) = false
                 | _ => True
                 end →
                 prompt p rest = true →
                 tick_caught (Emit ev' :: rest) w (deliver_all (Emit ev' :: rest) w))
    as Hother.
  { intros ev' Hev' Hrest.
    change (deliver_all (Emit ev' :: rest) w) with (deliver_all rest (emit ev' w)).
    pose proof (emit_steady_other ev' w Hst Hev') as H1.
    apply (tick_caught_app [Emit ev'] rest _ _ _ H1).
    apply IH; [lia|apply H1|done]. }
  destruct ev as [r|r|r|r]; try (by apply Hother).
  simpl in Hpr. destruct (url_matches p (res_url r)) eqn:Hm; [|by apply Hother].
  destruct rest as [|[ev2|[|k]] rest']; try done.
  apply andb_true_iff in Hpr as [Hc Hrest].
  apply bool_decide_eq_true in Hc as [c Hc].
  change (deliver_all (Emit (OnResponse r) :: Resume 0 :: rest') w)
    with (deliver_all rest' (resume 0 (emit (OnResponse r) w))).
  pose proof (emit_steady_match r c w Hst Hm Hc) as H1.
  apply (tick_caught_app [Emit (OnResponse r); Resume 0] rest' _ _ _ H1).
  apply IH; [simpl in Hlen; lia|apply H1|done].
Qed.

Lemma suspend_caught ms w :
  steady w → prompt_schedule p w →
  steady (suspend ms w) ∧ caught w (suspend ms w).
Proof.
  intros Hst Hpr. unfold Capture.suspend.
  set (t := sched w (cursor w)). set (w0 := {| now := _ |}).
  assert (steady w0) as Hst0.
  { destruct Hst as (Hwf & Hcap & Hpend & Hpat). split; [|done].
    eapply wf_frame; [|exact Hwf]. by repeat split. }
  destruct (deliver_all_prompt (length (events t)) (events t) w0)
    as (Hst' & Hs & Hc & _ & Hb & Hl); [done|done|apply Hpr|].
  split; [done|]. split; [by rewrite Hs|]. split; [rewrite Hc; simpl; lia|].
  cbv zeta. rewrite Hc. simpl. rewrite delivered_one. fold t. by rewrite Hb.
Qed.

Lemma prompt_schedule_caught w w' :
  caught w w' → prompt_schedule p w → prompt_schedule p w'.
Proof. intros (Hs & _) Hpr n. rewrite Hs. apply Hpr. Qed.

Lemma wait_loop_caught fuel timeout start w :
  steady w → prompt_schedule p w →
  steady (wait_loop fuel timeout start w).1 ∧
  caught w (wait_loop fuel timeout start w).1.
Proof.
  revert w. induction fuel as [|fuel IH]; intros w Hst Hpr; simpl;
    repeat case_match; simpl; try (split; [done|apply caught_refl]).
  destruct (suspend_caught 100 w Hst Hpr) as [Hst1 Hc1].
  destruct (IH (suspend 100 w) Hst1) as [Hst2 Hc2];
    [by eapply prompt_schedule_caught|].
  split; [done|]. by eapply caught_trans.
Qed.

Lemma run_op_caught op w :
  passive op = true → steady w → prompt_schedule p w →
  steady (run_op op w) ∧ caught w (run_op op w).
Proof.
  intros Hop Hst Hpr. destruct op; try done; cbn [Capture.run_op].
  - split.
    + destruct Hst as (Hwf & Hcap & Hpend & Hpat).
      split; [by apply wf_getAllCapturedData|done].
    + split; [done|]. split; [done|]. cbv zeta. simpl.
      rewrite delivered_nil. simpl. rewrite app_nil_r.
      split; [|done]. apply getAllCapturedData_buffer, Hst.
  - unfold Capture.waitForNextCapture. case_match.
    + split; [done|apply caught_refl].
    + by apply wait_loop_caught.
  - by apply suspend_caught.
Qed.

Lemma run_caught ops w :
  forallb passive ops = true → steady w → prompt_schedule p w →
  steady (run ops w) ∧ caught w (run ops w).
Proof.
  revert w. induction ops as [|op ops IH]; intros w Hops Hst Hpr.
  { split; [done|apply caught_refl]. }
  simpl in Hops. apply andb_true_iff in Hops as [Hop Hops].
  change (run (op :: ops) w) with (run ops (run_op op w)).
  destruct (run_op_caught op w Hop Hst Hpr) as [Hst1 Hc1].
  destruct (IH (run_op op w) Hops Hst1) as [Hst2 Hc2];
    [by eapply prompt_schedule_caught|].
  split; [done|]. by eapply caught_trans.
Qed.

End prompt.

(** A page event by itself puts nothing in the buffer: a pair is pushed
    only when a suspended handler resumes, and then at the end. *)
Lemma emit_buffer ev w : buffer (emit ev w) = buffer w.
Proof.
  unfold Capture.emit. generalize (listeners w) as l. intros l. revert w.
  induction l as [|[e h] l IH]; intros w; simpl; [done|].
  rewrite IH. destruct (decide _); [|done].
  destruct h, ev; simpl; try done.
  - unfold on_request, buffer. by destruct (matchesPattern _ _) as [[] p].
  - unfold Capture.on_response, buffer. destruct (matchesPattern _ _) as [[] p]; [|done].
    by destruct (captureRequest _ _ _).
Qed.

(** C6, as the code has it.  After any steps of a test that neither
    restart nor clear nor stop the capture (waits for the next capture,
    snapshots, other suspensions), [getAllCapturedData()]
    - returns a new array, different from the buffer and from every
      array that existed, which holds the pairs of the buffer in their
      order, and which later deliveries do not change; the buffer and the
      suspended handlers are left as they were: nothing is consumed or
      cleared;
    - the buffer has kept every pair it held before these steps, in
      order, however many times [waitForNextCapture] was called; a page
      event by itself adds nothing to it, and a suspended response handler
      that resumes (its body read has settled) appends its pair at the end,
      so the pairs are in order of completion;
    - when the pattern is stateless, no handler was suspended at the
      start and every capture completes at once (each matching response is
      followed by the settling of its body read before anything else is
      delivered, and its request can be captured), the buffer has gained
      exactly one pair per matching response delivered since, in order of
      arrival: after [startCapture] or [clear] these are exactly the [N]
      pairs of the [N] matching responses. *)
Theorem C6_snapshot_holds_completed_captures ops w0 :
  reachable w0 →
  forallb passive ops = true →
  let w := run ops w0 in
  let w' := (getAllCapturedData w).1 in
  let a := (getAllCapturedData w).2 in
  (arrays w !! a = None ∧
   a ≠ capturedData (this w) ∧
   arrays w' !! a = Some (buffer w) ∧
   buffer w' = buffer w ∧
   pending w' = pending w ∧
   ∀ les, arrays (deliver_all les w') !! a = Some (buffer w)) ∧
  buffer w0 `prefix_of` buffer w ∧
  (∀ ev, buffer (emit ev w) = buffer w) ∧
  (∀ k c r, pending w !! k = Some (c, r) →
            buffer (resume k w)
            = buffer w ++ [{| request := c; response := captureResponse JSON_parse r |}]) ∧
  (isCapturing (this w0) = true →
   pending w0 = [] →
   stateless (urlPattern (this w0)) = true →
   prompt_schedule (urlPattern (this w0)) w0 →
   let arrived :=
     matching (urlPattern (this w0)) (delivered (sched w0) (cursor w0) (cursor w)) in
   buffer w = buffer w0 ++ omap pair_of arrived ∧
   length (omap pair_of arrived) = length arrived).
Proof.
  intros Hreach Hops w w' a. pose proof (reachable_wf w0 Hreach) as Hwf0.
  pose proof (wf_run ops w0 Hwf0) as Hwf.
  split; [by apply getAllCapturedData_snapshot|].
  split; [by apply prefix_run|].
  split; [intros ev; apply emit_buffer|].
  split; [intros k c r Hk; apply resume_buffer; [done|apply Hwf]|].
  intros Hcap Hpend Hstl Hpr.
  destruct (run_caught (urlPattern (this w0)) Hstl ops w0 Hops) as [_ Hc];
    [done|done|].
  by destruct Hc as (_ & _ & Hc).
Qed.

Lemma reachable_run ops w : reachable w → reachable (run ops w).
Proof.
  revert w. induction ops as [|op ops IH]; intros w Hw; [done|].
  apply IH. by constructor.
Qed.

Lemma reachable_new p t0 s : reachable (create p t0 s []).
Proof. apply (reachable_create JSON_parse URL_searchParams p t0 s []). Qed.

End correlator.

(** *** The theorems at concrete pages *)

Lemma reachable_pending : reachable never_json no_query capture_pending.
Proof. apply reachable_run, reachable_new. Qed.

Lemma reachable_reordered : reachable never_json no_query capture_reordered.
Proof. apply reachable_run, reachable_new. Qed.

Lemma reachable_unmatched : reachable never_json no_query capture_unmatched.
Proof. apply reachable_run, reachable_new. Qed.

Lemma C2_witness :
  ∃ older latest,
    buffer capture_reordered = older ++ [latest] ∧
    waitForNextCapture never_json no_query 0 None capture_reordered
    = (capture_reordered, Ok latest).
Proof.
  apply (C2_wait_returns_latest_buffered_pair never_json no_query 0 None
           capture_reordered).
  vm_compute. discriminate.
Defined.

(** The pair that [waitForNextCapture] returns there is the one of [a],
    which was appended last; the pair of [b], the oldest in the buffer, is
    skipped. *)
Example wait_returns_latest :
  (λ o, match o with
        | Ok d => Some (res_url (rawResponse (response d)))
        | _ => None
        end) (waitForNextCapture never_json no_query 0 None capture_reordered).2
  = Some "http://h/api/a".
Proof. vm_compute. reflexivity. Qed.

Lemma C5_witness :
  ∃ w',
    waitForNextCapture never_json no_query 3 (Some 250) capture_unmatched
    = (w', Thrown (timeout_message 250)) ∧
    250 ≤ now w' - now capture_unmatched.
Proof.
  apply (C5_wait_times_out_not_before_deadline never_json no_query 3 (Some 250)
           capture_unmatched).
  - apply reachable_unmatched.
  - intros n r Hin. destruct n as [|n]; vm_compute in Hin.
    + apply list_elem_of_singleton in Hin. by simplify_eq.
    + by apply elem_of_nil in Hin.
  - vm_compute. lia.
Defined.

Lemma C6_witness :
  arrays (getAllCapturedData (run never_json no_query [OpWait 0 None; OpGetAll]
                                capture_reordered)).1
    !! (getAllCapturedData (run never_json no_query [OpWait 0 None; OpGetAll]
                              capture_reordered)).2
  = Some (buffer (run never_json no_query [OpWait 0 None; OpGetAll] capture_reordered))
  ∧ buffer capture_reordered
    `prefix_of` buffer (run never_json no_query [OpWait 0 None; OpGetAll] capture_reordered).
Proof.
  destruct (C6_snapshot_holds_completed_captures never_json no_query
              [OpWait 0 None; OpGetAll] capture_reordered)
    as ((_ & _ & Hsnap & _) & Hprefix & _).
  - apply reachable_reordered.
  - reflexivity.
  - split; [exact Hsnap|exact Hprefix].
Defined.

(** C6 as stated fails.  On a capture for ["/api"]: (1) after one matching
    response has arrived and before its body is read,
    [getAllCapturedData()] returns an empty array, not one pair;
    (2) after the matching responses [a] and [b] have arrived in this order
    and the body of [b] was read before the body of [a], the snapshot holds
    the pair of [b] before the pair of [a]. *)
Lemma C6_counterexample :
  (matching (PatString "/api")
     (delivered (sched capture_pending) 0 (cursor capture_pending)) = [response_a] ∧
   arrays (getAllCapturedData capture_pending).1
     !! (getAllCapturedData capture_pending).2 = Some []) ∧
  (matching (PatString "/api")
     (delivered (sched capture_reordered) 0 (cursor capture_reordered))
   = [response_a; response_b] ∧
   (λ snapshot : list (CapturedHttpData unit),
      (λ d, rawResponse (response d)) <$> snapshot) <$>
     (arrays (getAllCapturedData capture_reordered).1
        !! (getAllCapturedData capture_reordered).2)
   = Some [response_b; response_a]).
Proof. vm_compute. done. Qed.

Lemma C7_witness :
  let w' := stopCapture capture_reordered in
  stopCapture w' = w' ∧
  buffer w' = buffer capture_reordered ∧
  emit never_json no_query (OnResponse response_a) w' = w'.
Proof.
  destruct (C7_stopCapture_idempotent_keeps_buffer_and_silences never_json no_query
              capture_reordered reachable_reordered)
    as (Hidem & _ & _ & _ & Hbuf & _ & Hemit).
  split; [exact Hidem|]. split; [exact Hbuf|]. apply Hemit.
Defined.

(** The spec's scenario: a capture on ["/get-current-user"], one response
    with status 200 to a [GET] request; [waitForNextCapture(1000)] returns
    it after the first polling sleep. *)
Example capture_current_user :
  let u := "http://h/get-current-user" in
  let w := run never_json no_query [OpStart]
             (create (PatString "/get-current-user") 0
                (ticks [[Emit (OnResponse (ok u "{}")); Resume 0]]) []) in
  (λ o, match o with
        | Ok d => Some (status (response d), method (request d))
        | _ => None
        end) (waitForNextCapture never_json no_query 10 (Some 1000) w).2
  = Some (200, "GET").
Proof. vm_compute. reflexivity. Qed.

End CaptureFacts.

(** ** Further facts about the retry-verify engine *)

Module FormFillMoreFacts.
Import FormFill FormFillFacts FormFillMore.

(** *** The shape of the result *)

Lemma attempt_try_Return_fields fuel l v config attempt c w w' r :
  attempt_try fuel l v config attempt c w = (w', Ok (Return r)) →
  error r = None ∧ (is_Some (cfg_verifyAction config) → finalValue r = v).
Proof.
  unfold attempt_try. intros H.
  apply bind_Ok_inv in H as (w1 & [] & _ & H).
  apply bind_Ok_inv in H as (w2 & [] & _ & H).
  apply bind_Ok_inv in H as (w3 & [] & _ & H).
  apply bind_Ok_inv in H as (w4 & [] & _ & H).
  apply bind_Ok_inv in H as (w5 & [] & _ & H).
  apply bind_Ok_inv in H as (w6 & isValid & _ & H).
  destruct isValid.
  - apply bind_Ok_inv in H as (w7 & final & Hfinal & H).
    unfold ret in H. simplify_eq. simpl. split; [done|]. intros [cb Hcb].
    rewrite Hcb in Hfinal. unfold try_catch, ret in Hfinal. by simplify_eq.
  - apply bind_Ok_inv in H as (w7 & av & _ & H). unfold ret in H. simplify_eq.
Qed.

Lemma attempt_body_Return_fields fuel l v config attempt w w' r :
  attempt_body fuel l v config attempt w = (w', Ok (Return r)) →
  error r = None ∧ (is_Some (cfg_verifyAction config) → finalValue r = v).
Proof.
  unfold attempt_body. intros H.
  apply try_catch_Ok_inv in H as [H|(w1 & e & _ & H)].
  - apply bind_Ok_inv in H as (w1 & c & _ & H).
    apply bind_Ok_inv in H as (w2 & step & H2 & H).
    destruct step as [r'|le].
    + unfold ret in H. simplify_eq. unfold attempt_tracked in H2.
      apply bind_Ok_inv in H2 as (w3 & [] & _ & H2).
      apply try_finally_inv in H2 as (w4 & o4 & Htry & _ & [[_ <-]|[e [_ ?]]]);
        [|done..].
      by eapply attempt_try_Return_fields.
    + apply bind_Ok_inv in H as (w3 & [] & _ & H). unfold ret in H. simplify_eq.
  - destruct (Js.error_text e) as [text|typeError]; [|done].
    apply bind_Ok_inv in H as (w3 & [] & _ & H). unfold ret in H. simplify_eq.
Qed.

Lemma attempts_loop_Return_fields n fuel l v config attempt le w w' r :
  attempts_loop n fuel l v config attempt le w = (w', Ok (Return r)) →
  error r = None ∧ (is_Some (cfg_verifyAction config) → finalValue r = v).
Proof.
  revert attempt le w. induction n as [|n IH]; intros attempt le w; simpl.
  - unfold ret. intros; simplify_eq.
  - destruct (attempt <=? cfg_maxRetries config + 1); [|unfold ret; intros; simplify_eq].
    intros H. apply bind_Ok_inv in H as (w1 & step & H1 & H).
    destruct step as [r'|le'].
    + unfold ret in H. simplify_eq. by eapply attempt_body_Return_fields.
    + by eapply IH.
Qed.

(** X1. What [fillWithRetry] returns is of one of two shapes.  A success
    carries no error, the number of the attempt that succeeded, between 1
    and [maxRetries + 1], and, when a custom [verifyAction] is set, the
    intended value as its final value; it is returned only after the
    verification answered [true].  A failure carries [maxRetries + 1]
    attempts, an error text that is not empty, and a final value that is a
    text. *)
Theorem X1_fillWithRetry_result_shape fuel l v o (w w' : World) r :
  fillWithRetry fuel l v o w = (w', Ok r) →
  if success r then
    error r = None ∧
    1 ≤ attempts r ≤ cfg_maxRetries (mkConfig o) + 1 ∧
    (is_Some (verifyAction o) → finalValue r = v) ∧
    ∃ w1 w2, sched w1 = sched w ∧
             verifyFill l v (verifyAction o) w1 = (w2, Ok true)
  else
    attempts r = cfg_maxRetries (mkConfig o) + 1 ∧
    (∃ e, error r = Some e ∧ e ≠ "") ∧
    ∃ s, finalValue r = VStr s.
Proof.
  unfold fillWithRetry. intros H.
  apply bind_Ok_inv in H as (w1 & step & H1 & H).
  destruct step as [r'|le].
  - unfold ret in H. simplify_eq.
    destruct (attempts_loop_Return_fields _ _ _ _ _ _ _ _ _ _ H1) as [He Hf].
    apply attempts_loop_Return in H1 as (Hv & -> & ?).
    split; [done|]. split; [lia|]. split; [done|]. done.
  - apply bind_Ok_inv in H as (w2 & final & _ & H). unfold ret in H. simplify_eq.
    simpl. split; [done|]. split; [|by eexists].
    destruct le; eexists; split; done.
Qed.

Lemma X1_witness :
  ∃ w' r,
    fillWithRetry 0 0%nat (VStr "") no_options (world0 (quiet calm)) = (w', Ok r) ∧
    success r = true ∧ error r = None ∧ attempts r = 1.
Proof.
  pose proof (X1_fillWithRetry_result_shape 0 0%nat (VStr "") no_options
                (world0 (quiet calm))) as H.
  destruct (fillWithRetry 0 0%nat (VStr "") no_options (world0 (quiet calm)))
    as [w' [r| |]] eqn:Hrun; [|by vm_compute in Hrun..].
  exists w', r. split; [done|]. specialize (H w' r eq_refl).
  assert (success r = true ∧ attempts r = 1) as [Hs Ha].
  { vm_compute in Hrun. by simplify_eq. }
  rewrite Hs in H. by destruct H as (? & _).
Defined.


(** *** When the field is cleared *)

#[global] Instance no_clear_preorder : PreOrder no_clear.
Proof.
  split; [done|]. intros w1 w2 w3 H1 H2. unfold no_clear in *. congruence.
Qed.

Lemma record_no_clear c w : ¬ is_clear c → no_clear w (record c w).
Proof.
  intros Hc. unfold no_clear, clears, record; simpl.
  by rewrite filter_app, filter_cons_False, filter_nil, app_nil_r.
Qed.

Lemma suspend_no_clear ms w : no_clear w (suspend ms w).1.
Proof.
  unfold no_clear, clears.
  by destruct (suspend_fields ms w) as (_&_&_&_&->&_).
Qed.

Lemma waitForTimeout_no_clear ms : respects no_clear (waitForTimeout ms).
Proof.
  intros w.
  change (waitForTimeout ms w).1 with (suspend ms (record (CallWaitForTimeout ms) w)).1.
  etrans; [apply (record_no_clear (CallWaitForTimeout ms)); simpl; tauto|].
  apply suspend_no_clear.
Qed.

Lemma await_no_clear {A} c (r : Tick → Settled A) :
  ¬ is_clear c → respects no_clear (await c r).
Proof.
  intros Hc w. unfold await.
  pose proof (suspend_no_clear 0 (record c w)) as Hs.
  destruct (suspend 0 (record c w)) as [w' t]. simpl in *.
  etrans; [by apply (record_no_clear c)|exact Hs].
Qed.

Lemma page_on_no_clear e h : respects no_clear (page_on e h).
Proof.
  intros w. unfold page_on, no_clear, clears; simpl.
  by rewrite filter_app, filter_cons_False, filter_nil, app_nil_r by (simpl; tauto).
Qed.

Lemma page_off_no_clear e h : respects no_clear (page_off e h).
Proof.
  intros w. unfold page_off, no_clear, clears; simpl.
  by rewrite filter_app, filter_cons_False, filter_nil, app_nil_r by (simpl; tauto).
Qed.

Lemma new_cell_no_clear : respects no_clear new_cell.
Proof. by intros w. Qed.

#[global] Hint Resolve waitForTimeout_no_clear page_on_no_clear page_off_no_clear
  new_cell_no_clear : respects.
#[global] Hint Extern 1 (respects no_clear (await _ _)) =>
  apply await_no_clear; simpl; tauto : respects.

Lemma verifyFill_no_clear l v va : respects no_clear (verifyFill l v va).
Proof. unfold verifyFill, call_verifyAction, inputValue, isDisabled. respects_auto. Qed.

#[global] Hint Resolve verifyFill_no_clear : respects.

(** The clearing step of an attempt is skipped on the first attempt, when
    clearing is switched off, when a fill action is given and when the
    value is not a text. *)
Lemma attempt_try_no_clear fuel l v config attempt c :
  skips_clear v config attempt →
  respects no_clear (attempt_try fuel l v config attempt c).
Proof.
  intros Hk. unfold attempt_try. apply respects_bind; [apply _| |intros _].
  - destruct ((1 <? attempt) && cfg_clearOnRetry config) eqn:E1;
      [|apply respects_ret; apply _].
    destruct (negb (bool_decide (is_Some (cfg_fillAction config)))
              && typeof_string v) eqn:E2; [|apply respects_ret; apply _].
    exfalso. apply andb_true_iff in E1 as [E1 E1'], E2 as [E2 E2'].
    apply Z.ltb_lt in E1. apply negb_true_iff, bool_decide_eq_false in E2.
    destruct Hk as [?|[?|[?|?]]]; [lia|congruence|done|congruence].
  - unfold call_fillAction, inputValue. respects_auto.
Qed.

Lemma attempt_body_no_clear fuel l v config attempt :
  skips_clear v config attempt →
  respects no_clear (attempt_body fuel l v config attempt).
Proof.
  intros Hk. pose proof (attempt_try_no_clear fuel l v config attempt) as Ht.
  unfold attempt_body, attempt_tracked, attempt_register, attempt_finally, retry_pause.
  respects_auto.
Qed.

Lemma attempts_loop_no_clear n fuel l v config attempt le :
  cfg_clearOnRetry config = false ∨
  is_Some (cfg_fillAction config) ∨ typeof_string v = false →
  respects no_clear (attempts_loop n fuel l v config attempt le).
Proof.
  intros Hk. revert attempt le. induction n as [|n IH]; intros attempt le; simpl.
  - respects_auto.
  - pose proof (attempt_body_no_clear fuel l v config attempt (or_intror Hk)).
    respects_auto.
Qed.

(** X2. [fillWithRetry] never calls [locator.clear()] when the options
    give a [fillAction], when the value is not a text, or when
    [clearOnRetry] is [false]: however many attempts are made and however
    they end, the [clear] calls in the trace are those that were there
    before. *)
Theorem X2_no_clear_with_fill_action fuel l v o (w : World) :
  keeps_field v o = true →
  clears (fillWithRetry fuel l v o w).1 = clears w.
Proof.
  intros Hk.
  assert (cfg_clearOnRetry (mkConfig o) = false ∨
          is_Some (cfg_fillAction (mkConfig o)) ∨ typeof_string v = false) as Hk'.
  { unfold keeps_field in Hk. simpl.
    apply orb_true_iff in Hk as [Hk|Hk]; [apply orb_true_iff in Hk as [Hk|Hk]|].
    - right; left. by apply bool_decide_eq_true in Hk.
    - right; right. by apply negb_true_iff.
    - left. by apply negb_true_iff. }
  assert (respects no_clear (fillWithRetry fuel l v o)) as H.
  { unfold fillWithRetry, inputValue.
    pose proof (attempts_loop_no_clear
                  (Z.to_nat (cfg_maxRetries (mkConfig o) + 1)) fuel l v (mkConfig o)).
    respects_auto. }
  apply H.
Qed.

(** The options [{ clearOnRetry: false }]. *)
Lemma X2_witness :
  clears (fillWithRetry 61 0%nat (VStr "x")
            {| maxRetries := None; retryDelay := None; waitAfterBlur := None;
               waitBeforeVerify := None; waitForRequests := None;
               requestTimeout := None; clearOnRetry := Some false;
               fillAction := None; verifyAction := None; debug := None |}
            (world0 (quiet calm))).1 = [].
Proof.
  apply (X2_no_clear_with_fill_action 61 0%nat (VStr "x")
           {| maxRetries := None; retryDelay := None; waitAfterBlur := None;
              waitBeforeVerify := None; waitForRequests := None;
              requestTimeout := None; clearOnRetry := Some false;
              fillAction := None; verifyAction := None; debug := None |}
           (world0 (quiet calm))).
  reflexivity.
Defined.

(** *** No attempt at all *)



(** *** [fillAndAssert] *)

Lemma fillWithRetry_listeners fuel l v o w :
  enough_fuel (mkConfig o) fuel →
  listeners (fillWithRetry fuel l v o w).1 = listeners w.
Proof.
  intros Hfuel. unfold fillWithRetry, bind.
  pose proof (attempts_loop_listeners
                (Z.to_nat (cfg_maxRetries (mkConfig o) + 1)) fuel l v (mkConfig o)
                1 "" w Hfuel) as Hl.
  destruct (attempts_loop _ fuel l v (mkConfig o) 1 "" w) as [w1 [[r|le]|e|]];
    simpl in *; try done.
  pose proof (respects_try_catch same_listeners (inputValue l) (λ _, ret "")
                (await_listeners _ _)
                (λ _, respects_ret same_listeners "") w1) as Hi.
  unfold same_listeners in Hi.
  destruct (try_catch (inputValue l) (λ _, ret "") w1) as [w2 [s|e|]];
    simpl in *; congruence.
Qed.

Lemma attempts_loop_listeners_unless_stuck n fuel l v config attempt le w :
  (attempts_loop n fuel l v config attempt le w).2 ≠ Stuck →
  listeners (attempts_loop n fuel l v config attempt le w).1 = listeners w.
Proof.
  revert attempt le w. induction n as [|n IH]; intros attempt le w; simpl; [done|].
  destruct (attempt <=? cfg_maxRetries config + 1); [|done].
  unfold bind.
  pose proof (attempt_body_listeners fuel l v config attempt w) as Hb.
  unfold same_listeners in Hb.
  destruct (attempt_body fuel l v config attempt w) as [w1 [[r|le1]|e|]]; simpl in *.
  - intros _. by apply Hb.
  - intros Hns. rewrite IH by done. by apply Hb.
  - intros _. by apply Hb.
  - done.
Qed.

(** X4. [fillAndAssert] passes only for a value that was verified.  When
    it returns, [fillWithRetry] has returned a success, reached at an
    attempt between 1 and [maxRetries + 1] whose verification answered
    [true], and the page's listeners are those that were there before the
    call. *)
Theorem X4_fillAndAssert_returns_only_after_verification fuel l v o (w w' : World) :
  fillAndAssert fuel l v o w = (w', Ok tt) →
  (∃ r, fillWithRetry fuel l v o w = (w', Ok r) ∧ success r = true ∧
        1 ≤ attempts r ≤ cfg_maxRetries (mkConfig o) + 1) ∧
  (∃ w1 w2, sched w1 = sched w ∧
            verifyFill l v (verifyAction o) w1 = (w2, Ok true)) ∧
  listeners w' = listeners w.
Proof.
  unfold fillAndAssert. intros H.
  apply bind_Ok_inv in H as (w1 & r & Hr & H).
  destruct (success r) eqn:Hs; simpl in H; [|done]. unfold ret in H. simplify_eq.
  pose proof Hr as Hres.
  apply fillWithRetry_result in Hres as [(Hv & _ & Ha)|(? & _)]; [|congruence].
  split; [by exists r|]. split; [done|].
  unfold fillWithRetry in Hr.
  apply bind_Ok_inv in Hr as (w1 & step & Hloop & Hr).
  pose proof (attempts_loop_listeners_unless_stuck
                (Z.to_nat (cfg_maxRetries (mkConfig o) + 1)) fuel l v (mkConfig o)
                1 "" w) as Hl.
  rewrite Hloop in Hl. simpl in Hl. rewrite <- Hl by done.
  destruct step as [r'|le]; [unfold ret in Hr; by simplify_eq|].
  apply bind_Ok_inv in Hr as (w2 & final & Hfin & Hr). unfold ret in Hr.
  by simplify_eq.
Qed.

Lemma X4_witness :
  ∃ w',
    fillAndAssert 0 0%nat (VStr "") no_options (world0 (quiet calm)) = (w', Ok tt) ∧
    (∃ r, fillWithRetry 0 0%nat (VStr "") no_options (world0 (quiet calm)) = (w', Ok r) ∧
          success r = true ∧
          1 ≤ attempts r ≤ cfg_maxRetries (mkConfig no_options) + 1) ∧
    (∃ w1 w2, sched w1 = sched (world0 (quiet calm)) ∧
              verifyFill 0%nat (VStr "") (verifyAction no_options) w1 = (w2, Ok true)) ∧
    listeners w' = listeners (world0 (quiet calm)).
Proof.
  destruct (fillAndAssert 0 0%nat (VStr "") no_options (world0 (quiet calm)))
    as [w' [[]| |]] eqn:Hrun; [|by vm_compute in Hrun..].
  exists w'. split; [done|].
  by apply (X4_fillAndAssert_returns_only_after_verification 0 0%nat (VStr "")
              no_options (world0 (quiet calm)) w').
Defined.

(** *** Batches *)

(** X5. [fillMultiple] leaves the page's listener registry as it found
    it: after the whole batch, whatever the results of the fields, the
    listeners are those that were registered before the call. *)
Theorem X5_fillMultiple_restores_listeners fuel fields g (w : World) :
  Forall (λ f, enough_fuel (mkConfig (spread g (options f))) fuel) fields →
  listeners (fillMultiple fuel fields g w).1 = listeners w.
Proof.
  intros Hfuel. unfold fillMultiple. generalize (@nil FillResult) as acc.
  revert w. induction Hfuel as [|f fs Hf _ IH]; intros w acc; simpl; [done|].
  unfold bind.
  pose proof (fillWithRetry_listeners fuel (locator f) (value f)
                (spread g (options f)) w Hf) as Hl.
  destruct (fillWithRetry fuel (locator f) (value f) (spread g (options f)) w)
    as [w1 [r|e|]]; simpl in *; [|done..].
  by rewrite IH.
Qed.

Lemma X5_witness :
  listeners (fillMultiple 61 three_fields one_retry tracking_world).1
  = tracking 0 [].
Proof.
  apply (X5_fillMultiple_restores_listeners 61 three_fields one_retry tracking_world).
  repeat constructor; vm_compute; lia.
Defined.

Lemma fillMultiple_loop_results fuel fields g acc w :
  fillMultiple_loop fuel fields g acc w
  = (let* rs := fillMultiple_loop fuel fields g [] in ret (acc ++ rs)) w.
Proof.
  revert acc w. induction fields as [|f fs IH]; intros acc w; simpl.
  - unfold bind, ret. by rewrite app_nil_r.
  - unfold bind.
    destruct (fillWithRetry fuel (locator f) (value f) (spread g (options f)) w)
      as [w1 [r|e|]]; [|done..].
    rewrite (IH (acc ++ [r])), (IH [r]). unfold bind, ret.
    destruct (fillMultiple_loop fuel fs g [] w1) as [w2 [rs|e|]]; [|done..].
    by rewrite <- app_assoc.
Qed.

Lemma fillMultiple_loop_app fuel fields1 fields2 g acc w :
  fillMultiple_loop fuel (fields1 ++ fields2) g acc w
  = (let* acc1 := fillMultiple_loop fuel fields1 g acc in
     fillMultiple_loop fuel fields2 g acc1) w.
Proof.
  revert acc w. induction fields1 as [|f fs IH]; intros acc w; simpl; [done|].
  unfold bind.
  destruct (fillWithRetry fuel (locator f) (value f) (spread g (options f)) w)
    as [w1 [r|e|]]; [|done..].
  apply IH.
Qed.

(** X6. Filling a batch made of two parts is filling the first part and
    then, from the state of the page it leaves, the second part: the
    results are those of the first part followed by those of the second. *)
Theorem X6_fillMultiple_of_two_parts fuel fields1 fields2 g (w : World) :
  fillMultiple fuel (fields1 ++ fields2) g w
  = (let* results1 := fillMultiple fuel fields1 g in
     let* results2 := fillMultiple fuel fields2 g in
     ret (results1 ++ results2)) w.
Proof.
  unfold fillMultiple. rewrite fillMultiple_loop_app. unfold bind at 1 2.
  destruct (fillMultiple_loop fuel fields1 g [] w) as [w1 [rs1|e|]]; [|done..].
  apply fillMultiple_loop_results.
Qed.


(** *** The length of the quiescence wait *)

Lemma quiescence_loop_polls fuel config c start w :
  (pauses 50 (quiescence_loop fuel config c start w).1
   ≤ pauses 50 w +
     (if (cfg_requestTimeout config <? now w - start)%Z then 0
      else Z.to_nat ((cfg_requestTimeout config - (now w - start)) / 50 + 1)%Z))%nat.
Proof.
  revert w. induction fuel as [|fuel IH]; intros w; simpl.
  - repeat case_match; simpl; lia.
  - destruct (0 <? read_cell c w); [|simpl; lia].
    destruct (Z.ltb_spec (cfg_requestTimeout config) (now w - start)) as [Hd|Hd];
      [simpl; lia|].
    unfold bind.
    pose proof (waitForTimeout_now 50 w) as Hnow.
    pose proof (waitForTimeout_calls 50 w) as Hcalls.
    destruct (waitForTimeout 50 w) as [w1 [[]|?|]] eqn:Hw; [|done..].
    simpl in Hnow, Hcalls. specialize (IH w1).
    assert (pauses 50 w1 = S (pauses 50 w)) as Hp.
    { unfold pauses. rewrite Hcalls, filter_app, length_app.
      rewrite filter_cons_True by done. simpl. lia. }
    assert (0 ≤ (cfg_requestTimeout config - (now w - start)) / 50)
      by (apply Z.div_pos; lia).
    destruct (Z.ltb_spec (cfg_requestTimeout config) (now w1 - start)) as [Hd1|Hd1];
      [lia|].
    assert ((cfg_requestTimeout config - (now w1 - start)) / 50 + 1
            ≤ (cfg_requestTimeout config - (now w - start)) / 50).
    { assert ((cfg_requestTimeout config - (now w1 - start)) / 50
              ≤ (cfg_requestTimeout config - (now w - start) + (-1) * 50) / 50) as Hle
        by (apply Z.div_le_mono; lia).
      rewrite Z.div_add in Hle by lia. lia. }
    assert (0 ≤ (cfg_requestTimeout config - (now w1 - start)) / 50)
      by (apply Z.div_pos; lia).
    lia.
Qed.

(** X7. The quiescence wait of an attempt is bounded and advisory: it
    sleeps 50 ms at most [requestTimeout / 50 + 1] times, however long
    requests stay in flight, and it never throws. *)
Theorem X7_quiescence_wait_is_bounded fuel config c (w : World) :
  (pauses 50 (waitForQuiescence fuel config c w).1
   ≤ pauses 50 w + Z.to_nat (cfg_requestTimeout config / 50 + 1)%Z)%nat ∧
  ∀ e, (waitForQuiescence fuel config c w).2 ≠ Thrown e.
Proof.
  split; [|apply never_throws_waitForQuiescence].
  unfold waitForQuiescence.
  destruct (cfg_waitForRequests config && (0 <? read_cell c w)); [|simpl; lia].
  pose proof (quiescence_loop_polls fuel config c (now w) w) as H.
  replace (now w - now w) with 0 in H by lia. rewrite Z.sub_0_r in H.
  destruct (cfg_requestTimeout config <? 0); lia.
Qed.

(** *** Merging options *)

Lemma override_None_l {A} (f : option A) : override None f = f.
Proof. by destruct f. Qed.

Lemma override_assoc {A} (a b c : option A) :
  override (override a b) c = override a (override b c).
Proof. by destruct c. Qed.

(** X8. Merging options as [fillMultiple] does is associative and has the
    empty options as unit on both sides: a field without options of its
    own is filled with exactly the global options, and a batch without
    global options fills each field with exactly its own. *)
Theorem X8_spread_laws (a b c : FillOptions) :
  spread a no_options = a ∧
  spread no_options a = a ∧
  spread (spread a b) c = spread a (spread b c).
Proof.
  split; [by destruct a|]. split.
  - destruct a. unfold spread; simpl. by rewrite !override_None_l.
  - unfold spread; simpl. by rewrite !override_assoc.
Qed.

(** *** The default verification *)

Lemma await_fields {A} c (r : Tick → Settled A) w :
  sched (await c r w).1 = sched w ∧ cursor (await c r w).1 = S (cursor w).
Proof.
  unfold await.
  pose proof (suspend_fields 0 (record c w)) as (_&Hs&Hc&_).
  by destruct (suspend 0 (record c w)) as [w' t].
Qed.

(** X10. The default verification of a text value makes two driver
    calls.  It answers [true] exactly when [inputValue] resolves to the
    expected text and the following [isDisabled] does not resolve to
    [true]; a rejected [isDisabled] counts as enabled.  It throws exactly
    when [inputValue] is rejected, with that error. *)
Theorem X10_default_verification_of_a_text l s (w : World) :
  ((verifyFill l (VStr s) None w).2 = Ok true ↔
     r_inputValue (sched w (cursor w)) = Fulfilled s ∧
     r_isDisabled (sched w (S (cursor w))) ≠ Fulfilled true) ∧
  (∀ e, (verifyFill l (VStr s) None w).2 = Thrown e ↔
        r_inputValue (sched w (cursor w)) = Rejected e).
Proof.
  unfold verifyFill. unfold bind at 1 3.
  pose proof (await_outcome (CallInputValue l) r_inputValue w) as Ho.
  pose proof (await_fields (CallInputValue l) r_inputValue w) as [Hs Hc].
  fold (inputValue l) in Ho, Hs, Hc.
  destruct (inputValue l w) as [w1 o1]. simpl in Ho, Hs, Hc. subst o1.
  destruct (r_inputValue (sched w (cursor w))) as [a|e0]; simpl.
  - destruct (String.eqb_spec a s) as [->|Hne]; simpl.
    + unfold bind, try_catch.
      pose proof (await_outcome (CallIsDisabled l) r_isDisabled w1) as Ho.
      fold (isDisabled l) in Ho.
      destruct (isDisabled l w1) as [w2 o2]. simpl in Ho. subst o2.
      rewrite Hs, Hc.
      destruct (r_isDisabled (sched w (S (cursor w)))) as [[]|e1]; simpl;
        (split; [split; [intros ?; try done; by split|intros [_ ?]; done]
                |intros e; split; intros; simplify_eq]).
    + split; [split; [done|intros [? _]; congruence]|].
      intros e; split; intros; simplify_eq.
  - split; [split; [done|intros [? _]; congruence]|].
    intros e; split; intros; simplify_eq; done.
Qed.


(** *** Attempts that succeed *)




Lemma clear_step_skipped l v config attempt w :
  skips_clear v config attempt →
  when ((1 <? attempt) && cfg_clearOnRetry config)
    (when (negb (bool_decide (is_Some (cfg_fillAction config))) && typeof_string v)
       (clear l >> waitForTimeout 100)) w = (w, Ok tt).
Proof.
  intros Hk.
  destruct ((1 <? attempt) && cfg_clearOnRetry config) eqn:E1; [|done].
  destruct (negb (bool_decide (is_Some (cfg_fillAction config)))
            && typeof_string v) eqn:E2; [|done].
  exfalso. apply andb_true_iff in E1 as [E1 E1'], E2 as [E2 E2'].
  apply Z.ltb_lt in E1. apply negb_true_iff, bool_decide_eq_false in E2.
  destruct Hk as [?|[?|[?|?]]]; [lia|congruence|done|congruence].
Qed.

(** An attempt whose clearing step is skipped, whose fill action, if there
    is one, resolves, and whose verification answers [true], returns. *)
Lemma attempt_try_returns fuel l v config attempt c w :
  enough_fuel config fuel →
  skips_clear v config attempt →
  (∀ w1, sched w1 = sched w →
         (verifyFill l v (cfg_verifyAction config) w1).2 = Ok true) →
  (is_Some (cfg_fillAction config) →
   r_fillAction (sched w (cursor w)) = Fulfilled tt) →
  ∃ w' r, attempt_try fuel l v config attempt c w = (w', Ok (Return r)).
Proof.
  intros Hfuel Hk Hv Hf. unfold attempt_try.
  rewrite (bind_run _ _ _ _ _ (clear_step_skipped l v config attempt w Hk)).
  assert (∃ w2, match cfg_fillAction config with
                | Some cb => call_fillAction cb l v
                | None => ret tt
                end w = (w2, Ok tt) ∧ evolves w w2) as (w2 & H2 & E2).
  { destruct (cfg_fillAction config) as [cb|]; [|by exists w].
    exists (call_fillAction cb l v w).1. split; [|apply await_evolves].
    pose proof (await_outcome (CallFillAction cb l v) r_fillAction w) as Ho.
    fold (call_fillAction cb l v) in Ho. rewrite Hf in Ho by done.
    by destruct (call_fillAction cb l v w) as [w2 o2]; simpl in *; subst. }
  rewrite (bind_run _ _ _ _ _ H2).
  rewrite (bind_run _ _ w2 (waitForTimeout (cfg_waitAfterBlur config) w2).1 tt)
    by done.
  pose proof (waitForTimeout_evolves (cfg_waitAfterBlur config) w2) as E3.
  set (w3 := (waitForTimeout (cfg_waitAfterBlur config) w2).1) in *.
  destruct (runs_Ok (waitForQuiescence fuel config c) w3) as (w4 & [] & H4);
    [apply never_throws_waitForQuiescence|by apply waitForQuiescence_never_stuck|].
  assert (evolves w3 w4) as E4.
  { eapply respects_run; [|exact H4].
    apply waitForQuiescence_respects; [apply _|apply waitForTimeout_evolves]. }
  rewrite (bind_run _ _ _ _ _ H4).
  rewrite (bind_run _ _ w4 (waitForTimeout (cfg_waitBeforeVerify config) w4).1 tt)
    by done.
  pose proof (waitForTimeout_evolves (cfg_waitBeforeVerify config) w4) as E5.
  set (w5 := (waitForTimeout (cfg_waitBeforeVerify config) w4).1) in *.
  assert (sched w5 = sched w) as Hs5.
  { apply evolves_sched. etrans; [exact E2|]. etrans; [exact E3|]. by etrans. }
  specialize (Hv w5 Hs5).
  destruct (verifyFill l v (cfg_verifyAction config) w5) as [w6 o6] eqn:H6.
  simpl in Hv. subst o6. rewrite (bind_run _ _ _ _ _ H6).
  match goal with |- context [bind ?m _ w6] =>
    destruct (runs_Ok m w6) as (w7 & final & H7) end.
  { outcome_auto. }
  { unfold inputValue. outcome_auto. }
  rewrite (bind_run _ _ _ _ _ H7). unfold ret. eauto.
Qed.



Lemma attempt_body_returns fuel l v config attempt w :
  enough_fuel config fuel →
  skips_clear v config attempt →
  (∀ w1, sched w1 = sched w →
         (verifyFill l v (cfg_verifyAction config) w1).2 = Ok true) →
  (is_Some (cfg_fillAction config) →
   r_fillAction (sched w (cursor w)) = Fulfilled tt) →
  ∃ w' r, attempt_body fuel l v config attempt w = (w', Ok (Return r)).
Proof.
  intros Hfuel Hk Hv Hf. unfold attempt_body, try_catch.
  rewrite (bind_run new_cell _ w (set_cells (λ cs, cs ++ [0]) w) (length (cells w)))
    by done.
  set (w1 := set_cells (λ cs, cs ++ [0]) w). set (c := length (cells w)).
  unfold attempt_tracked.
  pose proof (attempt_register_Ok config c w1) as Hr.
  pose proof (attempt_register_position config c w1) as [Hs Hc].
  destruct (attempt_register config c w1) as [w2 o2] eqn:H2. simpl in *. subst o2.
  cbv beta. unfold bind at 1. rewrite (bind_run _ _ _ _ _ H2). unfold try_finally.
  destruct (attempt_try_returns fuel l v config attempt c w2) as (w3 & r & H3);
    [done|done|by rewrite Hs|by rewrite Hs, Hc|].
  rewrite H3. destruct (attempt_finally_runs config c w3) as (w4 & -> & _).
  unfold ret. eauto.
Qed.

(** X9. The first attempt succeeds whenever the verification answers
    [true] and the fill action, if one is given, resolves at its first
    call: [fillWithRetry] then returns a success with [attempts = 1] and
    no error, without having cleared the field, and with the page's
    listeners as they were. *)
Theorem X9_first_attempt_success fuel l v o (w : World) :
  enough_fuel (mkConfig o) fuel →
  0 ≤ cfg_maxRetries (mkConfig o) →
  (∀ w1, sched w1 = sched w →
         (verifyFill l v (verifyAction o) w1).2 = Ok true) →
  (is_Some (fillAction o) → r_fillAction (sched w (cursor w)) = Fulfilled tt) →
  ∃ w' r,
    fillWithRetry fuel l v o w = (w', Ok r) ∧
    success r = true ∧ attempts r = 1 ∧ error r = None ∧
    clears w' = clears w ∧ listeners w' = listeners w.
Proof.
  intros Hfuel Hm Hv Hf.
  destruct (attempt_body_returns fuel l v (mkConfig o) 1 w) as (w' & r & Hb);
    [done|by left|done|done|].
  exists w', r. split.
  { unfold fillWithRetry.
    destruct (Z.to_nat (cfg_maxRetries (mkConfig o) + 1)) as [|n] eqn:Hn; [lia|].
    cbn [attempts_loop].
    destruct (Z.leb_spec 1 (cfg_maxRetries (mkConfig o) + 1)); [|lia].
    unfold bind at 1. by rewrite (bind_run _ _ _ _ _ Hb). }
  destruct (attempt_body_Return _ _ _ _ _ _ _ _ Hb) as (_ & ? & ?).
  destruct (attempt_body_Return_fields _ _ _ _ _ _ _ _ Hb) as [? _].
  repeat split; try done.
  - eapply (respects_run no_clear); [|exact Hb].
    apply attempt_body_no_clear. by left.
  - pose proof (attempt_body_listeners fuel l v (mkConfig o) 1 w) as Hl.
    rewrite Hb in Hl. by apply Hl.
Qed.

Lemma X9_witness :
  ∃ w' r,
    fillWithRetry 61 0%nat (VStr "") no_options (world0 (quiet calm)) = (w', Ok r) ∧
    success r = true ∧ attempts r = 1 ∧ error r = None ∧
    clears w' = clears (world0 (quiet calm)) ∧
    listeners w' = listeners (world0 (quiet calm)).
Proof.
  apply (X9_first_attempt_success 61 0%nat (VStr "") no_options (world0 (quiet calm))).
  - vm_compute. lia.
  - simpl. lia.
  - intros w1 Hs. unfold verifyFill, inputValue, isDisabled, bind, try_catch, await,
      suspend. simpl. rewrite Hs. reflexivity.
  - intros [cb Hcb]. discriminate.
Defined.




(** *** How long a success takes *)

Lemma waitForTimeout_run_now ms w w' :
  waitForTimeout ms w = (w', Ok tt) → now w + Z.max 0 ms ≤ now w'.
Proof. intros H. pose proof (waitForTimeout_now ms w) as Hn. by rewrite H in Hn. Qed.

Lemma evolves_now w w' : evolves w w' → now w ≤ now w'.
Proof. by intros (_ & ? & _). Qed.

Lemma attempt_try_Return_time fuel l v config attempt c w w' r :
  attempt_try fuel l v config attempt c w = (w', Ok (Return r)) →
  now w + Z.max 0 (cfg_waitAfterBlur config) + Z.max 0 (cfg_waitBeforeVerify config)
  ≤ now w'.
Proof.
  unfold attempt_try. intros H.
  apply bind_Ok_inv in H as (w1 & [] & H1 & H). run_evolves H1.
  apply bind_Ok_inv in H as (w2 & [] & H2 & H). run_evolves H2.
  apply bind_Ok_inv in H as (w3 & [] & H3 & H). apply waitForTimeout_run_now in H3.
  apply bind_Ok_inv in H as (w4 & [] & H4 & H). run_evolves H4.
  apply bind_Ok_inv in H as (w5 & [] & H5 & H). apply waitForTimeout_run_now in H5.
  assert (evolves w5 w') as E6.
  { eapply respects_run; [|exact H]. unfold inputValue. respects_auto. }
  apply evolves_now in E, E0, E1, E6. lia.
Qed.

Lemma attempt_body_Return_time fuel l v config attempt w w' r :
  attempt_body fuel l v config attempt w = (w', Ok (Return r)) →
  now w + Z.max 0 (cfg_waitAfterBlur config) + Z.max 0 (cfg_waitBeforeVerify config)
  ≤ now w'.
Proof.
  unfold attempt_body. intros H.
  apply try_catch_Ok_inv in H as [H|(w1 & e & _ & H)].
  - apply bind_Ok_inv in H as (w1 & c & H1 & H).
    assert (evolves w w1) as E1
      by (eapply respects_run; [apply new_cell_evolves|exact H1]).
    apply bind_Ok_inv in H as (w2 & step & H2 & H).
    destruct step as [r'|le].
    + unfold ret in H. simplify_eq. unfold attempt_tracked in H2.
      apply bind_Ok_inv in H2 as (w3 & [] & H3 & H2). run_evolves H3.
      apply try_finally_inv in H2 as (w4 & o4 & Htry & _ & [[Hfin <-]|[e [_ ?]]]);
        [|done..].
      apply attempt_try_Return_time in Htry.
      assert (evolves w4 w') as E4.
      { eapply respects_run; [|exact Hfin]. unfold attempt_finally. respects_auto. }
      apply evolves_now in E1, E, E4. lia.
    + apply bind_Ok_inv in H as (w3 & [] & _ & H). unfold ret in H. simplify_eq.
  - destruct (Js.error_text e) as [text|typeError]; [|done].
    apply bind_Ok_inv in H as (w3 & [] & _ & H). unfold ret in H. simplify_eq.
Qed.

Lemma attempt_body_Continue_time fuel l v config attempt w w' e :
  attempt ≤ cfg_maxRetries config →
  attempt_body fuel l v config attempt w = (w', Ok (Continue e)) →
  now w + Z.max 0 (cfg_retryDelay config) ≤ now w'.
Proof.
  intros Hle H. apply attempt_body_Continue in H as (w1 & E1 & ->).
  unfold retry_pause, when.
  destruct (Z.leb_spec attempt (cfg_maxRetries config)); [|lia].
  pose proof (waitForTimeout_now (cfg_retryDelay config) w1).
  apply evolves_now in E1. lia.
Qed.

Lemma attempts_loop_Return_time n fuel l v config attempt le w w' r :
  attempts_loop n fuel l v config attempt le w = (w', Ok (Return r)) →
  now w + Z.max 0 (cfg_waitAfterBlur config) + Z.max 0 (cfg_waitBeforeVerify config)
  + (attempts r - attempt) * Z.max 0 (cfg_retryDelay config) ≤ now w'.
Proof.
  revert attempt le w. induction n as [|n IH]; intros attempt le w; simpl.
  - unfold ret. intros; simplify_eq.
  - destruct (attempt <=? cfg_maxRetries config + 1); [|unfold ret; intros; simplify_eq].
    intros H. apply bind_Ok_inv in H as (w1 & step & H1 & H).
    destruct step as [r'|le'].
    + unfold ret in H. simplify_eq.
      destruct (attempt_body_Return _ _ _ _ _ _ _ _ H1) as (_ & _ & ->).
      apply attempt_body_Return_time in H1. lia.
    + assert (attempt ≤ cfg_maxRetries config) as Hle.
      { destruct n as [|n]; simpl in H; [unfold ret in H; simplify_eq|].
        destruct (Z.leb_spec (attempt + 1) (cfg_maxRetries config + 1));
          [lia|unfold ret in H; simplify_eq]. }
      apply (attempt_body_Continue_time _ _ _ _ _ _ _ _ Hle) in H1.
      apply IH in H.
      replace ((attempts r - attempt) * Z.max 0 (cfg_retryDelay config))
        with ((attempts r - (attempt + 1)) * Z.max 0 (cfg_retryDelay config)
              + Z.max 0 (cfg_retryDelay config)) by ring.
      lia.
Qed.

(** X20. A success is never reported sooner than the waits of the
    attempt that succeeded and the pauses after the attempts that failed:
    when [fillWithRetry] returns a success at attempt [k], at least
    [waitAfterBlur + waitBeforeVerify + (k - 1) * retryDelay] milliseconds
    have passed since the call, a negative setting counting as zero. *)
Theorem X20_success_takes_its_waits fuel l v o (w w' : World) r :
  fillWithRetry fuel l v o w = (w', Ok r) →
  success r = true →
  Z.max 0 (cfg_waitAfterBlur (mkConfig o))
  + Z.max 0 (cfg_waitBeforeVerify (mkConfig o))
  + (attempts r - 1) * Z.max 0 (cfg_retryDelay (mkConfig o))
  ≤ now w' - now w.
Proof.
  unfold fillWithRetry. intros H Hs.
  apply bind_Ok_inv in H as (w1 & step & H1 & H).
  destruct step as [r'|le].
  - unfold ret in H. simplify_eq. apply attempts_loop_Return_time in H1. lia.
  - apply bind_Ok_inv in H as (w2 & final & _ & H). unfold ret in H. by simplify_eq.
Qed.

Lemma X20_witness :
  ∃ w' r,
    fillWithRetry 61 0%nat (VStr "") no_options (world0 (quiet calm)) = (w', Ok r) ∧
    success r = true ∧
    Z.max 0 (cfg_waitAfterBlur (mkConfig no_options))
    + Z.max 0 (cfg_waitBeforeVerify (mkConfig no_options))
    + (attempts r - 1) * Z.max 0 (cfg_retryDelay (mkConfig no_options))
    ≤ now w' - now (world0 (quiet calm)).
Proof.
  destruct (fillWithRetry 61 0%nat (VStr "") no_options (world0 (quiet calm)))
    as [w' [r| |]] eqn:Hrun; [|by vm_compute in Hrun..].
  assert (success r = true) as Hs by (vm_compute in Hrun; by simplify_eq).
  exists w', r. split; [done|]. split; [done|].
  by apply (X20_success_takes_its_waits 61 0%nat (VStr "") no_options
              (world0 (quiet calm)) w' r).
Defined.

End FormFillMoreFacts.

(** ** Further facts about the capture correlator *)

Module CaptureMoreFacts.
Import Capture CaptureFacts CaptureMore.

Section correlator.
Context {Json : Type}.
Variable JSON_parse : string → option (Data Json).
Variable URL_searchParams : string → option (list (string * string)).

Local Abbreviation World := (World Json).
Local Abbreviation CapturedHttpData := (CapturedHttpData Json).
Local Abbreviation captureRequest := (captureRequest JSON_parse URL_searchParams).
Local Abbreviation captureResponse := (captureResponse JSON_parse).
Local Abbreviation on_response := (on_response JSON_parse URL_searchParams).
Local Abbreviation resume := (resume JSON_parse).
Local Abbreviation call_handler := (call_handler JSON_parse URL_searchParams).
Local Abbreviation emit := (emit JSON_parse URL_searchParams).
Local Abbreviation deliver := (deliver JSON_parse URL_searchParams).
Local Abbreviation deliver_all := (deliver_all JSON_parse URL_searchParams).
Local Abbreviation suspend := (suspend JSON_parse URL_searchParams).
Local Abbreviation wait_loop := (wait_loop JSON_parse URL_searchParams).
Local Abbreviation waitForNextCapture := (waitForNextCapture JSON_parse URL_searchParams).
Local Abbreviation run_op := (run_op JSON_parse URL_searchParams).
Local Abbreviation run := (run JSON_parse URL_searchParams).
Local Abbreviation reachable := (reachable JSON_parse URL_searchParams).
Local Abbreviation pair_of := (pair_of JSON_parse URL_searchParams).
Local Abbreviation frame := (@frame Json).
Local Abbreviation grows := (@grows Json).
Local Abbreviation wf := (@wf Json).
Local Abbreviation registry_of := (@registry_of Json).
Local Abbreviation captured_by := (captured_by JSON_parse URL_searchParams).
Local Abbreviation suspended_by := (suspended_by JSON_parse URL_searchParams).
Local Abbreviation faithful := (faithful JSON_parse URL_searchParams).
Local Abbreviation setupHttpCapture := (@setupHttpCapture Json).
Local Abbreviation waitForHttpCapture := (waitForHttpCapture JSON_parse URL_searchParams).

Implicit Types (w : World) (ev : PageEvent) (le : LoopEvent).

(** *** The listener registry over the life of a capture object *)

Lemma registry_of_frame ids w w' : frame w w' → registry_of ids w → registry_of ids w'.
Proof.
  intros (Hl & _ & _ & Hq & Hp & Hi & _). unfold CaptureMore.registry_of.
  by rewrite Hl, Hq, Hp, Hi.
Qed.

Lemma registry_of_startCapture ids w :
  registry_of ids w → registry_of ids (startCapture w).
Proof.
  unfold CaptureMore.registry_of, startCapture.
  destruct (isCapturing (this w)) eqn:Hcap; [by rewrite Hcap|].
  simpl. intros ->. exists (length (requestMaps w)).
  split; [done|]. split; [done|]. unfold Emitter.on. by rewrite <- app_assoc.
Qed.

Lemma registry_of_stopCapture ids w :
  registry_of ids w → registry_of ids (stopCapture w).
Proof.
  unfold CaptureMore.registry_of, stopCapture.
  destruct (isCapturing (this w)) eqn:Hcap; simpl; [|by rewrite Hcap].
  intros (g & -> & -> & ->).
  rewrite (EmitterFacts.off_middle _ _ (foreign ids) [(EvResponse, ResponseHandler g)])
    by (rewrite list_elem_of_singleton; discriminate).
  rewrite (EmitterFacts.off_middle _ _ (foreign ids) []) by apply not_elem_of_nil.
  apply app_nil_r.
Qed.

Lemma registry_of_run_op ids op w :
  registry_of ids w → registry_of ids (run_op op w).
Proof.
  destruct op; cbn [Capture.run_op].
  - apply registry_of_startCapture.
  - apply registry_of_stopCapture.
  - done.
  - done.
  - apply registry_of_frame, frame_waitForNextCapture.
  - apply registry_of_frame, frame_suspend.
Qed.

(** X12. Whatever a test does with a capture object, the listeners on the
    page are those of other code, untouched and in their order, followed
    by the two handlers of the object while it captures and by nothing
    while it does not: repeated calls of [startCapture] register nothing
    twice, and [stopCapture] leaves nothing behind. *)
Theorem X12_registry_holds_one_pair_of_handlers ops p t0 s ids :
  registry_of ids (run ops (create p t0 s (foreign ids))).
Proof.
  induction ops as [|op ops IH] using rev_ind; [done|].
  unfold Capture.run. rewrite foldl_app. simpl. by apply registry_of_run_op.
Qed.

(** *** Handlers that complete late *)

Lemma buffer_clear w : buffer (clear w) = [].
Proof. unfold buffer. simpl. by rewrite lookup_app_r, Nat.sub_diag. Qed.

Lemma buffer_startCapture w :
  isCapturing (this w) = false → buffer (startCapture w) = [].
Proof.
  intros Hcap. unfold buffer, startCapture. rewrite Hcap. simpl.
  by rewrite lookup_app_r, Nat.sub_diag.
Qed.

(** X13. Neither [clear] nor [stopCapture] cancels a response handler
    that is waiting for the body of its response.  When the body arrives
    the handler pushes its pair to the buffer of that moment: the pair is
    the only entry after a [clear], it follows the entries kept after a
    [stopCapture], and it is the first entry of the capture started after
    a [stopCapture]. *)
Theorem X13_suspended_handler_completes_after_clear_and_stop w k c r :
  reachable w →
  pending w !! k = Some (c, r) →
  let d := {| request := c; response := captureResponse r |} in
  buffer (resume k (clear w)) = [d] ∧
  buffer (resume k (stopCapture w)) = buffer w ++ [d] ∧
  buffer (resume k (startCapture (stopCapture w))) = [d].
Proof.
  intros Hreach Hk d.
  pose proof (reachable_wf JSON_parse URL_searchParams w Hreach) as Hwf.
  destruct (stopCapture_keeps w) as (Harr & Hcd & Hpend).
  split; [|split].
  - rewrite (resume_buffer JSON_parse k (clear w) c r); [|done|].
    + by rewrite buffer_clear.
    + by apply wf_clear.
  - rewrite (resume_buffer JSON_parse k (stopCapture w) c r).
    + unfold buffer. by rewrite Harr, Hcd.
    + by rewrite Hpend.
    + by apply wf_stopCapture.
  - pose proof (stopCapture_not_capturing w) as Hidle.
    rewrite (resume_buffer JSON_parse k (startCapture (stopCapture w)) c r).
    + by rewrite buffer_startCapture.
    + unfold startCapture. rewrite Hidle. simpl. by rewrite Hpend.
    + by apply wf_startCapture, wf_stopCapture.
Qed.

(** *** What the buffer holds *)

Lemma captured_by_ext p p' (d : CapturedHttpData) :
  (∀ u, url_matches p' u = url_matches p u) → captured_by p d → captured_by p' d.
Proof. intros He (r & Hm & Hd). exists r. by rewrite He. Qed.

Lemma suspended_by_ext p p' k :
  (∀ u, url_matches p' u = url_matches p u) → suspended_by p k → suspended_by p' k.
Proof. intros He [Hm Hc]. split; [by rewrite He|done]. Qed.

Lemma faithful_ext w w' :
  (∀ u, url_matches (urlPattern (this w')) u = url_matches (urlPattern (this w)) u) →
  buffer w' = buffer w → pending w' = pending w →
  faithful w → faithful w'.
Proof.
  intros He Hb Hp [Hbuf Hpend]. unfold CaptureMore.faithful. rewrite Hb, Hp. split.
  - eapply Forall_impl; [exact Hbuf|]. intros d. by apply captured_by_ext.
  - eapply Forall_impl; [exact Hpend|]. intros k. by apply suspended_by_ext.
Qed.

Lemma faithful_on_request g r w : faithful w → faithful (on_request g r w).
Proof.
  apply faithful_ext.
  - intros u. unfold on_request.
    pose proof (url_matches_after (urlPattern (this w)) (req_url r) u) as Hu.
    by destruct (matchesPattern _ _) as [[] p].
  - unfold on_request. by destruct (matchesPattern _ _) as [[] p].
  - unfold on_request. by destruct (matchesPattern _ _) as [[] p].
Qed.

Lemma faithful_on_response r w : faithful w → faithful (on_response r w).
Proof.
  intros [Hbuf Hpend]. unfold Capture.on_response.
  pose proof (url_matches_after (urlPattern (this w)) (res_url r)) as Hu.
  pose proof (matchesPattern_sound (urlPattern (this w)) (res_url r)) as Hsound.
  destruct (matchesPattern _ _) as [matches p]. simpl in Hu, Hsound.
  assert (faithful (set_urlPattern p w)) as [Hbuf' Hpend']
    by (by apply (faithful_ext w)).
  destruct matches; [|by split].
  destruct (Capture.captureRequest _ _ _) as [c|] eqn:Hc; [|by split].
  split; [done|]. simpl. apply Forall_app. split; [done|].
  apply Forall_singleton. split; [|done]. simpl. rewrite Hu. by apply Hsound.
Qed.

Lemma faithful_resume k w :
  (capturedData (this w) < length (arrays w))%nat →
  faithful w → faithful (resume k w).
Proof.
  intros Hlt [Hbuf Hpend].
  destruct (pending w !! k) as [[c r]|] eqn:Hk;
    [|unfold Capture.resume; by rewrite Hk].
  pose proof (resume_buffer JSON_parse k w c r Hk Hlt) as Hb.
  unfold CaptureMore.faithful. rewrite Hb.
  assert (urlPattern (this (resume k w)) = urlPattern (this w)) as ->
    by (unfold Capture.resume; by rewrite Hk).
  assert (pending (resume k w) = delete k (pending w)) as ->
    by (unfold Capture.resume; by rewrite Hk).
  split; [|by apply Forall_delete].
  apply Forall_app. split; [done|]. apply Forall_singleton.
  destruct (Forall_lookup_1 _ _ _ _ Hpend Hk) as [Hm Hc]. simpl in *.
  exists r. split; [done|]. unfold Capture.pair_of. by rewrite Hc.
Qed.

(** The capture object is well formed and faithful. *)
Lemma sound_foldl {A} (f : World → A → World) (l : list A) w :
  (∀ w' a, wf w' ∧ faithful w' → wf (f w' a) ∧ faithful (f w' a)) →
  wf w ∧ faithful w → wf (foldl f w l) ∧ faithful (foldl f w l).
Proof. intros Hf. revert w. induction l as [|a l IH]; intros w; simpl; auto. Qed.

Lemma sound_deliver le w : wf w ∧ faithful w → wf (deliver le w) ∧ faithful (deliver le w).
Proof.
  intros [Hwf Hf]. split; [eapply wf_frame; [apply frame_deliver|done]|].
  destruct le as [ev|k]; simpl.
  - revert Hwf Hf. unfold Capture.emit. generalize (listeners w). intros l Hwf Hf.
    apply (sound_foldl _ l w); [|done]. intros w' [e h] [Hwf' Hf'].
    destruct (decide _); [|done].
    split; [eapply wf_frame; [apply frame_call_handler|done]|].
    destruct h, ev; simpl; try done.
    + by apply faithful_on_request.
    + by apply faithful_on_response.
  - apply faithful_resume; [by destruct Hwf|done].
Qed.

Lemma sound_suspend ms w : wf w ∧ faithful w → wf (suspend ms w) ∧ faithful (suspend ms w).
Proof.
  intros H. unfold Capture.suspend, Capture.deliver_all.
  apply sound_foldl; [intros w' le; apply sound_deliver|]. exact H.
Qed.

Lemma sound_wait_loop fuel timeout start w :
  wf w ∧ faithful w →
  wf (wait_loop fuel timeout start w).1 ∧ faithful (wait_loop fuel timeout start w).1.
Proof.
  revert w. induction fuel as [|fuel IH]; intros w H; simpl;
    destruct (_ <? _); try done; destruct (last (buffer w)); try done.
  by apply IH, sound_suspend.
Qed.

Lemma sound_run_op op w : wf w ∧ faithful w → wf (run_op op w) ∧ faithful (run_op op w).
Proof.
  intros [Hwf Hf]. split; [by apply wf_run_op|].
  destruct op; cbn [Capture.run_op].
  - unfold startCapture. destruct (isCapturing (this w)) eqn:Hcap; [done|].
    pose proof (buffer_startCapture w Hcap) as Hb. unfold startCapture in Hb.
    rewrite Hcap in Hb. unfold CaptureMore.faithful. rewrite Hb.
    split; [done|]. by destruct Hf.
  - destruct (stopCapture_keeps w) as (Harr & Hcd & Hpend).
    apply (faithful_ext w); [| |done|done].
    + unfold stopCapture. by destruct (isCapturing (this w)).
    + unfold buffer. by rewrite Harr, Hcd.
  - unfold CaptureMore.faithful. rewrite buffer_clear. split; [done|]. by destruct Hf.
  - apply (faithful_ext w); [done| |done|done].
    by apply getAllCapturedData_buffer.
  - unfold Capture.waitForNextCapture. destruct (last (buffer w)); [done|].
    by apply sound_wait_loop.
  - by apply sound_suspend.
Qed.

Lemma reachable_sound w : reachable w → wf w ∧ faithful w.
Proof.
  induction 1 as [p t0 s ids|op w _ IH]; [|by apply sound_run_op].
  split; [apply wf_create|]. by split.
Qed.

(** *** How a wait ends *)

Lemma wait_loop_outcome fuel timeout start w :
  (Z.to_nat ((timeout - (now w - start) + 99) / 100) ≤ fuel)%nat →
  match wait_loop fuel timeout start w with
  | (w', Ok d) => last (buffer w') = Some d ∧ now w' - start < timeout
  | (w', Thrown e) => e = timeout_message timeout ∧ timeout ≤ now w' - start
  | (_, Stuck) => False
  end.
Proof.
  revert w. induction fuel as [|fuel IH]; intros w Hfuel; simpl.
  - destruct (Z.ltb_spec (now w - start) timeout) as [Hlt|Hge]; [|split; [done|lia]].
    destruct (last (buffer w)) eqn:Hl; [done|]. exfalso.
    assert (1 ≤ (timeout - (now w - start) + 99) / 100)
      by (apply Z.div_le_lower_bound; lia).
    lia.
  - destruct (Z.ltb_spec (now w - start) timeout) as [Hlt|Hge]; [|split; [done|lia]].
    destruct (last (buffer w)) eqn:Hl; [done|].
    apply IH.
    destruct (suspend_now JSON_parse URL_searchParams 100 w) as [Hnow _].
    assert ((timeout - (now (suspend 100 w) - start) + 99) / 100
            ≤ (timeout - (now w - start) + 99 + (-1) * 100) / 100) as Hle
      by (apply Z.div_le_mono; lia).
    rewrite Z.div_add in Hle by lia.
    assert (1 ≤ (timeout - (now w - start) + 99) / 100)
      by (apply Z.div_le_lower_bound; lia).
    lia.
Qed.

(** X15. With enough fuel for the polling sleeps that fit in the
    timeout, [waitForNextCapture] ends in one of two ways, leaving the
    listeners and the capturing state as they were.  It returns the pair
    that is last in the buffer at that moment, at once or before the
    timeout has elapsed; or it throws the timeout error, which happens
    only when the buffer was empty at the call and not before the timeout
    has elapsed. *)
Theorem X15_wait_returns_or_times_out fuel timeout w :
  (Z.to_nat ((default 30000 timeout + 99) / 100)%Z ≤ fuel)%nat →
  listeners (waitForNextCapture fuel timeout w).1 = listeners w ∧
  isCapturing (this (waitForNextCapture fuel timeout w).1) = isCapturing (this w) ∧
  match waitForNextCapture fuel timeout w with
  | (w', Ok d) =>
      last (buffer w') = Some d ∧
      (w' = w ∨ now w' - now w < default 30000 timeout)
  | (w', Thrown e) =>
      e = timeout_message (default 30000 timeout) ∧
      default 30000 timeout ≤ now w' - now w ∧
      buffer w = []
  | (_, Stuck) => False
  end.
Proof.
  intros Hfuel.
  destruct (frame_waitForNextCapture JSON_parse URL_searchParams fuel timeout w)
    as (Hl & _ & _ & _ & _ & Hi & _).
  split; [done|]. split; [done|].
  unfold Capture.waitForNextCapture.
  destruct (last (buffer w)) as [d|] eqn:Hlast; [by split; [|left]|].
  pose proof (wait_loop_outcome fuel (default 30000 timeout) (now w) w) as H.
  replace (now w - now w) with 0 in H by lia. rewrite Z.sub_0_r in H.
  specialize (H Hfuel).
  destruct (Capture.wait_loop _ _ fuel (default 30000 timeout) (now w) w)
    as [w' [d|e|]]; [|destruct H as [-> ?]; repeat split; try done|done].
  - destruct H. split; [done|by right].
  - by apply last_None.
Qed.

Lemma waitForNextCapture_last fuel timeout w w' d :
  waitForNextCapture fuel timeout w = (w', Ok d) → last (buffer w') = Some d.
Proof.
  unfold Capture.waitForNextCapture.
  destruct (last (buffer w)) as [d0|] eqn:Hl; [intros; by simplify_eq|].
  generalize (now w) at 1. intros start. clear Hl.
  revert w. induction fuel as [|fuel IH]; intros w; simpl;
    destruct (_ <? _); try done;
    destruct (last (buffer w)) eqn:Hl; try done; try (intros; by simplify_eq).
  apply IH.
Qed.

Lemma waitForNextCapture_captured fuel timeout w w' d :
  reachable w →
  waitForNextCapture fuel timeout w = (w', Ok d) →
  captured_by (urlPattern (this w)) d.
Proof.
  intros Hreach Hrun.
  assert (reachable w') as Hreach'.
  { replace w' with (run_op (OpWait fuel timeout) w)
      by (cbn [Capture.run_op]; by rewrite Hrun).
    by constructor. }
  destruct (reachable_sound w' Hreach') as [_ [Hbuf' _]].
  apply waitForNextCapture_last in Hrun as Hlast.
  apply last_Some in Hlast as (older & Hb). rewrite Hb in Hbuf'.
  apply Forall_app in Hbuf' as [_ Hd]. apply Forall_inv in Hd.
  eapply captured_by_ext; [|exact Hd].
  pose proof (frame_waitForNextCapture JSON_parse URL_searchParams fuel timeout w)
    as Hfr.
  rewrite Hrun in Hfr. destruct Hfr as (_&_&_&_&_&_&_&_&He).
  intros u. by rewrite <- He.
Qed.

(** X14. The buffer of a capture object holds nothing but captures of
    responses whose URL the pattern matches, each paired with the capture
    of that response's own request; so whatever [waitForNextCapture]
    returns is such a pair. *)
Theorem X14_buffer_holds_matching_captures fuel timeout w :
  reachable w →
  Forall (captured_by (urlPattern (this w))) (buffer w) ∧
  match waitForNextCapture fuel timeout w with
  | (_, Ok d) => captured_by (urlPattern (this w)) d
  | _ => True
  end.
Proof.
  intros Hreach.
  destruct (reachable_sound w Hreach) as [Hwf [Hbuf _]]. split; [done|].
  destruct (waitForNextCapture fuel timeout w) as [w' [d|e|]] eqn:Hrun; [|done..].
  by eapply waitForNextCapture_captured.
Qed.

(** X22. A wait that has returned a pair can be repeated: called again
    on the capture object as the first call left it, with any timeout,
    [waitForNextCapture] returns the same pair at once and changes
    nothing.  The second of two waits in a row does not wait for a
    second response. *)
Theorem X22_second_wait_returns_the_same_pair fuel timeout fuel' timeout' w w' d :
  waitForNextCapture fuel timeout w = (w', Ok d) →
  waitForNextCapture fuel' timeout' w' = (w', Ok d).
Proof.
  intros Hrun. apply waitForNextCapture_last in Hrun.
  unfold Capture.waitForNextCapture. by rewrite Hrun.
Qed.

(** X16. [waitForNextCapture] looks at the buffer before each polling
    sleep and not after the last one.  With a timeout of at most 100 ms
    and a buffer that is empty at the call, it throws the timeout error
    whatever arrives while it sleeps. *)
Theorem X16_short_wait_never_returns_a_pair fuel timeout w :
  buffer w = [] →
  timeout ≤ 100 →
  (1 ≤ fuel)%nat →
  ∃ w', waitForNextCapture fuel (Some timeout) w
        = (w', Thrown (timeout_message timeout)) ∧
        (w' = w ∨ w' = suspend 100 w).
Proof.
  intros Hb Ht Hfuel. unfold Capture.waitForNextCapture. rewrite Hb. simpl.
  destruct fuel as [|fuel]; [lia|]. simpl. rewrite Hb. simpl.
  destruct (Z.ltb_spec (now w - now w) timeout) as [Hlt|Hge]; [|by exists w; split; [|left]].
  exists (suspend 100 w).
  destruct (suspend_now JSON_parse URL_searchParams 100 w) as [Hnow _].
  split; [|by right].
  destruct fuel as [|fuel]; simpl;
    (destruct (Z.ltb_spec (now (suspend 100 w) - now w) timeout); [lia|done]).
Qed.

(** *** The convenience functions *)

Lemma stopCapture_now w : now (stopCapture w) = now w.
Proof. unfold stopCapture. by destruct (isCapturing (this w)). Qed.

(** X17. [waitForHttpCapture] takes its two handlers off the page on both
    exits.  On a page that has the listeners of other code only, it ends
    with exactly these listeners registered and with the capture stopped,
    whether it returns a pair, which is then the capture of a response
    whose URL the pattern matches, or throws the timeout error, which it
    does not do before the timeout has elapsed. *)
Theorem X17_waitForHttpCapture_releases_its_handlers fuel p timeout t0 s ids :
  (Z.to_nat ((default 30000 timeout + 99) / 100)%Z ≤ fuel)%nat →
  let result := waitForHttpCapture fuel p timeout t0 s (foreign ids) in
  listeners result.1 = foreign ids ∧
  isCapturing (this result.1) = false ∧
  match result.2 with
  | Ok d => last (buffer result.1) = Some d ∧ captured_by p d
  | Thrown e =>
      e = timeout_message (default 30000 timeout) ∧
      default 30000 timeout ≤ now result.1 - t0
  | Stuck => False
  end.
Proof.
  intros Hfuel. unfold CaptureMore.waitForHttpCapture.
  set (w0 := setupHttpCapture p t0 s (foreign ids)).
  assert (reachable w0) as Hreach.
  { apply (reachable_op _ _ OpStart). apply reachable_create. }
  assert (registry_of ids w0) as Hreg by (by apply registry_of_startCapture).
  pose proof (frame_waitForNextCapture JSON_parse URL_searchParams fuel timeout w0)
    as Hfr.
  pose proof (waitForNextCapture_captured fuel timeout w0) as Hgot.
  pose proof (waitForNextCapture_last fuel timeout w0) as Hlast.
  assert (waitForNextCapture fuel timeout w0
          = wait_loop fuel (default 30000 timeout) t0 w0) as Hwait by done.
  pose proof (wait_loop_outcome fuel (default 30000 timeout) t0 w0) as Hout.
  change (now w0) with t0 in Hout.
  replace (t0 - t0) with 0 in Hout by lia. rewrite Z.sub_0_r in Hout.
  specialize (Hout Hfuel). rewrite <- Hwait in Hout.
  destruct (Capture.waitForNextCapture _ _ fuel timeout w0) as [w1 o] eqn:Hrun.
  simpl in Hfr.
  pose proof (registry_of_stopCapture ids w1 (registry_of_frame ids w0 w1 Hfr Hreg))
    as Hreg1.
  pose proof (stopCapture_not_capturing w1) as Hidle.
  unfold CaptureMore.registry_of in Hreg1. rewrite Hidle in Hreg1.
  destruct (stopCapture_keeps w1) as (Harr & Hcd & _).
  destruct o as [d|e|]; [| |done]; cbn [fst snd].
  - split; [done|]. split; [done|]. split.
    + unfold buffer. rewrite Harr, Hcd. by apply Hlast.
    + by apply (Hgot w1 d).
  - split; [done|]. split; [done|]. destruct Hout as [-> Hnow].
    split; [done|]. by rewrite stopCapture_now.
Qed.

(** *** What a captured response holds *)

(** X21. [captureResponse] never fails, and copies the status, the
    status text and the headers of the response.  Its body is [null] when
    the body of the response cannot be read, and also when the response
    has a [content-type] containing [application/json] and a text that
    parses to [null]; it is parsed JSON only for such a [content-type] and
    a text that parses; and a body that is a string is the text of the
    response as it was read, or the string that this text parses to. *)
Theorem X21_captureResponse_body (r : Response) :
  let c := captureResponse r in
  let json := Js.includes (default "" (res_headers r !! "content-type"))
                "application/json" in
  status c = res_status r ∧ statusText c = res_statusText r ∧
  responseHeaders c = res_headers r ∧ rawResponse c = r ∧
  (body c = DNull ↔
     res_text r = None ∨
     ∃ t, res_text r = Some t ∧ json = true ∧ JSON_parse t = Some DNull) ∧
  (∀ j, body c = DJson j →
        json = true ∧ ∃ t, res_text r = Some t ∧ JSON_parse t = Some (DJson j)) ∧
  (∀ s, body c = DText s →
        ∃ t, res_text r = Some t ∧
             (s = t ∨ json = true ∧ JSON_parse t = Some (DText s))).
Proof.
  simpl. do 4 (split; [done|]).
  destruct (res_text r) as [t|]; simpl.
  - destruct (Js.includes _ _) eqn:Hct; [destruct (JSON_parse t) as [d|] eqn:Hj|].
    + split; [split|split].
      * intros ->. right. by exists t.
      * intros [?|(t' & ? & _ & ?)]; simplify_eq; congruence.
      * intros j ->. split; [done|]. by exists t.
      * intros s ->. exists t. split; [done|]. by right.
    + split; [split|split].
      * done.
      * intros [?|(t' & ? & _ & ?)]; simplify_eq; congruence.
      * done.
      * intros s ?; simplify_eq. exists s. split; [done|by left].
    + split; [split|split].
      * done.
      * by intros [?|(t' & ? & ? & ?)].
      * done.
      * intros s ?; simplify_eq. exists s. split; [done|by left].
  - split; [split|split]; try done. by left.
Qed.

(** *** What a captured request holds *)

Lemma foldl_assign_lookup (entries : list (string * string)) key :
  (foldl (λ q '(k, v), assign k v q) (∅ : gmap string string) entries) !! key
  = if decide (key = "__proto__") then None else last_value key entries.
Proof.
  induction entries as [|[k v] entries IH] using rev_ind.
  - by destruct (decide _).
  - unfold last_value. rewrite foldl_app, omap_app. simpl. unfold assign at 1.
    destruct (decide (k = key)) as [->|Hne].
    + destruct (decide (key = "__proto__")) as [Hp|Hp]; [by rewrite IH|].
      by rewrite lookup_insert_eq, last_snoc.
    + rewrite app_nil_r. destruct (decide (k = "__proto__")); [done|].
      by rewrite lookup_insert_ne.
Qed.

(** X18. [captureRequest] fails exactly when the URL of the request
    cannot be parsed.  Otherwise the capture carries the URL, the method
    and the headers of the request and the request itself; each query
    parameter other than [__proto__] has the value of its last occurrence
    in the URL, and [__proto__] is never stored; and the body is [null]
    exactly when the request has none or has one whose text parses to
    [null]. *)
Theorem X18_captureRequest_keeps_last_query_value (r : Request) :
  match URL_searchParams (req_url r) with
  | None => captureRequest r = None
  | Some entries =>
      ∃ c, captureRequest r = Some c ∧
           (∀ key, queryParams c !! key
                   = if decide (key = "__proto__") then None
                     else last_value key entries) ∧
           url c = req_url r ∧ method c = req_method r ∧
           headers c = req_headers r ∧ rawRequest c = r ∧
           (postData c = DNull ↔
              req_postDataBuffer r = None ∨
              ∃ s, req_postDataBuffer r = Some s ∧ JSON_parse s = Some DNull)
  end.
Proof.
  unfold Capture.captureRequest.
  destruct (URL_searchParams (req_url r)) as [entries|]; [|done].
  eexists. split; [done|]. simpl.
  split; [intros key; apply foldl_assign_lookup|].
  repeat split; try done.
  - destruct (req_postDataBuffer r) as [b|]; [|by left].
    destruct (JSON_parse b) as [d|] eqn:Hj; [|done].
    intros ->. right. by exists b.
  - intros [->|(s & -> & ->)]; done.
Qed.

End correlator.

Lemma X13_witness :
  let d := {| request := {| url := "http://h/api/a"; method := "GET"; headers := ∅;
                            queryParams := ∅; postData := DNull;
                            rawRequest := get "http://h/api/a" |};
              response := captureResponse never_json response_a |} in
  buffer (resume never_json 0 (clear capture_pending)) = [d] ∧
  buffer (resume never_json 0 (stopCapture capture_pending))
  = buffer capture_pending ++ [d] ∧
  buffer (resume never_json 0 (startCapture (stopCapture capture_pending))) = [d].
Proof.
  apply (X13_suspended_handler_completes_after_clear_and_stop never_json no_query
           capture_pending 0).
  - apply reachable_pending.
  - reflexivity.
Defined.

Lemma X14_witness :
  Forall (captured_by never_json no_query (urlPattern (this capture_reordered)))
    (buffer capture_reordered) ∧
  match waitForNextCapture never_json no_query 0 None capture_reordered with
  | (_, Ok d) => captured_by never_json no_query (urlPattern (this capture_reordered)) d
  | _ => True
  end.
Proof.
  apply (X14_buffer_holds_matching_captures never_json no_query 0 None
           capture_reordered).
  apply reachable_reordered.
Defined.

Lemma X15_witness :
  listeners (waitForNextCapture never_json no_query 3 (Some 250) capture_unmatched).1
  = listeners capture_unmatched ∧
  isCapturing
    (this (waitForNextCapture never_json no_query 3 (Some 250) capture_unmatched).1)
  = isCapturing (this capture_unmatched) ∧
  match waitForNextCapture never_json no_query 3 (Some 250) capture_unmatched with
  | (w', Ok d) =>
      last (buffer w') = Some d ∧
      (w' = capture_unmatched ∨ now w' - now capture_unmatched < default 30000 (Some 250))
  | (w', Thrown e) =>
      e = timeout_message (default 30000 (Some 250)) ∧
      default 30000 (Some 250) ≤ now w' - now capture_unmatched ∧
      buffer capture_unmatched = []
  | (_, Stuck) => False
  end.
Proof.
  apply (X15_wait_returns_or_times_out never_json no_query 3 (Some 250)
           capture_unmatched).
  vm_compute. lia.
Defined.

(** The first wait sleeps once, during which the response [a] arrives
    and its body is read; the second wait returns the pair of [a] again. *)
Lemma X22_witness :
  let w := setupHttpCapture (PatString "/api") 0 arrival [] in
  ∃ w' d,
    waitForNextCapture never_json no_query 300 None w = (w', Ok d) ∧
    waitForNextCapture never_json no_query 0 (Some 1) w' = (w', Ok d).
Proof.
  intros w.
  destruct (waitForNextCapture never_json no_query 300 None w) as [w' [d| |]] eqn:Hrun;
    [|by vm_compute in Hrun..].
  exists w', d. split; [done|].
  by apply (X22_second_wait_returns_the_same_pair never_json no_query 300 None
              0 (Some 1) w w' d).
Defined.

(** The response [a] arrives, and its body is read, during the only
    polling sleep of a wait of 100 ms: the wait throws although the pair
    is in the buffer when it ends. *)
Lemma X16_witness :
  let w := setupHttpCapture (PatString "/api") 0 arrival [] in
  (∃ w', waitForNextCapture never_json no_query 1 (Some 100) w
         = (w', Thrown (timeout_message 100)) ∧
         (w' = w ∨ w' = suspend never_json no_query 100 w)) ∧
  length (buffer (suspend never_json no_query 100 w)) = 1%nat.
Proof.
  intros w. split.
  - apply (X16_short_wait_never_returns_a_pair never_json no_query 1 100 w).
    + reflexivity.
    + lia.
    + lia.
  - reflexivity.
Defined.

Lemma X17_witness :
  let result :=
    waitForHttpCapture never_json no_query 300 (PatString "/api") None 0 arrival
      (foreign [(EvRequest, 7%nat)]) in
  listeners result.1 = foreign [(EvRequest, 7%nat)] ∧
  isCapturing (this result.1) = false ∧
  match result.2 with
  | Ok d =>
      last (buffer result.1) = Some d ∧
      captured_by never_json no_query (PatString "/api") d
  | Thrown e =>
      e = timeout_message (default 30000 None) ∧
      default 30000 None ≤ now result.1 - 0
  | Stuck => False
  end.
Proof.
  apply (X17_waitForHttpCapture_releases_its_handlers never_json no_query 300
           (PatString "/api") None 0 arrival [(EvRequest, 7%nat)]).
  vm_compute. lia.
Defined.

(** *** Regular expressions with the [g] flag *)

(** X19. A test of the pattern never answers [true] for a URL in which
    the pattern has no match.  For a regular expression that is not
    sticky, and a URL in which it has a match, two evaluations in a row
    on that URL do not both answer [false]: an evaluation that misses
    leaves [lastIndex] at 0, and the next one searches the whole URL. *)
Theorem X19_global_regexp_misses_at_most_once (r : Js.RegExp) (u : string) :
  Js.sticky r = false →
  let first := matchesPattern (PatRegExp r) u in
  let second := matchesPattern first.2 u in
  (url_matches (PatRegExp r) u = false → first.1 = false ∧ second.1 = false) ∧
  (url_matches (PatRegExp r) u = true → first.1 = true ∨ second.1 = true).
Proof.
  intros Hst first second. split.
  - intros Hno. split.
    + destruct first.1 eqn:H1; [|done].
      apply matchesPattern_sound in H1. congruence.
    + destruct second.1 eqn:H2; [|done].
      apply matchesPattern_sound in H2. subst first.
      rewrite url_matches_after in H2. congruence.
  - intros Hyes. destruct first.1 eqn:H1; [by left|]. right.
    subst first second. rewrite matchesPattern_regexp in *. simpl in *.
    apply url_matches_regexp in Hyes as (j & Hj & Hm).
    assert ((Js.RegExp_test r u).2 = Js.set_lastIndex 0 r) as ->.
    { revert H1. unfold Js.RegExp_test.
      destruct (Js.global r || Js.sticky r) eqn:Hfl.
      - destruct (decide _); [done|]. by destruct (Js.exec_from _ _ _ _).
      - destruct (decide _) as [|_]; [simpl in *; lia|]. rewrite Nat.sub_0_r.
        destruct (Js.exec_from r u (String.length u) 0) eqn:He; [done|].
        pose proof (JsFacts.exec_from_None r u _ _ Hst He j) as Hnone.
        rewrite Hnone in Hm by lia. by destruct Hm. }
    unfold Js.RegExp_test. simpl.
    destruct (Js.global r || Js.sticky r);
      (destruct (decide _) as [|_]; [lia|]); rewrite Nat.sub_0_r;
      (destruct (Js.exec_from (Js.set_lastIndex 0 r) u (String.length u) 0) eqn:He;
       [done|]);
      pose proof (JsFacts.exec_from_None (Js.set_lastIndex 0 r) u _ _ Hst He j)
        as Hnone; simpl in Hnone; rewrite Hnone in Hm by lia; by destruct Hm.
Qed.

Lemma X19_witness :
  let u := "http://h/api/users" in
  let first := matchesPattern (PatRegExp api_g) u in
  let second := matchesPattern first.2 u in
  (url_matches (PatRegExp api_g) u = false → first.1 = false ∧ second.1 = false) ∧
  (url_matches (PatRegExp api_g) u = true → first.1 = true ∨ second.1 = true).
Proof.
  apply (X19_global_regexp_misses_at_most_once api_g "http://h/api/users").
  reflexivity.
Defined.

End CaptureMoreFacts.
